(** * IELTS listening generator: WAV encoder and voice resolver

    A shallow embedding of the two algorithmic pieces of the repository:

    - [utils/audioUtils.ts]: [createWavFile] and the byte-level part of
      [createWavFileDataUrl] (the RIFF/WAVE header writer and the
      trailing-silence padding);
    - [services/geminiService.ts]: [parseGenders] and the voice
      configuration computed by [generateSpeech] before the remote call.

    Conventions.  A JavaScript string is the list of its UTF-16 code
    units ([jsstring]); a [Uint8Array] is a [list byte]; a thrown
    exception is the [Err] branch of [result].  Lengths and indices are
    [Z] or [nat]; the numbers the source computes with - the header
    products, the silence duration - are doubles, [spec_float] values of
    the binary64 format with the operations of the standard.  What
    depends on the engine that runs the code, the longest buffer, the
    longest string and the longest array it grants, is a parameter
    ([Engine]). *)

From Stdlib Require Import String Ascii.
From Stdlib Require Import ZArith List Lia Bool QArith Qround.
From Stdlib Require Import Strings.Byte.
From Stdlib Require Import Floats.SpecFloat.
Import ListNotations.

Local Open Scope Z_scope.

(* ================================================================= *)
(** ** Results and exceptions *)

Inductive result (E A : Type) : Type :=
| Ok (a : A)
| Err (e : E).
Arguments Ok {E A} a.
Arguments Err {E A} e.

(** Strings as sequences of UTF-16 code units. *)
Definition jsstring := list Z.

(** A string literal of the source, restricted to ASCII. *)
Definition js (s : string) : jsstring :=
  map (fun a => Z.of_N (N_of_ascii a)) (list_ascii_of_string s).

(* ================================================================= *)
(** ** Bytes and buffers *)

Module Buffer.

(** The only exception the buffer operations raise. *)
Inductive exn := RangeError.

(** [Number.MAX_SAFE_INTEGER]: the largest length [ToIndex] accepts. *)
Definition MAX_SAFE_INTEGER : Z := 2 ^ 53 - 1.

(** The largest [length] of an [Array]. *)
Definition MAX_ARRAY_LENGTH : Z := 2 ^ 32 - 1.

(** What the language leaves to the engine: the longest [ArrayBuffer]
    or typed array it grants and the longest string it builds, neither
    beyond [2^53 - 1], and the longest [Array] it grows, not beyond
    [2^32 - 1].  A request above the limit raises [RangeError]
    ("Array buffer allocation failed", "Invalid string length",
    "Invalid array length").  The limits are taken as fixed for the
    duration of a call. *)
Class Engine : Type := {
  max_buffer_length : Z;
  max_buffer_length_bound : 0 <= max_buffer_length <= MAX_SAFE_INTEGER;
  max_string_length : Z;
  max_string_length_bound : 0 <= max_string_length <= MAX_SAFE_INTEGER;
  max_array_length : Z;
  max_array_length_bound : 0 <= max_array_length <= MAX_ARRAY_LENGTH
}.

(** Storing a number into a byte cell keeps it modulo 256. *)
Definition u8 (z : Z) : byte :=
  match Byte.of_N (Z.to_N (z mod 256)) with
  | Some b => b
  | None => x00
  end.

Definition byte_val (b : byte) : Z := Z.of_N (Byte.to_N b).

(** [new ArrayBuffer(n)] / [new Uint8Array(n)] for an integral [n]:
    [ToIndex] rejects a negative length, the allocation one beyond what
    the engine grants; the fresh buffer is zero-filled. *)
Definition alloc {engine : Engine} (n : Z) : result exn (list byte) :=
  if (0 <=? n) && (n <=? max_buffer_length)
  then Ok (repeat x00 (Z.to_nat n))
  else Err RangeError.

(** A string the code builds by concatenation exists only within the
    engine's limit. *)
Definition new_string {engine : Engine} (s : jsstring)
  : result exn jsstring :=
  if Z.of_nat (length s) <=? max_string_length then Ok s else Err RangeError.

(** [target.set(source, offset)] on typed arrays. *)
Definition set (target source : list byte) (offset : nat)
  : result exn (list byte) :=
  if (offset + length source <=? length target)%nat
  then Ok (firstn offset target ++ source
           ++ skipn (offset + length source) target)
  else Err RangeError.

(** The bytes of an unsigned quantity, least significant first. *)
Fixpoint le_bytes (width : nat) (n : Z) : list byte :=
  match width with
  | O => []
  | S w => u8 n :: le_bytes w (n / 256)
  end.

(** Reading an unsigned little-endian quantity back. *)
Fixpoint le_value (bs : list byte) : Z :=
  match bs with
  | [] => 0
  | b :: bs' => byte_val b + 256 * le_value bs'
  end.

(** *** A [DataView] over a buffer, as a state-and-error monad *)

Definition View (A : Type) : Type :=
  list byte -> result exn (A * list byte).

Definition ret {A} (a : A) : View A := fun buf => Ok (a, buf).

Definition bind {A B} (m : View A) (k : A -> View B) : View B :=
  fun buf =>
    match m buf with
    | Ok (a, buf') => k a buf'
    | Err e => Err e
    end.

Definition exec {A} (m : View A) (buf : list byte)
  : result exn (list byte) :=
  match m buf with
  | Ok (_, buf') => Ok buf'
  | Err e => Err e
  end.

End Buffer.

Import Buffer.

(** The engine that grants whatever the language allows. *)
Definition language_engine : Engine :=
  {| max_buffer_length := MAX_SAFE_INTEGER;
     max_buffer_length_bound := ltac:(vm_compute; split; discriminate);
     max_string_length := MAX_SAFE_INTEGER;
     max_string_length_bound := ltac:(vm_compute; split; discriminate);
     max_array_length := MAX_ARRAY_LENGTH;
     max_array_length_bound := ltac:(vm_compute; split; discriminate) |}.

Declare Scope view_scope.
Delimit Scope view_scope with view.
Notation "m ;; k" := (Buffer.bind m (fun _ => k))
  (at level 61, right associativity) : view_scope.

(* ================================================================= *)
(** ** Numbers

    A JavaScript number is a binary64 value; products and quotients are
    those of the standard, rounded to nearest even. *)
Module Number.

Definition prec : Z := 53.
Definition emax : Z := 1024.

Definition double := spec_float.

Definition zero : double := S754_zero false.

(** The double holding an integer literal of the source. *)
Definition of_Z (z : Z) : double := binary_normalize prec emax z 0 false.

Definition mul (x y : double) : double := SFmul prec emax x y.

Definition div (x y : double) : double := SFdiv prec emax x y.

(** [x > y] on doubles; false as soon as one side is NaN. *)
Definition gt (x y : double) : bool := SFltb y x.

(** [x >= y] on doubles. *)
Definition ge (x y : double) : bool := SFleb y x.

(** The integral part of a finite number, the fraction dropped; 0 for
    the zeros, the infinities and NaN, as [ToUint32] and [ToUint16]
    want it. *)
Definition truncate (x : double) : Z :=
  match x with
  | S754_finite s m e =>
      let magnitude := Z.shiftl (Zpos m) e in
      if s then - magnitude else magnitude
  | _ => 0
  end.

(** [ToUint32] / [ToUint16]: truncate towards zero, then reduce modulo
    the width. *)
Definition ToUint32 (x : double) : Z := truncate x mod 2 ^ 32.
Definition ToUint16 (x : double) : Z := truncate x mod 2 ^ 16.

Inductive integral : Type :=
| Integer (z : Z)
| Infinite (negative : bool)
| NotANumber.

(** [Math.floor]: the mantissa shifted by the exponent, rounding
    towards minus infinity when the exponent is negative. *)
Definition floor (x : double) : integral :=
  match x with
  | S754_zero _ => Integer 0
  | S754_infinity s => Infinite s
  | S754_nan => NotANumber
  | S754_finite s m e => Integer (Z.shiftl (if s then Zneg m else Zpos m) e)
  end.

(** Product of an integral number with one of the positive integer
    constants of the source (1 and 2): exact in binary64, overflowing
    to an infinity from [2^1024] on. *)
Definition scale (x : integral) (k : Z) : integral :=
  match x with
  | Integer z =>
      if Z.abs (z * k) <? 2 ^ emax then Integer (z * k)
      else Infinite (z * k <? 0)
  | other => other
  end.

(** [len + x] for a buffer length [len]. *)
Definition plus (len : Z) (x : integral) : integral :=
  match x with
  | Integer z => Integer (len + z)
  | other => other
  end.

(** [x > 0] on an integral number. *)
Definition positive (x : integral) : bool :=
  match x with
  | Integer z => 0 <? z
  | Infinite negative => negb negative
  | NotANumber => false
  end.

End Number.

Module DataView.

(** Overwrite [length bs] cells from [byteOffset]; a write that does
    not fit raises [RangeError], as every [DataView] setter does. *)
Definition store (byteOffset : nat) (bs : list byte) : View unit :=
  fun buf =>
    if (byteOffset + length bs <=? length buf)%nat
    then Ok (tt, firstn byteOffset buf ++ bs
                 ++ skipn (byteOffset + length bs) buf)
    else Err RangeError.

Definition order (littleEndian : bool) (bs : list byte) : list byte :=
  if littleEndian then bs else rev bs.

Definition setUint8 (byteOffset : nat) (value : Z) : View unit :=
  store byteOffset [u8 value].

Definition setUint16 (byteOffset : nat) (value : Number.double)
    (littleEndian : bool) : View unit :=
  store byteOffset (order littleEndian (le_bytes 2 (Number.ToUint16 value))).

Definition setUint32 (byteOffset : nat) (value : Number.double)
    (littleEndian : bool) : View unit :=
  store byteOffset (order littleEndian (le_bytes 4 (Number.ToUint32 value))).

End DataView.

Import DataView.

(* ================================================================= *)
(** ** [utils/audioUtils.ts] *)

Local Open Scope view_scope.

(** [writeString(view, offset, str)]: the loop over [i], one
    [setUint8(offset + i, str.charCodeAt(i))] per code unit. *)
Fixpoint writeString_loop (offset i : nat) (str : jsstring) : View unit :=
  match str with
  | [] => ret tt
  | c :: rest => setUint8 (offset + i) c ;; writeString_loop offset (S i) rest
  end.

Definition writeString (offset : nat) (str : jsstring) : View unit :=
  writeString_loop offset 0 str.

Definition headerLength : Z := 44.

(** The writes [createWavFile] performs through its [DataView], in
    source order.  [byteRate] and [blockAlign] are the doubles the
    source computes, [sampleRate * numChannels * (bitsPerSample / 8)]
    and [numChannels * (bitsPerSample / 8)], evaluated from the left.
    The two sizes are lengths of buffers, integers below [2^53], on
    which the subtraction of 8 is exact. *)
Definition writeHeader (fileSize dataSize sampleRate numChannels
                          bitsPerSample : Z) : View unit :=
  let sampleRate := Number.of_Z sampleRate in
  let numChannels := Number.of_Z numChannels in
  let bitsPerSample := Number.of_Z bitsPerSample in
  let byteRate :=
    Number.mul (Number.mul sampleRate numChannels)
      (Number.div bitsPerSample (Number.of_Z 8)) in
  let blockAlign :=
    Number.mul numChannels (Number.div bitsPerSample (Number.of_Z 8)) in
  writeString 0 (js "RIFF") ;;
  setUint32 4 (Number.of_Z (fileSize - 8)) true ;;
  writeString 8 (js "WAVE") ;;
  writeString 12 (js "fmt ") ;;
  setUint32 16 (Number.of_Z 16) true ;;
  setUint16 20 (Number.of_Z 1) true ;;
  setUint16 22 numChannels true ;;
  setUint32 24 sampleRate true ;;
  setUint32 28 byteRate true ;;
  setUint16 32 blockAlign true ;;
  setUint16 34 bitsPerSample true ;;
  writeString 36 (js "data") ;;
  setUint32 40 (Number.of_Z dataSize) true.

(** [createWavFile]: the buffer of [fileSize] bytes, the header written
    through the view, the samples copied behind it.  The format numbers
    are the integers the caller passes. *)
Definition createWavFile {engine : Engine} (pcmData : list byte)
    (sampleRate numChannels bitsPerSample : Z)
  : result exn (list byte) :=
  let dataSize := Z.of_nat (length pcmData) in
  let fileSize := dataSize + headerLength in
  match alloc fileSize with
  | Err e => Err e
  | Ok buffer =>
      match exec (writeHeader fileSize dataSize sampleRate numChannels
                    bitsPerSample) buffer with
      | Err e => Err e
      | Ok wavBytes => Buffer.set wavBytes pcmData (Z.to_nat headerLength)
      end
  end.

(** *** Numbers of [createWavFileDataUrl]

    [trailingSilenceSeconds] is a double; its product with the sample
    rate is the binary64 product.  [Math.floor] yields an integral
    number, kept as an exact integer (or an infinity, or NaN). *)

(** [new Uint8Array(length)] for a numeric length: [ToIndex] maps NaN to
    0 and rejects infinities and negative integers. *)
Definition new_Uint8Array {engine : Engine} (len : Number.integral)
  : result exn (list byte) :=
  match len with
  | Number.Integer z => alloc z
  | Number.Infinite _ => Err RangeError
  | Number.NotANumber => alloc 0
  end.

(** The constants of [createWavFileDataUrl] ("Gemini TTS model
    specifics"). *)
Definition sampleRate : Z := 24000.
Definition numChannels : Z := 1.
Definition bitsPerSample : Z := 16.

(** [silenceBytesCount], lines 96-98; [bitsPerSample / 8] is [16 / 8],
    an exact division. *)
Definition silenceBytesCount (trailingSilenceSeconds : Number.double)
  : Number.integral :=
  let bytesPerSample := bitsPerSample / 8 in
  let numSilenceSamples :=
    Number.floor (Number.mul trailingSilenceSeconds (Number.of_Z sampleRate)) in
  Number.scale (Number.scale numSilenceSamples numChannels) bytesPerSample.

(** Lines 95-107: the value of [pcmData] after the optional padding. *)
Definition padded {engine : Engine} (pcmData : list byte)
    (trailingSilenceSeconds : Number.double)
  : result exn (list byte) :=
  if Number.gt trailingSilenceSeconds Number.zero then
    let count := silenceBytesCount trailingSilenceSeconds in
    if Number.positive count then
      match new_Uint8Array count with
      | Err e => Err e
      | Ok silenceBuffer =>
          match new_Uint8Array
                  (Number.plus (Z.of_nat (length pcmData)) count) with
          | Err e => Err e
          | Ok combinedData =>
              match Buffer.set combinedData pcmData 0 with
              | Err e => Err e
              | Ok combinedData' =>
                  Buffer.set combinedData' silenceBuffer (length pcmData)
              end
          end
      end
    else Ok pcmData
  else Ok pcmData.

(** [wavFileBytes] of [createWavFileDataUrl] (lines 88-109), as a
    function of the decoded samples and the silence duration.  The
    base64 transport around it ([atob] on entry, [btoa] and the
    [data:audio/wav;base64,] prefix on exit) is the platform's and is
    not part of the byte-level encoder. *)
Definition wavFileBytes {engine : Engine} (pcmData : list byte)
    (trailingSilenceSeconds : Number.double) : result exn (list byte) :=
  match padded pcmData trailingSilenceSeconds with
  | Err e => Err e
  | Ok pcmData' => createWavFile pcmData' sampleRate numChannels bitsPerSample
  end.

(** Doubles used in the examples, written as mantissa and exponent. *)
Definition d_half : Number.double := S754_finite false 4503599627370496 (-53).
Definition d_1e_5 : Number.double := S754_finite false 5902958103587057 (-69).
Definition d_2p60 : Number.double := S754_finite false 4503599627370496 8.


(* ================================================================= *)
(** ** JavaScript strings *)

Module JSString.

(** Code units named in the source. *)
Definition colon : Z := 58.
Definition comma : Z := 44.
Definition LF : Z := 10.

(** [LineTerminator]: LF, CR, LS, PS. *)
Definition is_LineTerminator (c : Z) : bool :=
  (c =? 10) || (c =? 13) || (c =? 8232) || (c =? 8233).

(** [WhiteSpace]: TAB, VT, FF, SP, NBSP, ZWNBSP and the space
    separators. *)
Definition is_WhiteSpace (c : Z) : bool :=
  (c =? 9) || (c =? 11) || (c =? 12) || (c =? 32) || (c =? 160)
  || (c =? 5760) || ((8192 <=? c) && (c <=? 8202))
  || (c =? 8239) || (c =? 8287) || (c =? 12288) || (c =? 65279).

(** The class [\s] of a regular expression, which is also what [trim]
    strips and what [parseInt] skips: white space and line
    terminators. *)
Definition is_space (c : Z) : bool := is_WhiteSpace c || is_LineTerminator c.

Definition is_digit (c : Z) : bool := (48 <=? c) && (c <=? 57).

(** [a-zA-Z]. *)
Definition is_letter (c : Z) : bool :=
  ((97 <=? c) && (c <=? 122)) || ((65 <=? c) && (c <=? 90)).

Fixpoint eqb (s t : jsstring) : bool :=
  match s, t with
  | [], [] => true
  | c :: s', d :: t' => (c =? d) && eqb s' t'
  | _, _ => false
  end.

Fixpoint takeWhile (p : Z -> bool) (s : jsstring) : jsstring :=
  match s with
  | c :: s' => if p c then c :: takeWhile p s' else []
  | [] => []
  end.

Fixpoint dropWhile (p : Z -> bool) (s : jsstring) : jsstring :=
  match s with
  | c :: s' => if p c then dropWhile p s' else s
  | [] => []
  end.

Definition trimStart (s : jsstring) : jsstring := dropWhile is_space s.
Definition trimEnd (s : jsstring) : jsstring :=
  rev (dropWhile is_space (rev s)).

(** [s.trim()]. *)
Definition trim (s : jsstring) : jsstring := trimEnd (trimStart s).

(** [s.startsWith(prefix)]. *)
Fixpoint startsWith (s prefix : jsstring) : bool :=
  match prefix, s with
  | [], _ => true
  | p :: prefix', c :: s' => (c =? p) && startsWith s' prefix'
  | _ :: _, [] => false
  end.

(** [s.includes(sub)]: [sub] occurs at some position of [s]. *)
Fixpoint includes (s sub : jsstring) : bool :=
  startsWith s sub
  || match s with
     | [] => false
     | _ :: s' => includes s' sub
     end.

(** [s.slice(0, -1)]: all but the last code unit. *)
Definition slice_0_m1 (s : jsstring) : jsstring := removelast s.

(** [parseInt(s, 10)]: leading white space is skipped, a sign is read,
    then the longest run of decimal digits; what follows the digits is
    disregarded; [None] stands for NaN.  The value is the exact
    integer (a double rounds it from 2^53 on). *)
Definition digits_value (ds : jsstring) : Z :=
  fold_left (fun acc c => 10 * acc + (c - 48)) ds 0.

Definition parseInt (s : jsstring) : option Z :=
  let s1 := trimStart s in
  let '(negative, s2) :=
    match s1 with
    | 45 :: r => (true, r)
    | 43 :: r => (false, r)
    | _ => (false, s1)
    end in
  match takeWhile is_digit s2 with
  | [] => None
  | ds => Some (if negative then - digits_value ds else digits_value ds)
  end.

(** [s.split(/[\s,]+/)]: the pieces between maximal runs of
    separators, empty pieces at either end included. *)
Definition is_separator (c : Z) : bool := is_space c || (c =? comma).

Fixpoint split_loop (in_separator : bool) (piece : jsstring) (s : jsstring)
  : list jsstring :=
  match s with
  | [] => [rev piece]
  | c :: s' =>
      if is_separator c then
        if in_separator then split_loop true piece s'
        else rev piece :: split_loop true [] s'
      else split_loop false (c :: piece) s'
  end.

Definition split_separators (s : jsstring) : list jsstring :=
  split_loop false [] s.

(** [.filter(Boolean)] on strings keeps the non-empty ones. *)
Definition truthy (s : jsstring) : bool :=
  match s with [] => false | _ :: _ => true end.

(** The [replace] of the range U+0300 to U+036F by nothing: the
    combining diacritical marks are removed. *)
Definition is_combining_mark (c : Z) : bool := (768 <=? c) && (c <=? 879).

Definition strip_marks (s : jsstring) : jsstring :=
  filter (fun c => negb (is_combining_mark c)) s.

(** [new Set(values)] spread back into an array: each value is added
    unless already present, so values stay in order of first
    insertion. *)
Definition Set_add (set : list jsstring) (v : jsstring) : list jsstring :=
  if existsb (eqb v) set then set else set ++ [v].

Definition Set_values (values : list jsstring) : list jsstring :=
  fold_left Set_add values [].

End JSString.

Import JSString.

(** The two Unicode-table functions of the platform that the service
    calls, with the facts about them that the development uses: on
    ASCII text [toLowerCase] lowers the letters A-Z and leaves the rest,
    and NFD normalisation changes nothing; both send blank strings to
    blank strings. *)
Definition is_ascii (c : Z) : bool := (0 <=? c) && (c <? 128).

Definition ascii_lower (c : Z) : Z :=
  if (65 <=? c) && (c <=? 90) then c + 32 else c.

Class Platform : Type := {
  toLowerCase : jsstring -> jsstring;
  normalizeNFD : jsstring -> jsstring;
  toLowerCase_ascii :
    forall s, forallb is_ascii s = true -> toLowerCase s = map ascii_lower s;
  normalizeNFD_ascii :
    forall s, forallb is_ascii s = true -> normalizeNFD s = s;
  toLowerCase_blank :
    forall s, forallb is_space s = true ->
              forallb is_space (toLowerCase s) = true;
  normalizeNFD_blank :
    forall s, forallb is_space s = true ->
              forallb is_space (normalizeNFD s) = true
}.

(* ================================================================= *)
(** ** [services/geminiService.ts] *)

Inductive gender : Type := male | female.

Definition MALE_VOICES : list jsstring := [js "Puck"; js "Charon"; js "Fenrir"].
Definition FEMALE_VOICES : list jsstring := [js "Kore"; js "Zephyr"].

(** *** [parseGenders] *)

(** [for (let i = 0; i < currentCount; i++) genders.push(g)].  The
    list is the array as long as the engine can hold it; a push beyond
    the engine's limit raises [RangeError], so a list longer than
    [max_array_length] stands for no array, and what is stated of the
    array [parseGenders] returns is stated within that limit. *)
Definition push_times (currentCount : Z) (g : gender) (genders : list gender)
  : list gender :=
  genders ++ repeat g (Z.to_nat currentCount).

Definition is_male_word (part : jsstring) : bool :=
  startsWith part (js "nam") || startsWith part (js "man")
  || startsWith part (js "men").

Definition is_female_word (part : jsstring) : bool :=
  startsWith part (js "nu") || startsWith part (js "woman")
  || startsWith part (js "women").

(** The body of the loop over [parts], on the pair
    [(currentCount, genders)]: [words] is the chain of [else if]s,
    reached when [num] is NaN or not positive. *)
Definition parseGenders_step (state : Z * list gender) (part : jsstring)
  : Z * list gender :=
  let '(currentCount, genders) := state in
  let words :=
    if is_male_word part then (1, push_times currentCount male genders)
    else if is_female_word part then
      (1, push_times currentCount female genders)
    else state in
  match parseInt part with
  | Some num => if 0 <? num then (num, genders) else words
  | None => words
  end.

Section Service.

Context {platform : Platform}.

(** [s.toLowerCase().normalize("NFD")] followed by the removal of the
    combining marks. *)
Definition normalized (s : jsstring) : jsstring :=
  strip_marks (normalizeNFD (toLowerCase s)).

Definition parseGenders (genderString : jsstring) : list gender :=
  if negb (truthy (trim genderString)) then []
  else
    let normalizedString := normalized genderString in
    let parts := filter truthy (split_separators normalizedString) in
    snd (fold_left parseGenders_step parts (1, [])).

(** *** The single-voice branch of [generateSpeech] *)

Definition singleVoiceName (voiceGenders : jsstring) : jsstring :=
  let normalizedGenders := normalized voiceGenders in
  if includes normalizedGenders (js "nam")
     || includes normalizedGenders (js "man")
  then js "Puck"
  else js "Kore".

End Service.

(** *** [speakerRegex], the pattern [^([a-zA-Z0-9\s]+):] with the flags
    [g] and [m] *)

Definition is_label_char (c : Z) : bool :=
  is_letter c || is_digit c || is_space c.

(** The rest of the pattern once [^] holds: the greedy repetition takes
    one more code unit of the class whenever it can, and gives it back
    when what follows cannot match; the colon ends the match.  The
    result is the matched text and the input after it. *)
Definition match_colon (s : jsstring) : option (jsstring * jsstring) :=
  match s with
  | c :: rest => if c =? colon then Some ([c], rest) else None
  | [] => None
  end.

Fixpoint match_more (s : jsstring) : option (jsstring * jsstring) :=
  match s with
  | c :: s' =>
      if is_label_char c then
        match match_more s' with
        | Some (m, rest) => Some (c :: m, rest)
        | None => match_colon s
        end
      else match_colon s
  | [] => None
  end.

Definition match_here (s : jsstring) : option (jsstring * jsstring) :=
  match s with
  | c :: s' =>
      if is_label_char c then
        match match_more s' with
        | Some (m, rest) => Some (c :: m, rest)
        | None => None
        end
      else None
  | [] => None
  end.

(** [script.match(speakerRegex)]: the matches from left to right, the
    search resuming after each match.  [^] holds at the start of the
    input and after a line terminator.  Every step consumes at least one
    code unit, so a fuel of the length of the input is never used up. *)
Fixpoint match_loop (fuel : nat) (at_line_start : bool) (s : jsstring)
  : list jsstring :=
  match fuel with
  | O => []
  | S fuel' =>
      match s with
      | [] => []
      | c :: s' =>
          match (if at_line_start then match_here s else None) with
          | Some (m, rest) => m :: match_loop fuel' false rest
          | None => match_loop fuel' (is_LineTerminator c) s'
          end
      end
  end.

(** [null] when nothing matches, the array of matches otherwise. *)
Definition String_match_speakerRegex (script : jsstring)
  : option (list jsstring) :=
  match match_loop (length script) true script with
  | [] => None
  | matches => Some matches
  end.

(** *** The two-speaker branch of [generateSpeech] *)

(** The errors [generateSpeech] throws before the remote call, in
    source order: the missing API key (line 47), a number of voices
    other than 2 in the multi-speaker branch (line 74), no match of the
    speaker pattern (line 80), a number of speakers other than 2
    (line 85), a number of requested genders other than 0 and 2
    (line 90).  The numbers are those the messages quote. *)
Inductive error : Type :=
| ApiKeyNotFound
| UnsupportedVoiceCount (numVoices : Z)
| MissingSpeakerLabels
| SpeakerCountMismatch (found : nat)
| GenderCountMismatch (requested : nat).

(** One entry of [speakerVoiceConfigs]; [voiceName] is [None] for the
    [undefined] that indexing an empty pool gives. *)
Record SpeakerVoiceConfig : Type := {
  speaker : jsstring;
  voiceName : option jsstring
}.

(** [POOL[index % POOL.length]]. *)
Definition pick (pool : list jsstring) (index : nat) : option jsstring :=
  nth_error pool (index mod length pool).

Section Pools.

Variables MALE FEMALE : list jsstring.

(** [speakers.map((speaker, index) => ...)], threading the two
    counters [maleVoiceIndex] and [femaleVoiceIndex]. *)
Fixpoint assignVoices (requestedGenders : list gender)
    (index maleVoiceIndex femaleVoiceIndex : nat) (speakers : list jsstring)
  : list SpeakerVoiceConfig :=
  match speakers with
  | [] => []
  | speaker :: rest =>
      let gender :=
        if (0 <? length requestedGenders)%nat
        then nth_error requestedGenders index
        else Some (if (index =? 0)%nat then male else female) in
      match gender with
      | Some male =>
          {| speaker := speaker; voiceName := pick MALE maleVoiceIndex |}
          :: assignVoices requestedGenders (S index) (S maleVoiceIndex)
               femaleVoiceIndex rest
      | _ =>
          {| speaker := speaker; voiceName := pick FEMALE femaleVoiceIndex |}
          :: assignVoices requestedGenders (S index) maleVoiceIndex
               (S femaleVoiceIndex) rest
      end
  end.

Context {platform : Platform}.

(** Lines 77-112: the value of [speakerVoiceConfigs], or the error
    thrown on the way. *)
Definition speakerVoiceConfigs_with (script voiceGenders : jsstring)
  : result error (list SpeakerVoiceConfig) :=
  match String_match_speakerRegex script with
  | None => Err MissingSpeakerLabels
  | Some matches =>
      let speakers :=
        Set_values (map (fun s => trim (slice_0_m1 s)) matches) in
      if negb (length speakers =? 2)%nat
      then Err (SpeakerCountMismatch (length speakers))
      else
        let requestedGenders := parseGenders voiceGenders in
        if (0 <? length requestedGenders)%nat
           && negb (length requestedGenders =? 2)%nat
        then Err (GenderCountMismatch (length requestedGenders))
        else Ok (assignVoices requestedGenders 0 0 0 speakers)
  end.

End Pools.

Section GenerateSpeech.

Context {platform : Platform}.

Definition speakerVoiceConfigs (script voiceGenders : jsstring)
  : result error (list SpeakerVoiceConfig) :=
  speakerVoiceConfigs_with MALE_VOICES FEMALE_VOICES script voiceGenders.

(** [config.speechConfig] as [generateSpeech] fills it. *)
Inductive speechConfig : Type :=
| voiceConfig (voiceName : jsstring)
| multiSpeakerVoiceConfig (configs : list SpeakerVoiceConfig).

(** [generateSpeech] up to the remote call: the check of the API key
    ([None] or an empty string is falsy), then the configuration for
    [options.numVoices] and [options.voiceGenders].  [numVoices] is the
    integer the caller parsed. *)
Definition generateSpeech_config (GEMINI_API_KEY : option jsstring)
    (script : jsstring) (numVoices : Z) (voiceGenders : jsstring)
  : result error speechConfig :=
  match GEMINI_API_KEY with
  | None | Some [] => Err ApiKeyNotFound
  | Some (_ :: _) =>
      if numVoices <=? 1 then Ok (voiceConfig (singleVoiceName voiceGenders))
      else if negb (numVoices =? 2) then Err (UnsupportedVoiceCount numVoices)
      else
        match speakerVoiceConfigs script voiceGenders with
        | Err e => Err e
        | Ok configs => Ok (multiSpeakerVoiceConfig configs)
        end
  end.

End GenerateSpeech.

(** *** The guard of [handleGenerateAudio] on the number of voices
    ([App.tsx], lines 25-34) *)

Inductive guard : Type :=
| NumVoicesBelowOne
| NumVoicesAboveTwo
| Proceed (parsedNumVoices : Z).

Definition handleGenerateAudio_guard (numVoices : jsstring) : guard :=
  match parseInt numVoices with
  | None => NumVoicesBelowOne
  | Some parsedNumVoices =>
      if parsedNumVoices <? 1 then NumVoicesBelowOne
      else if 2 <? parsedNumVoices then NumVoicesAboveTwo
      else Proceed parsedNumVoices
  end.

(** *** A platform for running examples

    Exact on ASCII text, which is all the examples use; NFD moreover
    decomposes the Vietnamese letter of the input placeholder, U+1EEF,
    into u, horn and tilde. *)
Definition latin_toLowerCase (s : jsstring) : jsstring := map ascii_lower s.

Definition latin_normalizeNFD (s : jsstring) : jsstring :=
  flat_map (fun c => if c =? 7919 then [117; 795; 771] else [c]) s.

(* ================================================================= *)
(** ** The encoder: supporting lemmas *)

Local Close Scope view_scope.

Lemma byte_val_u8 (z : Z) : byte_val (u8 z) = z mod 256.
Proof.
  unfold byte_val, u8.
  assert (Hr : 0 <= z mod 256 < 256) by (apply Z.mod_pos_bound; lia).
  destruct (Byte.of_N (Z.to_N (z mod 256))) as [b|] eqn:E.
  - apply Byte.to_of_N in E. rewrite E. lia.
  - apply Byte.of_N_None_iff in E. lia.
Qed.

Lemma byte_val_range (b : byte) : 0 <= byte_val b < 256.
Proof.
  unfold byte_val. pose proof (Byte.to_N_bounded b). lia.
Qed.

Lemma u8_mod (z : Z) : u8 (z mod 256) = u8 z.
Proof.
  unfold u8. rewrite Z.mod_mod by lia. reflexivity.
Qed.

Lemma length_le_bytes (w : nat) (n : Z) : length (le_bytes w n) = w.
Proof.
  revert n. induction w as [|w IH]; intros n; simpl; [reflexivity|].
  now rewrite IH.
Qed.

(** Reading back what [le_bytes] wrote gives the value modulo the
    width; an in-range value is read back unchanged. *)
Lemma le_value_le_bytes (w : nat) (n : Z) :
  le_value (le_bytes w n) = n mod 256 ^ Z.of_nat w.
Proof.
  revert n. induction w as [|w IH]; intros n.
  - simpl. now rewrite Z.mod_1_r.
  - cbn [le_bytes le_value]. rewrite byte_val_u8, IH.
    rewrite Nat2Z.inj_succ, Z.pow_succ_r by lia.
    rewrite (Z.rem_mul_r n 256 (256 ^ Z.of_nat w)) by lia.
    reflexivity.
Qed.

Lemma le_value_le_bytes_exact (w : nat) (n : Z) :
  0 <= n < 256 ^ Z.of_nat w -> le_value (le_bytes w n) = n.
Proof.
  intros H. rewrite le_value_le_bytes. now apply Z.mod_small.
Qed.

(** Only the low [w] bytes of a number are stored. *)
Lemma le_bytes_mod (w : nat) (n : Z) :
  le_bytes w (n mod 256 ^ Z.of_nat w) = le_bytes w n.
Proof.
  revert n. induction w as [|w IH]; intros n; [reflexivity|].
  cbn [le_bytes].
  rewrite Nat2Z.inj_succ, Z.pow_succ_r by lia.
  rewrite (Z.rem_mul_r n 256 (256 ^ Z.of_nat w)) by lia.
  f_equal.
  - rewrite <- (u8_mod (_ + _)), <- (u8_mod n). f_equal.
    rewrite (Z.mul_comm 256), Z.mod_add by lia.
    apply Z.mod_mod. lia.
  - rewrite (Z.mul_comm 256), Z.div_add by lia.
    rewrite (Z.div_small (n mod 256)) by (apply Z.mod_pos_bound; lia).
    rewrite Z.add_0_l. apply IH.
Qed.

(* ================================================================= *)
(** ** Binary64 arithmetic on integers

    The operations of the standard round to 53 bits; on operands whose
    result fits 53 bits nothing is rounded. *)

Lemma digits2_pos_size (p : positive) : digits2_pos p = Pos.size p.
Proof. induction p; cbn; now rewrite ?IHp. Qed.

Lemma Zdigits2_log2 (z : Z) : 0 < z -> Zdigits2 z = Z.log2 z + 1.
Proof.
  destruct z as [|p|p]; try lia. intros _. cbn [Zdigits2].
  rewrite digits2_pos_size.
  destruct p; cbn [Pos.size Z.log2]; lia.
Qed.

Lemma iter_pos_nat {A} (f : A -> A) (p : positive) :
  forall x, iter_pos f p x = Nat.iter (Pos.to_nat p) f x.
Proof.
  induction p as [p IH|p IH|]; intros x; cbn [iter_pos].
  - rewrite !IH, Pos2Nat.inj_xI. cbn [Nat.iter].
    rewrite <- Nat.iter_add.
    replace (Pos.to_nat p + Pos.to_nat p)%nat with (2 * Pos.to_nat p)%nat by lia.
    now rewrite <- Nat.iter_succ_r.
  - rewrite !IH, Pos2Nat.inj_xO. rewrite <- Nat.iter_add.
    f_equal. lia.
  - reflexivity.
Qed.

Lemma shr_1_even (q : Z) :
  0 < q ->
  shr_1 {| shr_m := 2 * q; shr_r := false; shr_s := false |}
  = {| shr_m := q; shr_r := false; shr_s := false |}.
Proof. destruct q; try lia. reflexivity. Qed.

Lemma iter_shr_1_exact (k : nat) (q : Z) :
  0 < q ->
  Nat.iter k shr_1 {| shr_m := q * 2 ^ Z.of_nat k; shr_r := false; shr_s := false |}
  = {| shr_m := q; shr_r := false; shr_s := false |}.
Proof.
  intros Hq. induction k as [|k IH].
  - cbn. now rewrite Z.mul_1_r.
  - rewrite Nat.iter_succ_r.
    replace (q * 2 ^ Z.of_nat (S k)) with (2 * (q * 2 ^ Z.of_nat k))
      by (rewrite Nat2Z.inj_succ, Z.pow_succ_r by lia; ring).
    rewrite shr_1_even by (apply Z.mul_pos_pos; [lia | apply Z.pow_pos_nonneg; lia]).
    exact IH.
Qed.

Lemma shr_exact (q e n : Z) :
  0 < q -> 0 <= n ->
  shr {| shr_m := q * 2 ^ n; shr_r := false; shr_s := false |} e n
  = ({| shr_m := q; shr_r := false; shr_s := false |}, e + n).
Proof.
  intros Hq Hn. destruct n as [|p|p]; try lia.
  - cbn. now rewrite Z.mul_1_r, Z.add_0_r.
  - cbn [shr]. rewrite iter_pos_nat. f_equal.
    rewrite <- (positive_nat_Z p). now apply iter_shr_1_exact.
Qed.

(** A mantissa of 53 binary digits. *)
Definition normal_mantissa (q : Z) : Prop := 2 ^ 52 <= q < 2 ^ 53.

Lemma scaled_bounds (q lo hi P : Z) :
  lo <= q < hi -> 0 < P -> lo * P <= q * P < hi * P.
Proof. intros [H0 H1] HP. split; nia. Qed.

Lemma log2_normal (q n : Z) :
  normal_mantissa q -> 0 <= n -> Z.log2 (q * 2 ^ n) = 52 + n.
Proof.
  intros Hq Hn.
  assert (HP : 0 < 2 ^ n) by (apply Z.pow_pos_nonneg; lia).
  pose proof (scaled_bounds q (2 ^ 52) (2 ^ 53) (2 ^ n) Hq HP) as H.
  rewrite <- !Z.pow_add_r in H by lia.
  apply Z.log2_unique; [lia|].
  replace (Z.succ (52 + n)) with (53 + n) by lia. exact H.
Qed.

Lemma shr_fexp_exact (q e n : Z) :
  normal_mantissa q -> 0 <= n -> -1074 <= e + n ->
  shr_fexp Number.prec Number.emax (q * 2 ^ n) e loc_Exact
  = ({| shr_m := q; shr_r := false; shr_s := false |}, e + n).
Proof.
  intros Hq Hn He. unfold shr_fexp.
  assert (Hpos : 0 < q * 2 ^ n).
  { destruct Hq. apply Z.mul_pos_pos; [lia | apply Z.pow_pos_nonneg; lia]. }
  rewrite Zdigits2_log2 by assumption. rewrite log2_normal by assumption.
  unfold fexp, emin, Number.prec, Number.emax. cbn [shr_record_of_loc].
  replace (Z.max (52 + n + 1 + e - 53) (3 - 1024 - 53) - e) with n by lia.
  apply shr_exact; [destruct Hq; lia | assumption].
Qed.

Lemma binary_round_aux_exact (s : bool) (q e n : Z) :
  normal_mantissa q -> 0 <= n -> -1074 <= e + n <= 971 ->
  binary_round_aux Number.prec Number.emax s (q * 2 ^ n) e loc_Exact
  = S754_finite s (Z.to_pos q) (e + n).
Proof.
  intros Hq Hn He. unfold binary_round_aux.
  rewrite shr_fexp_exact by (assumption || lia).
  cbn [shr_m loc_of_shr_record round_nearest_even].
  pose proof (shr_fexp_exact q (e + n) 0 Hq ltac:(lia) ltac:(lia)) as H0.
  rewrite Z.pow_0_r, Z.mul_1_r, Z.add_0_r in H0. rewrite H0.
  cbn [shr_m]. destruct Hq as [Hq0 Hq1].
  destruct q as [|p|p]; try lia.
  replace (e + n <=? Number.emax - Number.prec) with true
    by (symmetry; apply Z.leb_le; unfold Number.emax, Number.prec; lia).
  reflexivity.
Qed.

(** The double of value [m * 2^e], for a positive [m] below [2^53]. *)
Definition dyadic (m e : Z) : Number.double :=
  S754_finite false (Z.to_pos (m * 2 ^ (52 - Z.log2 m))) (e + Z.log2 m - 52).

Lemma normal_shifted (m : Z) :
  0 < m < 2 ^ 53 -> normal_mantissa (m * 2 ^ (52 - Z.log2 m)).
Proof.
  intros [H0 H1]. unfold normal_mantissa.
  pose proof (Z.log2_spec m H0) as Hl.
  assert (Hlog : 0 <= Z.log2 m <= 52).
  { split; [apply Z.log2_nonneg|].
    assert (Z.log2 m < 53) by (apply Z.log2_lt_pow2; lia). lia. }
  assert (HP : 0 < 2 ^ (52 - Z.log2 m)) by (apply Z.pow_pos_nonneg; lia).
  pose proof (scaled_bounds m _ _ _ Hl HP) as H.
  rewrite <- !Z.pow_add_r in H by lia.
  replace (Z.log2 m + (52 - Z.log2 m)) with 52 in H by lia.
  replace (Z.succ (Z.log2 m) + (52 - Z.log2 m)) with 53 in H by lia.
  exact H.
Qed.

Lemma log2_range (m : Z) : 0 < m < 2 ^ 53 -> 0 <= Z.log2 m <= 52.
Proof.
  intros [H0 H1]. split; [apply Z.log2_nonneg|].
  assert (Z.log2 m < 53) by (apply Z.log2_lt_pow2; lia). lia.
Qed.

Lemma iter_xO (p d : positive) : Zpos (Pos.iter xO p d) = Zpos p * 2 ^ Zpos d.
Proof.
  rewrite <- (Pos2Z.inj_pow p 2%positive d) || idtac.
  revert p. induction d using Pos.peano_ind; intros p.
  - cbn. lia.
  - rewrite Pos.iter_succ. rewrite Pos2Z.inj_xO, IHd.
    rewrite Pos2Z.inj_succ, Z.pow_succ_r by lia. ring.
Qed.

Lemma binary_normalize_dyadic (m e : Z) :
  0 < m < 2 ^ 53 -> -1000 <= e <= 900 ->
  binary_normalize Number.prec Number.emax m e false = dyadic m e.
Proof.
  intros Hm He. pose proof (log2_range m Hm) as Hlog.
  pose proof (normal_shifted m Hm) as Hn.
  destruct m as [|p|p]; try lia. cbn [binary_normalize]. unfold binary_round.
  change (Zpos (digits2_pos p)) with (Zdigits2 (Zpos p)).
  rewrite Zdigits2_log2 by lia.
  unfold shl_align, fexp, emin, Number.prec, Number.emax.
  replace (Z.max (Z.log2 (Zpos p) + 1 + e - 53) (3 - 1024 - 53) - e)
    with (Z.log2 (Zpos p) - 52) by lia.
  replace (Z.max (Z.log2 (Zpos p) + 1 + e - 53) (3 - 1024 - 53))
    with (e + Z.log2 (Zpos p) - 52) by lia.
  destruct (Z.log2 (Zpos p) - 52) as [|d|d] eqn:Ed; try lia.
  - pose proof (binary_round_aux_exact false (Zpos p) e 0) as H.
    replace (52 - Z.log2 (Zpos p)) with 0 in Hn by lia.
    rewrite Z.pow_0_r, Z.mul_1_r in *. unfold Number.prec, Number.emax in H.
    rewrite H by (assumption || lia). unfold dyadic.
    replace (52 - Z.log2 (Zpos p)) with 0 by lia.
    rewrite Z.pow_0_r, Z.mul_1_r. f_equal. lia.
  - rewrite iter_xO. unfold dyadic.
    replace (52 - Z.log2 (Zpos p)) with (Zpos d) in * by lia.
    pose proof (binary_round_aux_exact false (Zpos p * 2 ^ Zpos d)
                  (e + Z.log2 (Zpos p) - 52) 0 Hn ltac:(lia) ltac:(lia)) as H.
    rewrite Z.pow_0_r, Z.mul_1_r, Z.add_0_r in H.
    unfold Number.prec, Number.emax in H. rewrite H. reflexivity.
Qed.

Lemma of_Z_dyadic (z : Z) : 0 < z < 2 ^ 53 -> Number.of_Z z = dyadic z 0.
Proof. intros H. apply binary_normalize_dyadic; [assumption | lia]. Qed.

(** Products that fit the mantissa are exact. *)
Lemma mul_dyadic (a ea b eb : Z) :
  0 < a -> 0 < b -> a * b < 2 ^ 53 ->
  -400 <= ea <= 400 -> -400 <= eb <= 400 ->
  Number.mul (dyadic a ea) (dyadic b eb) = dyadic (a * b) (ea + eb).
Proof.
  intros Ha Hb Hab Hea Heb.
  assert (Ha' : 0 < a < 2 ^ 53) by nia.
  assert (Hb' : 0 < b < 2 ^ 53) by nia.
  assert (Hab' : 0 < a * b < 2 ^ 53) by nia.
  pose proof (log2_range a Ha') as Hla.
  pose proof (log2_range b Hb') as Hlb.
  pose proof (log2_range (a * b) Hab') as Hlab.
  pose proof (Z.log2_mul_below a b Ha Hb) as Hbelow.
  pose proof (normal_shifted a Ha') as Hna.
  pose proof (normal_shifted b Hb') as Hnb.
  pose proof (normal_shifted (a * b) Hab') as Hnab.
  unfold Number.mul, dyadic. cbn [SFmul xorb].
  set (n := 52 + Z.log2 (a * b) - Z.log2 a - Z.log2 b).
  assert (Hn : 0 <= n) by (unfold n; lia).
  assert (E : Zpos (Z.to_pos (a * 2 ^ (52 - Z.log2 a))
                    * Z.to_pos (b * 2 ^ (52 - Z.log2 b)))
              = (a * b * 2 ^ (52 - Z.log2 (a * b))) * 2 ^ n).
  { rewrite Pos2Z.inj_mul, !Z2Pos.id
      by (destruct Hna, Hnb; lia).
    assert (P : 2 ^ (52 - Z.log2 (a * b)) * 2 ^ n
                = 2 ^ (52 - Z.log2 a) * 2 ^ (52 - Z.log2 b)).
    { rewrite <- !Z.pow_add_r by lia. f_equal. unfold n. lia. }
    transitivity (a * b * (2 ^ (52 - Z.log2 (a * b)) * 2 ^ n));
      [rewrite P|]; ring. }
  rewrite E.
  rewrite binary_round_aux_exact by (assumption || unfold n; lia).
  f_equal. unfold n. lia.
Qed.

Lemma div_eucl_pair (a b : Z) : Z.div_eucl a b = (a / b, a mod b).
Proof. unfold Z.div, Z.modulo. now destruct (Z.div_eucl a b). Qed.

(** Division by 8 only lowers the exponent. *)
Lemma div_dyadic_8 (a ea : Z) :
  0 < a < 2 ^ 53 -> -400 <= ea <= 400 ->
  Number.div (dyadic a ea) (Number.of_Z 8) = dyadic a (ea - 3).
Proof.
  intros Ha Hea. pose proof (log2_range a Ha) as Hla.
  pose proof (normal_shifted a Ha) as Hn.
  change (Number.of_Z 8) with (S754_finite false 4503599627370496 (-49)).
  unfold Number.div, dyadic. cbn [SFdiv xorb]. unfold SFdiv_core_binary.
  set (q := a * 2 ^ (52 - Z.log2 a)) in *.
  assert (Hq : Zpos (Z.to_pos q) = q) by (apply Z2Pos.id; destruct Hn; lia).
  rewrite Hq.
  rewrite (Zdigits2_log2 q) by (destruct Hn; lia).
  replace (Z.log2 q) with 52
    by (symmetry; apply Z.log2_unique; [lia | exact Hn]).
  change (Zdigits2 4503599627370496) with 53.
  unfold fexp, emin, Number.prec, Number.emax.
  replace (Z.min (Z.max (52 + 1 + (ea + Z.log2 a - 52) - (53 + -49) - 53)
                    (3 - 1024 - 53))
             (ea + Z.log2 a - 52 - -49))
    with (ea + Z.log2 a - 56) by lia.
  replace (ea + Z.log2 a - 52 - -49 - (ea + Z.log2 a - 56)) with 53 by lia.
  rewrite Z.shiftl_mul_pow2 by lia. rewrite div_eucl_pair.
  replace (q * 2 ^ 53 / 4503599627370496) with (q * 2 ^ 1)
    by (change (2 ^ 53) with (2 * 4503599627370496);
        rewrite Z.mul_assoc, Z.div_mul by lia; reflexivity).
  replace (q * 2 ^ 53 mod 4503599627370496) with 0
    by (change (2 ^ 53) with (2 * 4503599627370496);
        rewrite Z.mul_assoc, Z.mod_mul by lia; reflexivity).
  change (new_location 4503599627370496 0) with loc_Exact.
  pose proof (binary_round_aux_exact false q (ea + Z.log2 a - 56) 1
                Hn ltac:(lia) ltac:(lia)) as H.
  unfold Number.prec, Number.emax in H. rewrite H. f_equal. lia.
Qed.

Lemma truncate_dyadic (m e : Z) :
  0 < m < 2 ^ 53 -> e <= 0 -> Number.truncate (dyadic m e) = m / 2 ^ (- e).
Proof.
  intros Hm He. pose proof (log2_range m Hm) as Hl.
  pose proof (normal_shifted m Hm) as Hn.
  unfold Number.truncate, dyadic. rewrite Z2Pos.id by (destruct Hn; lia).
  replace (e + Z.log2 m - 52) with (- (52 - Z.log2 m - e)) by lia.
  rewrite Z.shiftl_opp_r, Z.shiftr_div_pow2 by lia.
  replace (52 - Z.log2 m - e) with ((- e) + (52 - Z.log2 m)) by lia.
  rewrite Z.pow_add_r by lia.
  apply Z.div_mul_cancel_r; apply Z.pow_nonzero; lia.
Qed.

Lemma truncate_of_Z (z : Z) :
  0 <= z < 2 ^ 53 -> Number.truncate (Number.of_Z z) = z.
Proof.
  intros H. destruct (Z.eq_dec z 0) as [->|Hne]; [reflexivity|].
  rewrite of_Z_dyadic by lia. rewrite truncate_dyadic by lia.
  apply Z.div_1_r.
Qed.

(** The value of a finite double, as a rational: the mantissa scaled by
    the power of two of the exponent. *)
Definition value (x : Number.double) : option Q :=
  match x with
  | S754_zero _ => Some 0%Q
  | S754_finite s m e =>
      let signed := if s then Zneg m else Zpos m in
      Some match e with
           | Z0 => inject_Z signed
           | Zpos p => inject_Z (signed * Zpos (2 ^ p))
           | Zneg p => Qmake signed (2 ^ p)
           end
  | _ => None
  end.

Lemma floor_value (x : Number.double) (q : Q) :
  value x = Some q -> Number.floor x = Number.Integer (Qfloor q).
Proof.
  destruct x as [s|s| |s m e]; cbn [value Number.floor]; try discriminate.
  - now intros [= <-].
  - intros [= <-]. f_equal. destruct e as [|p|p].
    + now rewrite Z.shiftl_0_r, Qfloor_Z.
    + rewrite Qfloor_Z, Z.shiftl_mul_pow2 by lia.
      now rewrite Pos2Z.inj_pow.
    + change (Zneg p) with (- Zpos p).
      rewrite Z.shiftl_opp_r, Z.shiftr_div_pow2 by lia.
      unfold Qfloor. now rewrite Pos2Z.inj_pow.
Qed.


Lemma ToUint32_of_Z (z : Z) :
  0 <= z < 2 ^ 53 -> Number.ToUint32 (Number.of_Z z) = z mod 2 ^ 32.
Proof. intros H. unfold Number.ToUint32. now rewrite truncate_of_Z. Qed.

Lemma ToUint16_of_Z (z : Z) :
  0 <= z < 2 ^ 53 -> Number.ToUint16 (Number.of_Z z) = z mod 2 ^ 16.
Proof. intros H. unfold Number.ToUint16. now rewrite truncate_of_Z. Qed.

(** [byteRate] and [blockAlign] for positive format numbers whose
    product stays below [2^53]. *)
Lemma blockAlign_dyadic (ch bits : Z) :
  0 < ch -> 0 < bits -> ch * bits < 2 ^ 53 ->
  Number.mul (Number.of_Z ch) (Number.div (Number.of_Z bits) (Number.of_Z 8))
  = dyadic (ch * bits) (-3).
Proof.
  intros Hch Hbits Hp.
  rewrite (of_Z_dyadic ch), (of_Z_dyadic bits) by nia.
  rewrite div_dyadic_8 by (lia || nia).
  now rewrite mul_dyadic by lia.
Qed.

Lemma byteRate_dyadic (sr ch bits : Z) :
  0 < sr -> 0 < ch -> 0 < bits -> sr * ch * bits < 2 ^ 53 ->
  Number.mul (Number.mul (Number.of_Z sr) (Number.of_Z ch))
    (Number.div (Number.of_Z bits) (Number.of_Z 8))
  = dyadic (sr * ch * bits) (-3).
Proof.
  intros Hsr Hch Hbits Hp.
  assert (Hsc : 0 < sr * ch < 2 ^ 53) by nia.
  rewrite (of_Z_dyadic sr), (of_Z_dyadic ch), (of_Z_dyadic bits) by nia.
  rewrite div_dyadic_8 by (lia || nia).
  rewrite mul_dyadic by lia.
  now rewrite mul_dyadic by lia.
Qed.

Lemma truncate_eighths (m : Z) :
  0 < m < 2 ^ 53 -> Number.truncate (dyadic m (-3)) = m / 8.
Proof. intros H. now rewrite truncate_dyadic by lia. Qed.

(* ================================================================= *)
(** ** The container header *)

(** The four-character tags of the container, as bytes. *)
Definition tag (s : string) : list byte := list_byte_of_string s.

(** The header as [writeHeader] leaves it in a zeroed 44-byte prefix,
    with the numbers still as the setters convert them. *)
Definition raw_header (fileSize dataSize sampleRate numChannels
                         bitsPerSample : Z) : list byte :=
  tag "RIFF"
  ++ le_bytes 4 (Number.ToUint32 (Number.of_Z (fileSize - 8)))
  ++ tag "WAVE"
  ++ tag "fmt "
  ++ le_bytes 4 (Number.ToUint32 (Number.of_Z 16))
  ++ le_bytes 2 (Number.ToUint16 (Number.of_Z 1))
  ++ le_bytes 2 (Number.ToUint16 (Number.of_Z numChannels))
  ++ le_bytes 4 (Number.ToUint32 (Number.of_Z sampleRate))
  ++ le_bytes 4 (Number.ToUint32
                   (Number.mul
                      (Number.mul (Number.of_Z sampleRate)
                         (Number.of_Z numChannels))
                      (Number.div (Number.of_Z bitsPerSample)
                         (Number.of_Z 8))))
  ++ le_bytes 2 (Number.ToUint16
                   (Number.mul (Number.of_Z numChannels)
                      (Number.div (Number.of_Z bitsPerSample)
                         (Number.of_Z 8))))
  ++ le_bytes 2 (Number.ToUint16 (Number.of_Z bitsPerSample))
  ++ tag "data"
  ++ le_bytes 4 (Number.ToUint32 (Number.of_Z dataSize)).

Lemma writeHeader_run (fileSize dataSize sr ch bits : Z) (tl : list byte) :
  exec (writeHeader fileSize dataSize sr ch bits) (repeat x00 44 ++ tl)
  = Ok (raw_header fileSize dataSize sr ch bits ++ tl).
Proof.
  unfold writeHeader.
  change (js "RIFF") with [82; 73; 70; 70].
  change (js "WAVE") with [87; 65; 86; 69].
  change (js "fmt ") with [102; 109; 116; 32].
  change (js "data") with [100; 97; 116; 97].
  cbv [writeString writeString_loop setUint8 setUint16 setUint32
       store order le_bytes Buffer.bind Buffer.ret exec
       firstn skipn app length Nat.leb Nat.add repeat].
  reflexivity.
Qed.

Lemma length_raw_header (fileSize dataSize sr ch bits : Z) :
  length (raw_header fileSize dataSize sr ch bits) = 44%nat.
Proof. reflexivity. Qed.

(** [createWavFile] succeeds as soon as its buffer is granted, and
    returns the header followed by the samples. *)
Lemma createWavFile_ok {engine : Engine} (pcmData : list byte)
    (sr ch bits : Z) :
  Z.of_nat (length pcmData) + 44 <= max_buffer_length ->
  createWavFile pcmData sr ch bits
  = Ok (raw_header (Z.of_nat (length pcmData) + 44)
          (Z.of_nat (length pcmData)) sr ch bits ++ pcmData).
Proof.
  intros Hfit. unfold createWavFile, alloc, headerLength.
  replace ((0 <=? Z.of_nat (length pcmData) + 44)
           && (Z.of_nat (length pcmData) + 44 <=? max_buffer_length))
    with true by (symmetry; apply andb_true_iff; split; apply Z.leb_le; lia).
  replace (Z.to_nat (Z.of_nat (length pcmData) + 44))
    with (44 + length pcmData)%nat by lia.
  rewrite repeat_app, writeHeader_run.
  unfold Buffer.set.
  rewrite length_app, length_raw_header, repeat_length.
  change (Z.to_nat 44) with 44%nat.
  rewrite Nat.leb_refl.
  rewrite firstn_app, firstn_all2 by (rewrite length_raw_header; lia).
  rewrite length_raw_header, Nat.sub_diag, firstn_O, app_nil_r.
  rewrite skipn_all2 by (rewrite length_app, length_raw_header, repeat_length; lia).
  now rewrite app_nil_r.
Qed.

(** Conversely the allocation is the only step that can fail. *)
Lemma createWavFile_err {engine : Engine} (pcmData : list byte)
    (sr ch bits : Z) :
  max_buffer_length < Z.of_nat (length pcmData) + 44 ->
  createWavFile pcmData sr ch bits = Err RangeError.
Proof.
  intros H. unfold createWavFile, alloc, headerLength.
  replace (Z.of_nat (length pcmData) + 44 <=? max_buffer_length) with false
    by (symmetry; apply Z.leb_gt; lia).
  now rewrite andb_false_r.
Qed.

Lemma Ok_inj {E A} (a b : A) : @Ok E A a = Ok b -> a = b.
Proof. now intros [= ->]. Qed.

(** A granted length is below [2^53]. *)
Lemma granted_length {engine : Engine} (n : Z) :
  n <= max_buffer_length -> n < 2 ^ 53.
Proof.
  pose proof max_buffer_length_bound as H. unfold MAX_SAFE_INTEGER in H. lia.
Qed.

(** *** Reading the container back

    [slice off len] is the field of [len] bytes at byte offset [off];
    numeric fields are read with [le_value]. *)
Definition slice (off len : nat) (file : list byte) : list byte :=
  firstn len (skipn off file).

(** Format parameters a header can describe: integers that fit their
    fields, with a whole number of bytes per sample. *)
Definition valid_format (sampleRate numChannels bitsPerSample : Z) : Prop :=
  0 < sampleRate < 2 ^ 32
  /\ 1 <= numChannels < 2 ^ 16
  /\ 0 < bitsPerSample < 2 ^ 16
  /\ bitsPerSample mod 8 = 0
  /\ sampleRate * numChannels * (bitsPerSample / 8) < 2 ^ 32
  /\ numChannels * (bitsPerSample / 8) < 2 ^ 16.

Lemma le_value_cells2 (n : Z) :
  le_value [u8 n; u8 (n / 256)] = n mod 2 ^ 16.
Proof. exact (le_value_le_bytes 2 n). Qed.

Lemma le_value_cells4 (n : Z) :
  le_value [u8 n; u8 (n / 256); u8 (n / 256 / 256); u8 (n / 256 / 256 / 256)]
  = n mod 2 ^ 32.
Proof. exact (le_value_le_bytes 4 n). Qed.

(** Unfold a header in front of a payload into its 44 cells. *)
Ltac header_cells :=
  unfold raw_header;
  let r := eval vm_compute in (tag "RIFF") in change (tag "RIFF") with r;
  let w := eval vm_compute in (tag "WAVE") in change (tag "WAVE") with w;
  let f := eval vm_compute in (tag "fmt ") in change (tag "fmt ") with f;
  let d := eval vm_compute in (tag "data") in change (tag "data") with d;
  cbv [slice le_bytes app firstn skipn].

Ltac field_value :=
  rewrite ?le_value_cells2, ?le_value_cells4;
  rewrite ?ToUint32_of_Z, ?ToUint16_of_Z by lia;
  rewrite ?Z.mod_mod by lia.

(** ** The encoder: header layout (C1) *)

(** C1.  For every sample buffer whose file the engine grants and every
    valid format, [createWavFile] returns 44 header bytes followed by
    the samples, and the header holds at its fixed offsets: "RIFF"
    (0-3), the file size minus 8 (4-7, little-endian: the value itself
    when it fits the four bytes, its low 32 bits in general), "WAVE"
    (8-11), "fmt " (12-15), the sub-chunk length 16, the format code 1,
    the channel count, the sample rate, the byte rate
    sampleRate * channels * (bits / 8), the block alignment
    channels * (bits / 8), the bits per sample, "data" (36-39) and the
    payload length (40-43, little-endian). *)
Theorem createWavFile_header_layout {engine : Engine}
    (pcmData : list byte) (sr ch bits : Z) :
  valid_format sr ch bits ->
  Z.of_nat (length pcmData) + 44 <= max_buffer_length ->
  exists out,
    createWavFile pcmData sr ch bits = Ok out
    /\ length out = (44 + length pcmData)%nat
    /\ skipn 44 out = pcmData
    /\ slice 0 4 out = tag "RIFF"
    /\ le_value (slice 4 4 out) = (Z.of_nat (length out) - 8) mod 2 ^ 32
    /\ slice 8 4 out = tag "WAVE"
    /\ slice 12 4 out = tag "fmt "
    /\ le_value (slice 16 4 out) = 16
    /\ le_value (slice 20 2 out) = 1
    /\ le_value (slice 22 2 out) = ch
    /\ le_value (slice 24 4 out) = sr
    /\ le_value (slice 28 4 out) = sr * ch * (bits / 8)
    /\ le_value (slice 32 2 out) = ch * (bits / 8)
    /\ le_value (slice 34 2 out) = bits
    /\ slice 36 4 out = tag "data"
    /\ le_value (slice 40 4 out) = Z.of_nat (length pcmData) mod 2 ^ 32
    /\ (Z.of_nat (length pcmData) + 36 < 2 ^ 32 ->
        le_value (slice 4 4 out) = Z.of_nat (length pcmData) + 36
        /\ le_value (slice 40 4 out) = Z.of_nat (length pcmData)).
Proof.
  intros (Hsr & Hch & Hbits & H8 & Hrate & Halign) Hfit.
  pose proof (granted_length _ Hfit) as Hsafe.
  assert (Hbytes : 0 < bits / 8).
  { apply Z.div_str_pos. split; [lia|].
    destruct (Z.le_gt_cases 8 bits) as [|Hlt]; [assumption|].
    rewrite Z.mod_small in H8; lia. }
  assert (Hexact : bits = 8 * (bits / 8)).
  { rewrite (Z.div_mod bits 8) at 1 by lia. rewrite H8. lia. }
  assert (Hblock : ch * bits = ch * (bits / 8) * 8) by lia.
  assert (Hbyte : sr * ch * bits = sr * ch * (bits / 8) * 8) by lia.
  eexists. split; [apply createWavFile_ok; assumption|].
  split; [now rewrite length_app, length_raw_header|].
  split; [reflexivity|].
  rewrite length_app, length_raw_header.
  replace (Z.of_nat (44 + length pcmData) - 8)
    with (Z.of_nat (length pcmData) + 44 - 8) by lia.
  repeat split; header_cells; try reflexivity; field_value;
    try reflexivity.
  - apply Z.mod_small; lia.
  - apply Z.mod_small; lia.
  - unfold Number.ToUint32.
    rewrite byteRate_dyadic, truncate_eighths by lia.
    rewrite Hbyte, Z.div_mul, Z.mod_mod by lia. apply Z.mod_small. nia.
  - unfold Number.ToUint16.
    rewrite blockAlign_dyadic, truncate_eighths by lia.
    rewrite Hblock, Z.div_mul, Z.mod_mod by lia. apply Z.mod_small. nia.
  - apply Z.mod_small; lia.
  - rewrite Z.mod_small by lia. lia.
  - apply Z.mod_small; lia.
Qed.

Lemma valid_format_used : valid_format sampleRate numChannels bitsPerSample.
Proof. unfold valid_format. vm_compute. intuition congruence. Qed.

Lemma createWavFile_header_layout_witness :
  exists out,
    createWavFile (engine := language_engine) [x01; x02; x03] 24000 1 16
    = Ok out
    /\ length out = 47%nat
    /\ skipn 44 out = [x01; x02; x03]
    /\ le_value (slice 4 4 out) = 39
    /\ le_value (slice 28 4 out) = 48000.
Proof.
  destruct (createWavFile_header_layout (engine := language_engine)
              [x01; x02; x03] 24000 1 16)
    as (out & Hout & Hlen & Hpay & _ & Hsize & _ & _ & _ & _ & _ & _
        & Hrate & _).
  - exact valid_format_used.
  - vm_compute. discriminate.
  - exists out. rewrite Hlen in Hsize. repeat split; assumption.
Defined.

(* ================================================================= *)
(** ** The encoder: trailing silence *)

Lemma alloc_ok {engine : Engine} (n : Z) :
  0 <= n <= max_buffer_length -> alloc n = Ok (repeat x00 (Z.to_nat n)).
Proof.
  intros [H0 H1]. unfold alloc.
  apply Z.leb_le in H0, H1. now rewrite H0, H1.
Qed.

Lemma alloc_err {engine : Engine} (n : Z) :
  max_buffer_length < n -> alloc n = Err RangeError.
Proof.
  intros H. unfold alloc. apply Z.leb_gt in H. rewrite H.
  now rewrite andb_false_r.
Qed.

Lemma skipn_length_app {A} (l1 l2 : list A) : skipn (length l1) (l1 ++ l2) = l2.
Proof. induction l1; simpl; auto. Qed.

Lemma firstn_length_app {A} (l1 l2 : list A) :
  firstn (length l1) (l1 ++ l2) = l1.
Proof. induction l1; simpl; [reflexivity|]. now f_equal. Qed.

(** Copying the samples and then the silence into a zeroed buffer of
    the combined length gives their concatenation. *)
Lemma combine_into (pcmData silence : list byte) :
  match Buffer.set (repeat x00 (length pcmData + length silence)) pcmData 0 with
  | Err e => Err e
  | Ok combinedData' => Buffer.set combinedData' silence (length pcmData)
  end = Ok (pcmData ++ silence).
Proof.
  assert (H1 : Buffer.set (repeat x00 (length pcmData + length silence))
                 pcmData 0
               = Ok (pcmData ++ repeat x00 (length silence))).
  { unfold Buffer.set. rewrite repeat_length.
    replace (0 + length pcmData <=? length pcmData + length silence)%nat
      with true by (symmetry; apply Nat.leb_le; lia).
    cbn [firstn app Nat.add]. f_equal. f_equal.
    rewrite repeat_app.
    rewrite <- (repeat_length x00 (length pcmData)) at 1.
    apply skipn_length_app. }
  rewrite H1. unfold Buffer.set.
  rewrite length_app, repeat_length, Nat.leb_refl.
  rewrite firstn_length_app.
  rewrite skipn_all2 by (rewrite length_app, repeat_length; lia).
  now rewrite app_nil_r.
Qed.

Lemma padded_unchanged {engine : Engine} (pcmData : list byte)
    (d : Number.double) :
  Number.gt d Number.zero = false
  \/ Number.positive (silenceBytesCount d) = false ->
  padded pcmData d = Ok pcmData.
Proof.
  unfold padded. intros [H|H].
  - now rewrite H.
  - rewrite H. now destruct (Number.gt d Number.zero).
Qed.

Lemma padded_silence {engine : Engine} (pcmData : list byte)
    (d : Number.double) (n : Z) :
  Number.gt d Number.zero = true ->
  silenceBytesCount d = Number.Integer n ->
  0 < n ->
  Z.of_nat (length pcmData) + n <= max_buffer_length ->
  padded pcmData d = Ok (pcmData ++ repeat x00 (Z.to_nat n)).
Proof.
  intros Hgt Hcount Hpos Hfit. unfold padded.
  rewrite Hgt, Hcount. cbn [Number.positive Number.plus new_Uint8Array].
  apply Z.ltb_lt in Hpos as Hpos'. rewrite Hpos'.
  rewrite !alloc_ok by lia.
  replace (Z.to_nat (Z.of_nat (length pcmData) + n))
    with (length pcmData + length (repeat x00 (Z.to_nat n)))%nat
    by (rewrite repeat_length; lia).
  apply combine_into.
Qed.

Lemma padded_too_large {engine : Engine} (pcmData : list byte)
    (d : Number.double) :
  Number.gt d Number.zero = true ->
  Number.positive (silenceBytesCount d) = true ->
  (forall n, silenceBytesCount d = Number.Integer n ->
             max_buffer_length < Z.of_nat (length pcmData) + n) ->
  padded pcmData d = Err RangeError.
Proof.
  intros Hgt Hpos Hbig. unfold padded. rewrite Hgt, Hpos.
  destruct (silenceBytesCount d) as [n| |]; cbn in *; try reflexivity.
  - specialize (Hbig n eq_refl). apply Z.ltb_lt in Hpos.
    destruct (alloc n) as [silenceBuffer|[]]; [|reflexivity].
    now rewrite alloc_err.
  - discriminate.
Qed.

(** A duration that is [>= 0] without being [> 0] is a zero. *)
Lemma ge_not_gt_zero (d : Number.double) :
  Number.ge d Number.zero = true -> Number.gt d Number.zero = false ->
  exists s, d = S754_zero s.
Proof.
  destruct d as [s|s| |s m e]; cbn; intros Hge Hgt; try discriminate.
  - now exists s.
  - destruct s; discriminate.
  - destruct s; discriminate.
Qed.

Lemma floor_zero_duration (s : bool) :
  Number.floor (Number.mul (S754_zero s) (Number.of_Z sampleRate))
  = Number.Integer 0.
Proof. destruct s; reflexivity. Qed.

(** The byte count in terms of the floored product. *)
Lemma silenceBytesCount_of_floor (d : Number.double) (k : Z) :
  Number.floor (Number.mul d (Number.of_Z sampleRate)) = Number.Integer k ->
  (0 < k * numChannels * (bitsPerSample / 8) <= MAX_SAFE_INTEGER ->
   silenceBytesCount d
   = Number.Integer (k * numChannels * (bitsPerSample / 8)))
  /\ (k * numChannels * (bitsPerSample / 8) <= 0 ->
      Number.positive (silenceBytesCount d) = false).
Proof.
  intros Hk. unfold silenceBytesCount. cbv zeta. rewrite Hk.
  change (bitsPerSample / 8) with 2. change numChannels with 1.
  unfold Number.scale.
  assert (HB : MAX_SAFE_INTEGER < 2 ^ Number.emax) by reflexivity.
  set (B := 2 ^ Number.emax) in *. clearbody B.
  unfold MAX_SAFE_INTEGER in *.
  split; intros H.
  - destruct (Z.ltb_spec (Z.abs (k * 1)) B); [|lia].
    destruct (Z.ltb_spec (Z.abs (k * 1 * 2)) B); [reflexivity|lia].
  - destruct (Z.ltb_spec (Z.abs (k * 1)) B); cbn.
    + destruct (Z.ltb_spec (Z.abs (k * 1 * 2)) B); cbn.
      * apply Z.ltb_ge. lia.
      * destruct (Z.ltb_spec (k * 1 * 2) 0); [reflexivity|lia].
    + destruct (Z.ltb_spec (k * 1) 0); [reflexivity|lia].
Qed.

(** A non-negative duration never floors to a negative sample count. *)
Lemma floor_mul_nonneg (d : Number.double) (k : Z) :
  Number.ge d Number.zero = true ->
  Number.floor (Number.mul d (Number.of_Z sampleRate)) = Number.Integer k ->
  0 <= k.
Proof.
  destruct d as [s|s| |s m e]; intros Hge Hk.
  - rewrite floor_zero_duration in Hk. injection Hk as <-. lia.
  - discriminate.
  - discriminate.
  - destruct s; [discriminate|].
    unfold Number.mul in Hk.
    change (Number.of_Z sampleRate)
      with (S754_finite false 6597069766656000 (-38)) in Hk.
    cbn [SFmul xorb] in Hk. unfold binary_round_aux in Hk.
    destruct (shr_fexp Number.prec Number.emax _ _ _) as [mrs' e'].
    destruct (shr_fexp Number.prec Number.emax _ _ _) as [mrs'' e''].
    destruct (shr_m mrs'') as [|p|p]; cbn in Hk.
    + injection Hk as <-. lia.
    + destruct (e'' <=? 971); [|discriminate].
      injection Hk as <-. apply Z.shiftl_nonneg. lia.
    + discriminate.
Qed.

(** The padding [createWavFileDataUrl] asks for: the silence byte count
    when the duration and the count are both positive, nothing
    otherwise. *)
Definition requested_silence (d : Number.double) : Number.integral :=
  if Number.gt d Number.zero then
    if Number.positive (silenceBytesCount d) then silenceBytesCount d
    else Number.Integer 0
  else Number.Integer 0.

Lemma wavFileBytes_fits {engine : Engine} (pcmData : list byte)
    (d : Number.double) (n : Z) :
  requested_silence d = Number.Integer n ->
  Z.of_nat (length pcmData) + n + 44 <= max_buffer_length ->
  0 <= n
  /\ wavFileBytes pcmData d
     = Ok (raw_header (Z.of_nat (length pcmData) + n + 44)
             (Z.of_nat (length pcmData) + n) sampleRate numChannels
             bitsPerSample
           ++ pcmData ++ repeat x00 (Z.to_nat n)).
Proof.
  unfold requested_silence, wavFileBytes. intros Hreq Hfit.
  assert (Hplain : forall m, m = 0 -> n = m ->
            padded pcmData d = Ok pcmData ->
            0 <= n
            /\ match padded pcmData d with
               | Ok pcmData' =>
                   createWavFile pcmData' sampleRate numChannels bitsPerSample
               | Err e => Err e
               end
               = Ok (raw_header (Z.of_nat (length pcmData) + n + 44)
                       (Z.of_nat (length pcmData) + n) sampleRate numChannels
                       bitsPerSample
                     ++ pcmData ++ repeat x00 (Z.to_nat n))).
  { intros m -> -> Hp. split; [lia|]. rewrite Hp.
    rewrite createWavFile_ok by lia.
    rewrite Z.add_0_r. cbn [Z.to_nat repeat]. now rewrite app_nil_r. }
  destruct (Number.gt d Number.zero) eqn:Hgt.
  - destruct (Number.positive (silenceBytesCount d)) eqn:Hpos.
    + rewrite Hreq in Hpos. cbn in Hpos. apply Z.ltb_lt in Hpos.
      split; [lia|].
      rewrite (padded_silence pcmData d n) by (assumption || lia).
      rewrite createWavFile_ok
        by (rewrite length_app, repeat_length; lia).
      rewrite length_app, repeat_length.
      replace (Z.of_nat (length pcmData + Z.to_nat n))
        with (Z.of_nat (length pcmData) + n) by lia.
      reflexivity.
    + injection Hreq as <-.
      apply (Hplain 0); auto. apply padded_unchanged. now right.
  - injection Hreq as <-.
    apply (Hplain 0); auto. apply padded_unchanged. now left.
Qed.

Lemma wavFileBytes_overflows {engine : Engine} (pcmData : list byte)
    (d : Number.double) :
  (forall n, requested_silence d = Number.Integer n ->
             max_buffer_length < Z.of_nat (length pcmData) + n + 44) ->
  wavFileBytes pcmData d = Err RangeError.
Proof.
  unfold requested_silence, wavFileBytes. intros Hbig.
  destruct (Number.gt d Number.zero) eqn:Hgt.
  - destruct (Number.positive (silenceBytesCount d)) eqn:Hpos.
    + destruct (silenceBytesCount d) as [n| |] eqn:Hcount.
      * specialize (Hbig n eq_refl). cbn in Hpos. apply Z.ltb_lt in Hpos.
        destruct (Z.le_gt_cases (Z.of_nat (length pcmData) + n)
                    max_buffer_length) as [Hle|Hgt'].
        -- rewrite (padded_silence pcmData d n) by assumption.
           apply createWavFile_err.
           rewrite length_app, repeat_length. lia.
        -- rewrite padded_too_large; auto.
           ++ rewrite Hcount. cbn. now apply Z.ltb_lt.
           ++ rewrite Hcount. intros n' [= <-]. assumption.
      * rewrite padded_too_large; auto.
        -- now rewrite Hcount.
        -- rewrite Hcount. discriminate.
      * discriminate.
    + specialize (Hbig 0 eq_refl).
      rewrite padded_unchanged by now right.
      apply createWavFile_err. lia.
  - specialize (Hbig 0 eq_refl).
    rewrite padded_unchanged by now left.
    apply createWavFile_err. lia.
Qed.

Lemma requested_silence_of_floor (d : Number.double) (k : Z) :
  Number.ge d Number.zero = true ->
  Number.floor (Number.mul d (Number.of_Z sampleRate)) = Number.Integer k ->
  k * numChannels * (bitsPerSample / 8) <= MAX_SAFE_INTEGER ->
  requested_silence d
  = Number.Integer (k * numChannels * (bitsPerSample / 8)).
Proof.
  intros Hge Hk Hfit.
  pose proof (floor_mul_nonneg d k Hge Hk) as Hk0.
  destruct (silenceBytesCount_of_floor d k Hk) as [Hcount Hnone].
  unfold requested_silence.
  change (bitsPerSample / 8) with 2 in *. change numChannels with 1 in *.
  destruct (Number.gt d Number.zero) eqn:Hgt.
  - destruct (Z.eq_dec k 0) as [->|Hne].
    + now rewrite Hnone by lia.
    + rewrite Hcount by lia. cbn [Number.positive].
      now replace (0 <? k * 1 * 2) with true by (symmetry; apply Z.ltb_lt; lia).
  - destruct (ge_not_gt_zero d Hge Hgt) as [s ->].
    rewrite floor_zero_duration in Hk. now injection Hk as <-.
Qed.

(* ================================================================= *)
(** ** The encoder: payload and totality (C2, C8) *)

(** *** The sign of a product *)

Lemma shr_1_nonneg (r : shr_record) : 0 <= shr_m r -> 0 <= shr_m (shr_1 r).
Proof.
  destruct r as [m r s]. cbn [shr_m]. intros H.
  destruct m as [|p|p]; [cbn; lia | | lia].
  destruct p; cbn; lia.
Qed.

Lemma shr_nonneg (r : shr_record) (e n : Z) :
  0 <= shr_m r -> 0 <= shr_m (fst (shr r e n)).
Proof.
  intros H. destruct n as [|p|p]; cbn [shr fst]; try assumption.
  rewrite iter_pos_nat.
  induction (Pos.to_nat p) as [|k IH]; [assumption|].
  cbn [Nat.iter]. now apply shr_1_nonneg.
Qed.

Lemma shr_fexp_nonneg (m e : Z) (l : location) :
  0 <= m -> 0 <= shr_m (fst (shr_fexp Number.prec Number.emax m e l)).
Proof.
  intros H. unfold shr_fexp. apply shr_nonneg.
  destruct l as [|[| |]]; exact H.
Qed.

(** Rounding a non-negative mantissa gives a zero, a finite number or
    an infinity of the sign asked for. *)
Definition has_sign (s : bool) (x : Number.double) : Prop :=
  match x with
  | S754_zero s' | S754_finite s' _ _ | S754_infinity s' => s' = s
  | S754_nan => False
  end.

Lemma binary_round_aux_sign (s : bool) (m e : Z) (l : location) :
  0 <= m -> has_sign s (binary_round_aux Number.prec Number.emax s m e l).
Proof.
  intros H. unfold binary_round_aux.
  pose proof (shr_fexp_nonneg m e l H) as H1.
  destruct (shr_fexp Number.prec Number.emax m e l) as [mrs' e'].
  cbn [fst] in H1.
  assert (H2 : 0 <= round_nearest_even (shr_m mrs') (loc_of_shr_record mrs')).
  { unfold round_nearest_even.
    destruct (loc_of_shr_record mrs') as [|[| |]]; try lia.
    destruct (Z.even (shr_m mrs')); lia. }
  pose proof (shr_fexp_nonneg _ e' loc_Exact H2) as H3.
  destruct (shr_fexp Number.prec Number.emax _ e' loc_Exact) as [mrs'' e''].
  cbn [fst] in H3.
  destruct (shr_m mrs'') as [|p|p]; [reflexivity| |lia].
  now destruct (e'' <=? Number.emax - Number.prec).
Qed.

Lemma gt_zero_cases (d : Number.double) :
  Number.gt d Number.zero = true ->
  d = S754_infinity false \/ exists m e, d = S754_finite false m e.
Proof.
  destruct d as [s|[|]| |[|] m e]; cbn; try discriminate; intros _.
  - now left.
  - right. now exists m, e.
Qed.

Lemma gt_ge_zero (d : Number.double) :
  Number.gt d Number.zero = true -> Number.ge d Number.zero = true.
Proof.
  intros H. destruct (gt_zero_cases d H) as [->|(m & e & ->)]; reflexivity.
Qed.

(** The product of a positive duration and the sample rate is a zero, a
    positive number or the positive infinity. *)
Lemma mul_rate_positive (d : Number.double) :
  Number.gt d Number.zero = true ->
  has_sign false (Number.mul d (Number.of_Z sampleRate)).
Proof.
  intros H. destruct (gt_zero_cases d H) as [->|(m & e & ->)];
    [reflexivity|].
  change (Number.of_Z sampleRate)
    with (S754_finite false 6597069766656000 (-38)).
  unfold Number.mul. cbn [SFmul xorb]. now apply binary_round_aux_sign.
Qed.

(** *** The silence asked for *)

(** The silence a duration asks for, in bytes, in terms of the
    arithmetic of doubles: nothing unless [d > 0]; then the whole
    samples of the binary64 product of [d] and the sample rate - the
    floor of its value - times the channels and the bytes of a
    sample. *)
Definition silence_bytes (d : Number.double) (n : Z) : Prop :=
  (Number.gt d Number.zero = false /\ n = 0)
  \/ (Number.gt d Number.zero = true
      /\ exists q,
           value (Number.mul d (Number.of_Z sampleRate)) = Some q
           /\ n = Qfloor q * numChannels * (bitsPerSample / 8)).

Lemma silence_bytes_requested (d : Number.double) (n : Z) :
  silence_bytes d n ->
  0 <= n
  /\ (n <= MAX_SAFE_INTEGER -> requested_silence d = Number.Integer n)
  /\ (forall n', requested_silence d = Number.Integer n' -> n' = n).
Proof.
  unfold requested_silence.
  intros [[Hgt ->]|(Hgt & q & Hq & ->)]; rewrite Hgt.
  - repeat split; [lia|]. now intros n' [= <-].
  - pose proof (floor_value _ _ Hq) as Hk.
    set (k := Qfloor q) in *.
    pose proof (floor_mul_nonneg d k (gt_ge_zero d Hgt) Hk) as Hk0.
    destruct (silenceBytesCount_of_floor d k Hk) as [Hcount Hnone].
    assert (Hshape : silenceBytesCount d
                     = Number.Integer (k * numChannels * (bitsPerSample / 8))
                     \/ silenceBytesCount d = Number.Infinite false).
    { unfold silenceBytesCount. cbv zeta. rewrite Hk.
      change (bitsPerSample / 8) with 2. change numChannels with 1.
      unfold Number.scale.
      set (B := 2 ^ Number.emax). clearbody B.
      destruct (Z.abs (k * 1) <? B).
      - destruct (Z.abs (k * 1 * 2) <? B); [now left|right].
        f_equal. apply Z.ltb_ge. lia.
      - right. f_equal. apply Z.ltb_ge. lia. }
    change (bitsPerSample / 8) with 2 in *. change numChannels with 1 in *.
    split; [lia|]. split.
    + intros Hfit. destruct (Z.eq_dec k 0) as [E|Hne].
      * rewrite Hnone by lia. f_equal. lia.
      * rewrite Hcount by lia. cbn [Number.positive].
        now replace (0 <? k * 1 * 2) with true
          by (symmetry; apply Z.ltb_lt; lia).
    + intros n'. destruct Hshape as [E|E]; rewrite E; cbn [Number.positive].
      * destruct (Z.ltb_spec 0 (k * 1 * 2)); intros [= <-]; lia.
      * discriminate.
Qed.

Lemma requested_silence_bytes (d : Number.double) (n : Z) :
  requested_silence d = Number.Integer n -> silence_bytes d n.
Proof.
  intros Hreq.
  destruct (Number.gt d Number.zero) eqn:Hgt.
  - pose proof (mul_rate_positive d Hgt) as Hsign.
    destruct (value (Number.mul d (Number.of_Z sampleRate))) as [q|] eqn:Hq.
    + assert (Hs : silence_bytes d
                     (Qfloor q * numChannels * (bitsPerSample / 8))).
      { right. split; [assumption|]. now exists q. }
      destruct (silence_bytes_requested _ _ Hs) as (_ & _ & Huniq).
      now rewrite (Huniq n Hreq).
    + exfalso. unfold requested_silence, silenceBytesCount in Hreq.
      rewrite Hgt in Hreq. cbv zeta in Hreq.
      destruct (Number.mul d (Number.of_Z sampleRate)) as [s|s| |s m e];
        cbn in Hq, Hsign; try discriminate; try contradiction.
      subst s. cbn in Hreq. discriminate.
  - left. split; [assumption|].
    unfold requested_silence in Hreq. rewrite Hgt in Hreq.
    now injection Hreq as <-.
Qed.

(** Doubles used in the examples, written as mantissa and exponent:
    the double nearest to 0.3, which lies just below it. *)
Definition d_03 : Number.double := S754_finite false 5404319552844595 (-54).

(** A silence of 2^60 seconds is beyond every buffer. *)
Lemma wavFileBytes_2p60 {engine : Engine} (pcmData : list byte) :
  wavFileBytes pcmData d_2p60 = Err RangeError.
Proof.
  apply wavFileBytes_overflows. intros n Hn.
  vm_compute in Hn. injection Hn as <-.
  pose proof max_buffer_length_bound as H. unfold MAX_SAFE_INTEGER in H.
  lia.
Qed.

(** C2, counterexample.  Two durations at which the claim fails.  For
    the double 0.3 the exact product with 24000 is below 7200 and its
    floor is 7199, yet the encoder appends 7200 samples, 14400 zero
    bytes: the product it floors is the binary64 product, which is
    7200.  For 2^60 seconds the silence is beyond every buffer and the
    encoder raises [RangeError] instead of producing a payload, on
    every engine. *)
Lemma wavFileBytes_payload_not_the_exact_floor :
  (exists q out,
     value d_03 = Some q
     /\ Qfloor (q * inject_Z sampleRate) = 7199
     /\ wavFileBytes (engine := language_engine) [x01; x02] d_03 = Ok out
     /\ skipn 44 out = [x01; x02] ++ repeat x00 (Z.to_nat 14400))
  /\ Number.ge d_2p60 Number.zero = true
  /\ (forall engine : Engine,
        wavFileBytes (engine := engine) [x01; x02] d_2p60 = Err RangeError).
Proof.
  split; [|split; [reflexivity | intros engine; apply wavFileBytes_2p60]].
  eexists. eexists. split; [reflexivity|]. split; [reflexivity|].
  destruct (wavFileBytes_fits (engine := language_engine)
              [x01; x02] d_03 14400 eq_refl
              ltac:(vm_compute; discriminate)) as [_ H].
  split; [exact H | reflexivity].
Qed.

(** C2, as amended.  For every sample buffer and every duration
    [d >= 0], let [q] be the value of the binary64 product of [d] and
    the sample rate.  When the engine grants the file - 44 bytes, the
    samples and floor(q) * channels * (bitsPerSample / 8) bytes of
    silence - the payload is the input samples followed by exactly that
    many zero bytes; when floor(q) is 0, and in particular when [d] is
    0, the payload is the input, byte for byte.  When the engine does
    not grant the file the encoder raises [RangeError]. *)
Theorem wavFileBytes_payload {engine : Engine}
    (pcmData : list byte) (d : Number.double) (q : Q) :
  Number.ge d Number.zero = true ->
  value (Number.mul d (Number.of_Z sampleRate)) = Some q ->
  (Z.of_nat (length pcmData) + Qfloor q * numChannels * (bitsPerSample / 8)
   + 44 <= max_buffer_length ->
   exists out,
     wavFileBytes pcmData d = Ok out
     /\ length out
        = (44 + length pcmData
           + Z.to_nat (Qfloor q * numChannels * (bitsPerSample / 8)))%nat
     /\ skipn 44 out
        = pcmData
          ++ repeat x00
               (Z.to_nat (Qfloor q * numChannels * (bitsPerSample / 8)))
     /\ (Qfloor q = 0 -> skipn 44 out = pcmData)
     /\ (d = Number.zero -> skipn 44 out = pcmData))
  /\ (max_buffer_length
      < Z.of_nat (length pcmData)
        + Qfloor q * numChannels * (bitsPerSample / 8) + 44 ->
      wavFileBytes pcmData d = Err RangeError).
Proof.
  intros Hge Hq.
  pose proof (floor_value _ _ Hq) as Hk.
  set (k := Qfloor q) in *.
  pose proof (floor_mul_nonneg d k Hge Hk) as Hk0.
  pose proof max_buffer_length_bound as Hbound.
  assert (Hreq := requested_silence_of_floor d k Hge Hk).
  change (bitsPerSample / 8) with 2 in *. change numChannels with 1 in *.
  split.
  - intros Hfit.
    destruct (wavFileBytes_fits pcmData d (k * 1 * 2)) as [_ Hout];
      [apply Hreq; lia | lia |].
    eexists. split; [exact Hout|].
    assert (Hzero : k = 0 ->
              skipn 44
                (raw_header (Z.of_nat (length pcmData) + k * 1 * 2 + 44)
                   (Z.of_nat (length pcmData) + k * 1 * 2) sampleRate
                   numChannels bitsPerSample
                 ++ pcmData ++ repeat x00 (Z.to_nat (k * 1 * 2)))
              = pcmData).
    { intros ->. change (skipn 44 (raw_header _ _ _ _ _ ++ ?l)) with l.
      cbn [Z.mul Z.to_nat repeat]. apply app_nil_r. }
    repeat split.
    + rewrite !length_app, length_raw_header, repeat_length. lia.
    + exact Hzero.
    + intros ->. apply Hzero. cbn in Hk. now injection Hk as <-.
  - intros Hbig. apply wavFileBytes_overflows. intros n Hn.
    destruct (Z.le_gt_cases (k * 1 * 2) MAX_SAFE_INTEGER) as [Hle|Hgt].
    + rewrite (Hreq Hle) in Hn. injection Hn as <-. exact Hbig.
    + assert (Hs : silence_bytes d (k * 1 * 2)).
      { destruct (Number.gt d Number.zero) eqn:Hgt0.
        - right. split; [assumption|]. now exists q.
        - exfalso. destruct (ge_not_gt_zero d Hge Hgt0) as [s ->].
          rewrite floor_zero_duration in Hk. injection Hk as Hk.
          lia. }
      destruct (silence_bytes_requested _ _ Hs) as (_ & _ & Huniq).
      rewrite (Huniq n Hn). lia.
Qed.

Lemma wavFileBytes_payload_witness :
  exists out,
    wavFileBytes (engine := language_engine) [x01; x02; x03] d_half = Ok out
    /\ Z.of_nat (length out) = 24047
    /\ skipn 44 out = [x01; x02; x03] ++ repeat x00 (Z.to_nat 24000).
Proof.
  assert (Hq : value (Number.mul d_half (Number.of_Z sampleRate))
               = Some (6597069766656000 # 549755813888))
    by reflexivity.
  destruct (wavFileBytes_payload (engine := language_engine)
              [x01; x02; x03] d_half _ eq_refl Hq)
    as [H _].
  change (Qfloor (6597069766656000 # 549755813888) * numChannels
          * (bitsPerSample / 8))
    with 24000 in H.
  destruct H as (out & Hout & Hlen & Hpay & _).
  - vm_compute. discriminate.
  - exists out. repeat split; try assumption. rewrite Hlen. cbn [length]. lia.
Defined.

(** The durations the specification lists, at a sample buffer of odd
    length: half a second appends 24000 zero bytes, 0 and 0.00001
    seconds append nothing. *)
Example silence_half_second :
  silenceBytesCount d_half = Number.Integer 24000
  /\ wavFileBytes (engine := language_engine) [x01; x02; x03] d_half
     = Ok (raw_header 24047 24003 sampleRate numChannels bitsPerSample
           ++ [x01; x02; x03] ++ repeat x00 (Z.to_nat 24000)).
Proof.
  split; [reflexivity|].
  exact (proj2 (wavFileBytes_fits (engine := language_engine)
                  [x01; x02; x03] d_half 24000 eq_refl
                  ltac:(vm_compute; discriminate))).
Qed.

Example silence_zero_seconds :
  wavFileBytes (engine := language_engine) [x01; x02; x03] Number.zero
  = Ok (raw_header 47 3 sampleRate numChannels bitsPerSample
        ++ [x01; x02; x03]).
Proof. vm_compute. reflexivity. Qed.

Example silence_below_one_sample :
  silenceBytesCount d_1e_5 = Number.Integer 0
  /\ wavFileBytes (engine := language_engine) [x01; x02; x03] d_1e_5
     = Ok (raw_header 47 3 sampleRate numChannels bitsPerSample
           ++ [x01; x02; x03]).
Proof. split; vm_compute; reflexivity. Qed.

(** The product is the rounded binary64 product: for the double nearest
    to 1/24000, which lies just below it, [d * 24000] rounds to 1 and
    one sample of silence (two bytes) is appended. *)
Example silence_rounded_product :
  silenceBytesCount (S754_finite false 6148914691236517 (-67))
  = Number.Integer 2.
Proof. reflexivity. Qed.

(** C8, counterexample.  On no engine is the encoder total over the
    non-negative durations: at 2^60 seconds it raises [RangeError],
    whatever the engine grants. *)
Lemma wavFileBytes_not_total :
  ~ (exists engine : Engine,
       forall (pcmData : list byte) (d : Number.double),
         Number.ge d Number.zero = true ->
         exists out, wavFileBytes (engine := engine) pcmData d = Ok out).
Proof.
  intros [engine H]. destruct (H [] d_2p60 eq_refl) as [out Hout].
  now rewrite wavFileBytes_2p60 in Hout.
Qed.

(** When the encoder returns. *)
Lemma wavFileBytes_returns_iff {engine : Engine}
    (pcmData : list byte) (d : Number.double) :
  (exists out, wavFileBytes pcmData d = Ok out)
  <-> (exists n, silence_bytes d n
                 /\ Z.of_nat (length pcmData) + n + 44 <= max_buffer_length).
Proof.
  pose proof max_buffer_length_bound as Hbound. split.
  - intros [out Hout].
    destruct (requested_silence d) as [n| |] eqn:Hreq.
    + destruct (Z.le_gt_cases (Z.of_nat (length pcmData) + n + 44)
                  max_buffer_length) as [Hle|Hgt].
      * exists n. split; [now apply requested_silence_bytes | assumption].
      * rewrite wavFileBytes_overflows in Hout; [discriminate|].
        rewrite Hreq. intros n' [= <-]. assumption.
    + rewrite wavFileBytes_overflows in Hout; [discriminate|].
      rewrite Hreq. discriminate.
    + rewrite wavFileBytes_overflows in Hout; [discriminate|].
      rewrite Hreq. discriminate.
  - intros (n & Hs & Hfit).
    destruct (silence_bytes_requested d n Hs) as (Hn & Hreq & _).
    destruct (wavFileBytes_fits pcmData d n (Hreq ltac:(lia)) Hfit)
      as [_ Hout].
    eexists. exact Hout.
Qed.

(** C8, as amended.  The encoder never inspects the samples nor
    validates the duration: for every byte buffer, aligned to the block
    size or not, and every duration - negative, NaN and infinite ones
    included - it returns a file exactly when the engine grants the
    largest buffer it asks for, of 44 header bytes, the samples and the
    silence asked for, and raises an error otherwise.  Whether it
    returns depends on the samples through their number only, never on
    their values or on the alignment of the buffer. *)
Theorem wavFileBytes_fails_only_on_allocation {engine : Engine}
    (pcmData : list byte) (d : Number.double) :
  ((exists out, wavFileBytes pcmData d = Ok out)
   <-> (exists n, silence_bytes d n
                  /\ Z.of_nat (length pcmData) + n + 44 <= max_buffer_length))
  /\ (forall pcmData' : list byte,
        length pcmData' = length pcmData ->
        (exists out, wavFileBytes pcmData d = Ok out) ->
        exists out', wavFileBytes pcmData' d = Ok out').
Proof.
  split; [apply wavFileBytes_returns_iff|].
  intros pcmData' Hlen H. apply wavFileBytes_returns_iff.
  apply wavFileBytes_returns_iff in H. now rewrite Hlen.
Qed.

(** A buffer whose length is no multiple of the two-byte block is
    encoded like any other. *)
Example unaligned_buffer_accepted :
  exists out,
    wavFileBytes (engine := language_engine) [x01; x02; x03] d_1e_5 = Ok out
    /\ length out = 47%nat.
Proof. eexists. split; vm_compute; reflexivity. Qed.

(* ================================================================= *)
(** ** The platform of the examples *)

Lemma latin_lower_blank (s : jsstring) :
  forallb is_space s = true -> latin_toLowerCase s = s.
Proof.
  unfold latin_toLowerCase.
  induction s as [|c s IH]; cbn [map forallb]; [reflexivity|].
  intros H. apply andb_true_iff in H as [Hc Hs].
  rewrite (IH Hs). f_equal. unfold ascii_lower.
  destruct ((65 <=? c) && (c <=? 90)) eqn:E; [|reflexivity].
  exfalso. apply andb_true_iff in E as [E1 E2].
  apply Z.leb_le in E1, E2.
  unfold is_space, is_WhiteSpace, is_LineTerminator in Hc.
  repeat (apply orb_true_iff in Hc as [Hc|Hc]);
    try (apply Z.eqb_eq in Hc; lia).
  apply andb_true_iff in Hc as [H1 H2]. apply Z.leb_le in H1. lia.
Qed.

Lemma latin_nfd_fixes (p : Z -> bool) (s : jsstring) :
  p 7919 = false -> forallb p s = true -> latin_normalizeNFD s = s.
Proof.
  unfold latin_normalizeNFD.
  intros Hp. induction s as [|c s IH]; cbn [flat_map forallb]; [reflexivity|].
  intros H. apply andb_true_iff in H as [Hc Hs].
  rewrite (IH Hs). destruct (Z.eqb_spec c 7919) as [->|]; [congruence|].
  reflexivity.
Qed.

#[local] Instance latin_platform : Platform.
Proof.
  refine {| toLowerCase := latin_toLowerCase;
            normalizeNFD := latin_normalizeNFD |}.
  - reflexivity.
  - intros s. now apply latin_nfd_fixes.
  - intros s H. now rewrite latin_lower_blank.
  - intros s H. now rewrite (latin_nfd_fixes is_space).
Defined.

Definition nl (a b : jsstring) : jsstring := a ++ [LF] ++ b.

(* ================================================================= *)
(** ** The gender phrase grammar (C4) *)

(** *** The grammar in the words of the specification

    The hint is lowercased and decomposed by the platform; what follows
    - the removal of the marks, the splitting, the reading of numbers
    and of words, the running count - is stated here on its own terms,
    without the functions the code calls. *)

(** Diacritic stripping: the combining diacritical marks, U+0300 to
    U+036F, are left out and nothing else is. *)
Definition diacritical_mark (c : Z) : Prop := 768 <= c <= 879.

Inductive Stripped : jsstring -> jsstring -> Prop :=
| Stripped_end :
    Stripped [] []
| Stripped_mark (c : Z) (s t : jsstring) :
    diacritical_mark c -> Stripped s t -> Stripped (c :: s) t
| Stripped_other (c : Z) (s t : jsstring) :
    ~ diacritical_mark c -> Stripped s t -> Stripped (c :: s) (c :: t).

(** Splitting on white space and commas: the tokens are the maximal
    runs of code units that are neither, in order. *)
Definition separates (c : Z) : Prop :=
  is_WhiteSpace c = true \/ is_LineTerminator c = true \/ c = 44.

Definition ends_token (s : jsstring) : Prop :=
  s = [] \/ exists c s', s = c :: s' /\ separates c.

Inductive Tokens : jsstring -> list jsstring -> Prop :=
| Tokens_end :
    Tokens [] []
| Tokens_separator (c : Z) (s : jsstring) (ts : list jsstring) :
    separates c -> Tokens s ts -> Tokens (c :: s) ts
| Tokens_token (t s : jsstring) (ts : list jsstring) :
    t <> [] -> Forall (fun c => ~ separates c) t -> ends_token s ->
    Tokens s ts -> Tokens (t ++ s) (t :: ts).

(** Decimal numerals: [numeral ds n] when [ds] is a non-empty string of
    the digits 0 to 9 and [n] the number it writes. *)
Definition digit (c d : Z) : Prop := 0 <= d <= 9 /\ c = 48 + d.

Inductive numeral : jsstring -> Z -> Prop :=
| numeral_digit (c d : Z) :
    digit c d -> numeral [c] d
| numeral_next (ds : jsstring) (n c d : Z) :
    numeral ds n -> digit c d -> numeral (ds ++ [c]) (10 * n + d).

(** A token that begins with an integer: a numeral, after a plus sign
    or none, up to the first code unit that is not a digit; what comes
    after the numeral is not looked at. *)
Definition ends_numeral (s : jsstring) : Prop :=
  s = [] \/ exists c s', s = c :: s' /\ forall d, ~ digit c d.

Definition leading_integer (token : jsstring) (n : Z) : Prop :=
  exists ds rest,
    (token = ds ++ rest \/ token = 43 :: ds ++ rest)
    /\ numeral ds n /\ ends_numeral rest.

(** A token starting with a word. *)
Definition starts_with (word token : jsstring) : Prop :=
  exists rest, token = word ++ rest.

Definition male_token (token : jsstring) : Prop :=
  starts_with (js "nam") token \/ starts_with (js "man") token
  \/ starts_with (js "men") token.

Definition female_token (token : jsstring) : Prop :=
  starts_with (js "nu") token \/ starts_with (js "woman") token
  \/ starts_with (js "women") token.

(** The grammar, as a relation between the running count, the tokens
    still to read and the tags emitted for them.  [integer] says which
    tokens are integers and of what value: [numeral] when the whole
    token has to be one, [leading_integer] when its beginning
    suffices. *)
Section Grammar.

Variable integer : jsstring -> Z -> Prop.

Inductive Reads : Z -> list jsstring -> list gender -> Prop :=
| Reads_end (count : Z) :
    Reads count [] []
| Reads_count (count n : Z) (token : jsstring) ts out :
    integer token n -> 0 < n ->
    Reads n ts out ->
    Reads count (token :: ts) out
| Reads_male (count : Z) (token : jsstring) ts out :
    male_token token ->
    Reads 1 ts out ->
    Reads count (token :: ts) (repeat male (Z.to_nat count) ++ out)
| Reads_female (count : Z) (token : jsstring) ts out :
    female_token token ->
    Reads 1 ts out ->
    Reads count (token :: ts) (repeat female (Z.to_nat count) ++ out)
| Reads_other (count : Z) (token : jsstring) ts out :
    ~ (exists n, integer token n /\ 0 < n) ->
    ~ male_token token ->
    ~ female_token token ->
    Reads count ts out ->
    Reads count (token :: ts) out.

End Grammar.

(** *** The code against the grammar *)

(** The [parts] of the source: the non-empty pieces the code splits the
    normalised hint into. *)
Definition tokens {platform : Platform} (hint : jsstring) : list jsstring :=
  filter truthy (split_separators (normalized hint)).

Lemma startsWith_head (s : jsstring) (p : Z) (ps : jsstring) :
  startsWith s (p :: ps) = true -> exists s', s = p :: s'.
Proof.
  destruct s as [|c s']; cbn; [discriminate|].
  intros H. apply andb_true_iff in H as [H _].
  apply Z.eqb_eq in H. subst. now exists s'.
Qed.

Ltac word_heads H :=
  repeat (apply orb_true_iff in H as [H|H]);
  apply startsWith_head in H as [? ->].

(** *** Blank hints and ASCII hints *)

Lemma dropWhile_nil (p : Z -> bool) (s : jsstring) :
  dropWhile p s = [] <-> forallb p s = true.
Proof.
  induction s as [|c s IH]; cbn; [tauto|].
  destruct (p c); cbn; [exact IH|]. split; discriminate.
Qed.

Lemma dropWhile_head (p : Z -> bool) (s : jsstring) (c : Z) (r : jsstring) :
  dropWhile p s = c :: r -> p c = false.
Proof.
  induction s as [|a s IH]; cbn; [discriminate|].
  destruct (p a) eqn:E; [exact IH|]. now intros [= <- _].
Qed.

Lemma forallb_rev (p : Z -> bool) (s : jsstring) :
  forallb p (rev s) = forallb p s.
Proof.
  induction s as [|c s IH]; cbn; [reflexivity|].
  rewrite forallb_app, IH. cbn. rewrite andb_true_r. apply andb_comm.
Qed.

Lemma trim_empty (s : jsstring) :
  truthy (trim s) = false <-> forallb is_space s = true.
Proof.
  unfold trim, trimEnd, trimStart. split.
  - intros H.
    destruct (rev (dropWhile is_space (rev (dropWhile is_space s))))
      as [|c r] eqn:E; [|discriminate].
    apply (f_equal (@rev Z)) in E. rewrite rev_involutive in E. cbn in E.
    apply dropWhile_nil in E. rewrite forallb_rev in E.
    destruct (dropWhile is_space s) as [|a t] eqn:D.
    + now apply dropWhile_nil.
    + apply dropWhile_head in D. cbn in E. now rewrite D in E.
  - intros H. apply dropWhile_nil in H. now rewrite H.
Qed.

Lemma split_loop_blank (s : jsstring) :
  forallb is_separator s = true ->
  forall b, filter truthy (split_loop b [] s) = [].
Proof.
  induction s as [|c s IH]; cbn; [reflexivity|].
  intros H b. apply andb_true_iff in H as [Hc Hs]. rewrite Hc.
  destruct b; cbn; now apply IH.
Qed.

Lemma forallb_weaken (p q : Z -> bool) (s : jsstring) :
  (forall c, p c = true -> q c = true) ->
  forallb p s = true -> forallb q s = true.
Proof.
  intros Hpq. rewrite !forallb_forall. auto.
Qed.

Lemma forallb_filter (p q : Z -> bool) (s : jsstring) :
  forallb p s = true -> forallb p (filter q s) = true.
Proof.
  rewrite !forallb_forall. intros H x Hx.
  apply filter_In in Hx. now apply H.
Qed.

(** The pieces of [split] hold no separator, and together they are the
    string without its separators. *)
Lemma split_loop_pieces (s : jsstring) :
  forall (b : bool) (piece : jsstring),
    forallb (fun c => negb (is_separator c)) piece = true ->
    Forall (fun t => forallb (fun c => negb (is_separator c)) t = true)
      (split_loop b piece s)
    /\ concat (split_loop b piece s)
       = rev piece ++ filter (fun c => negb (is_separator c)) s.
Proof.
  induction s as [|c s IH]; intros b piece Hp; cbn [split_loop filter].
  - split.
    + constructor; [now rewrite forallb_rev | constructor].
    + cbn. now rewrite !app_nil_r.
  - destruct (is_separator c) eqn:Hc; cbn [negb].
    + destruct b.
      * now apply IH.
      * destruct (IH true [] eq_refl) as [HF HC]. split.
        -- constructor; [now rewrite forallb_rev | assumption].
        -- cbn [concat]. now rewrite HC.
    + destruct (IH false (c :: piece)) as [HF HC].
      * cbn. now rewrite Hc, Hp.
      * split; [assumption|]. rewrite HC. cbn [rev].
        now rewrite <- app_assoc.
Qed.

Lemma concat_filter_truthy (l : list jsstring) :
  concat (filter truthy l) = concat l.
Proof.
  induction l as [|t l IH]; [reflexivity|].
  destruct t; cbn; [exact IH | now rewrite IH].
Qed.

Section Hints.

Context {platform : Platform}.

Lemma tokens_blank (hint : jsstring) :
  forallb is_space hint = true -> tokens hint = [].
Proof.
  intros H. unfold tokens, normalized, split_separators.
  apply split_loop_blank.
  apply (forallb_weaken is_space).
  - intros c Hc. unfold is_separator. now rewrite Hc.
  - apply forallb_filter. now apply normalizeNFD_blank, toLowerCase_blank.
Qed.

(** On ASCII text the normalisation only lowers the capital letters. *)
Lemma normalized_ascii (s : jsstring) :
  forallb is_ascii s = true -> normalized s = map ascii_lower s.
Proof.
  intros H. unfold normalized.
  assert (Hlow : forallb is_ascii (map ascii_lower s) = true).
  { rewrite forallb_forall in *. intros x Hx.
    apply in_map_iff in Hx as (c & <- & Hc). specialize (H c Hc).
    unfold is_ascii, ascii_lower in *.
    apply andb_true_iff in H as [H0 H1].
    apply Z.leb_le in H0. apply Z.ltb_lt in H1.
    destruct ((65 <=? c) && (c <=? 90)) eqn:E.
    - apply andb_true_iff in E as [E0 E1]. apply Z.leb_le in E0, E1.
      apply andb_true_iff. split; [apply Z.leb_le | apply Z.ltb_lt]; lia.
    - apply andb_true_iff. split; [apply Z.leb_le | apply Z.ltb_lt]; lia. }
  rewrite toLowerCase_ascii, normalizeNFD_ascii by assumption.
  unfold strip_marks. apply forallb_filter_id.
  rewrite forallb_forall in *. intros x Hx. specialize (Hlow x Hx).
  unfold is_ascii, is_combining_mark in *.
  apply andb_true_iff in Hlow as [H0 H1]. apply Z.ltb_lt in H1.
  apply negb_true_iff, andb_false_iff. left. apply Z.leb_gt. lia.
Qed.

Lemma parseGenders_tokens (hint : jsstring) :
  parseGenders hint = snd (fold_left parseGenders_step (tokens hint) (1, [])).
Proof.
  unfold parseGenders. destruct (truthy (trim hint)) eqn:E; [reflexivity|].
  apply trim_empty in E. now rewrite tokens_blank.
Qed.

(** The tokens are the words of the normalised hint: non-empty, free
    of white space and commas, and in sequence the whole hint but its
    separators. *)
Lemma tokens_words (hint : jsstring) :
  Forall (fun t => t <> []
                   /\ forallb (fun c => negb (is_separator c)) t = true)
    (tokens hint)
  /\ concat (tokens hint)
     = filter (fun c => negb (is_separator c)) (normalized hint).
Proof.
  unfold tokens, split_separators.
  destruct (split_loop_pieces (normalized hint) false [] eq_refl) as [HF HC].
  split.
  - rewrite Forall_forall in *. intros t Ht.
    apply filter_In in Ht as [Hin Htruthy].
    split; [now destruct t | now apply HF].
  - now rewrite concat_filter_truthy, HC.
Qed.

End Hints.

(** An ASCII hint is parsed the same way on every platform. *)
Ltac ascii_hint :=
  unfold parseGenders, singleVoiceName;
  rewrite ?normalized_ascii by reflexivity;
  vm_compute; try reflexivity.

(** Removing the marks. *)
Lemma is_combining_mark_spec (c : Z) :
  is_combining_mark c = true <-> diacritical_mark c.
Proof.
  unfold is_combining_mark, diacritical_mark.
  rewrite andb_true_iff, !Z.leb_le. tauto.
Qed.

Lemma strip_marks_Stripped (s : jsstring) : Stripped s (strip_marks s).
Proof.
  induction s as [|c s IH]; cbn; [constructor|].
  destruct (is_combining_mark c) eqn:E; cbn.
  - apply Stripped_mark; [now apply is_combining_mark_spec | assumption].
  - apply Stripped_other; [|assumption].
    intros H. apply is_combining_mark_spec in H. congruence.
Qed.

Lemma Stripped_strip_marks (s t : jsstring) :
  Stripped s t -> t = strip_marks s.
Proof.
  induction 1 as [|c s t Hc _ IH|c s t Hc _ IH]; cbn; [reflexivity| |].
  - apply is_combining_mark_spec in Hc. now rewrite Hc.
  - destruct (is_combining_mark c) eqn:E.
    + now apply is_combining_mark_spec in E.
    + cbn. now rewrite IH.
Qed.

(** Splitting. *)
Lemma is_separator_spec (c : Z) : is_separator c = true <-> separates c.
Proof.
  unfold is_separator, is_space, separates, comma.
  rewrite !orb_true_iff, Z.eqb_eq. tauto.
Qed.

Lemma not_separates (c : Z) : ~ separates c <-> is_separator c = false.
Proof.
  rewrite <- is_separator_spec. destruct (is_separator c); split; congruence.
Qed.

Lemma split_loop_run (t : jsstring) :
  Forall (fun c => ~ separates c) t ->
  forall (piece s : jsstring),
    split_loop false piece (t ++ s) = split_loop false (rev t ++ piece) s.
Proof.
  induction 1 as [|c t Hc _ IH]; intros piece s; [reflexivity|].
  cbn [app split_loop rev]. apply not_separates in Hc. rewrite Hc.
  rewrite IH. now rewrite <- app_assoc.
Qed.

Lemma split_loop_token (t : jsstring) :
  t <> [] -> Forall (fun c => ~ separates c) t ->
  forall (b : bool) (s : jsstring),
    split_loop b [] (t ++ s) = split_loop false (rev t) s.
Proof.
  intros Hne Ht b s. destruct t as [|c t]; [contradiction|].
  inversion_clear Ht as [|? ? Hc Ht']. apply not_separates in Hc.
  cbn [app split_loop rev]. rewrite Hc.
  now rewrite (split_loop_run t Ht').
Qed.

(** The pieces the code keeps are the tokens, and every text has
    them. *)
Lemma Tokens_split_loop (s : jsstring) (ts : list jsstring) :
  Tokens s ts -> forall b, filter truthy (split_loop b [] s) = ts.
Proof.
  induction 1 as [|c s ts Hc _ IH|t s ts Hne Ht Hend _ IH]; intros b.
  - reflexivity.
  - apply is_separator_spec in Hc. cbn [split_loop]. rewrite Hc.
    destruct b; cbn; apply IH.
  - rewrite split_loop_token by assumption.
    destruct Hend as [->|(d & s' & -> & Hd)].
    + cbn. rewrite rev_involutive. specialize (IH false). cbn in IH.
      destruct t; [contradiction|]. cbn. now rewrite <- IH.
    + specialize (IH true). apply is_separator_spec in Hd.
      cbn [split_loop] in *. rewrite Hd in *. rewrite rev_involutive.
      destruct t; [contradiction|]. cbn [filter truthy]. now rewrite IH.
Qed.

Lemma token_ahead (s : jsstring) :
  exists t rest,
    s = t ++ rest /\ Forall (fun c => ~ separates c) t /\ ends_token rest.
Proof.
  induction s as [|c s (t & rest & -> & Ht & Hrest)].
  - exists [], []. repeat split; [constructor | now left].
  - destruct (is_separator c) eqn:E.
    + exists [], (c :: t ++ rest). repeat split; [constructor|].
      right. exists c, (t ++ rest). split; [reflexivity|].
      now apply is_separator_spec.
    + exists (c :: t), rest. repeat split; [|assumption].
      constructor; [now apply not_separates | assumption].
Qed.

Lemma Tokens_total (n : nat) :
  forall s : jsstring, (length s <= n)%nat -> exists ts, Tokens s ts.
Proof.
  induction n as [|n IH]; intros s Hlen.
  - destruct s; [|cbn in Hlen; lia]. exists []. constructor.
  - destruct s as [|c s]; [exists []; constructor|]. cbn in Hlen.
    destruct (is_separator c) eqn:E.
    + destruct (IH s ltac:(lia)) as [ts Hts]. exists ts.
      apply Tokens_separator; [now apply is_separator_spec | assumption].
    + destruct (token_ahead s) as (t & rest & -> & Ht & Hrest).
      destruct (IH rest) as [ts Hts].
      { rewrite length_app in Hlen. lia. }
      exists ((c :: t) :: ts).
      apply (Tokens_token (c :: t) rest ts); try assumption; [discriminate|].
      constructor; [now apply not_separates | assumption].
Qed.

Lemma Tokens_words (s : jsstring) (ts : list jsstring) :
  Tokens s ts ->
  Forall (fun t => t <> [] /\ Forall (fun c => ~ separates c) t) ts.
Proof.
  induction 1; [constructor | assumption | now constructor].
Qed.

(** Words. *)
Lemma startsWith_spec (word token : jsstring) :
  startsWith token word = true <-> starts_with word token.
Proof.
  unfold starts_with. revert token.
  induction word as [|p word IH]; intros token; cbn [startsWith].
  - split; [intros _; now exists token | now destruct token].
  - destruct token as [|c token].
    + cbn. split; [discriminate | intros [rest H]; discriminate].
    + cbn [startsWith]. rewrite andb_true_iff, Z.eqb_eq, IH. split.
      * intros [-> [rest ->]]. now exists rest.
      * intros [rest H]. cbn in H. injection H as -> ->.
        split; [reflexivity | now exists rest].
Qed.

Lemma is_male_word_spec (token : jsstring) :
  is_male_word token = true <-> male_token token.
Proof.
  unfold is_male_word, male_token.
  rewrite !orb_true_iff, !startsWith_spec. tauto.
Qed.

Lemma is_female_word_spec (token : jsstring) :
  is_female_word token = true <-> female_token token.
Proof.
  unfold is_female_word, female_token.
  rewrite !orb_true_iff, !startsWith_spec. tauto.
Qed.

(** Numerals. *)
Lemma is_digit_spec (c : Z) : is_digit c = true <-> digit c (c - 48).
Proof.
  unfold is_digit, digit. rewrite andb_true_iff, !Z.leb_le. lia.
Qed.

Lemma digit_value (c d : Z) : digit c d -> is_digit c = true /\ d = c - 48.
Proof.
  intros H. assert (d = c - 48) by (unfold digit in H; lia).
  subst d. split; [now apply is_digit_spec | reflexivity].
Qed.

Lemma digits_value_last (ds : jsstring) (c : Z) :
  digits_value (ds ++ [c]) = 10 * digits_value ds + (c - 48).
Proof.
  unfold digits_value. now rewrite fold_left_app.
Qed.

Lemma numeral_digits (ds : jsstring) (n : Z) :
  numeral ds n ->
  ds <> [] /\ forallb is_digit ds = true /\ digits_value ds = n.
Proof.
  induction 1 as [c d Hd|ds n c d _ (Hne & Hds & Hn) Hd];
    apply digit_value in Hd as [Hc ->].
  - split; [discriminate|]. split; [cbn; now rewrite Hc | reflexivity].
  - split; [|split].
    + now destruct ds.
    + rewrite forallb_app, Hds. cbn. now rewrite Hc.
    + now rewrite digits_value_last, Hn.
Qed.

Lemma digits_numeral (ds : jsstring) :
  ds <> [] -> forallb is_digit ds = true -> numeral ds (digits_value ds).
Proof.
  induction ds as [|c ds IH] using rev_ind; [contradiction|].
  intros _ H. rewrite forallb_app in H. apply andb_true_iff in H as [Hds Hc].
  cbn in Hc. rewrite andb_true_r in Hc. apply is_digit_spec in Hc.
  destruct ds as [|c0 ds'].
  - cbn. now constructor.
  - rewrite digits_value_last. apply numeral_next; [|assumption].
    apply IH; [discriminate | assumption].
Qed.

Lemma takeWhile_dropWhile (p : Z -> bool) (s : jsstring) :
  s = takeWhile p s ++ dropWhile p s /\ forallb p (takeWhile p s) = true.
Proof.
  induction s as [|c s [IH1 IH2]]; cbn; [split; reflexivity|].
  destruct (p c) eqn:E; cbn; [|split; reflexivity].
  rewrite E, IH2. split; [now f_equal | reflexivity].
Qed.

Lemma takeWhile_app_stop (p : Z -> bool) (l : jsstring) (c : Z)
    (rest : jsstring) :
  forallb p l = true -> p c = false -> takeWhile p (l ++ c :: rest) = l.
Proof.
  induction l as [|a l IH]; cbn; intros H Hc; [now rewrite Hc|].
  apply andb_true_iff in H as [Ha Hl]. rewrite Ha. now rewrite IH.
Qed.

Lemma takeWhile_app_end (p : Z -> bool) (l : jsstring) :
  forallb p l = true -> takeWhile p l = l.
Proof.
  induction l as [|a l IH]; cbn; [reflexivity|].
  intros H. apply andb_true_iff in H as [Ha Hl]. rewrite Ha. now rewrite IH.
Qed.

(** [parseInt] on a string that begins with a sign, and on one that
    begins with neither a sign nor white space. *)
Lemma parseInt_plus (r : jsstring) :
  parseInt (43 :: r)
  = match takeWhile is_digit r with
    | [] => None
    | ds => Some (digits_value ds)
    end.
Proof. reflexivity. Qed.

Lemma parseInt_minus (r : jsstring) :
  parseInt (45 :: r)
  = match takeWhile is_digit r with
    | [] => None
    | ds => Some (- digits_value ds)
    end.
Proof. reflexivity. Qed.

Lemma parseInt_unsigned (c : Z) (r : jsstring) :
  is_space c = false -> c <> 45 -> c <> 43 ->
  parseInt (c :: r)
  = match takeWhile is_digit (c :: r) with
    | [] => None
    | ds => Some (digits_value ds)
    end.
Proof.
  intros Hsp H45 H43. unfold parseInt, trimStart. cbn [dropWhile].
  rewrite Hsp. destruct c as [|p|p]; try reflexivity.
  do 6 (try (destruct p as [p|p|]; try reflexivity; try congruence)).
Qed.

Lemma digit_not_space (c : Z) : is_digit c = true -> is_space c = false.
Proof.
  unfold is_digit. intros H. apply andb_true_iff in H as [H0 H1].
  apply Z.leb_le in H0, H1.
  destruct (is_space c) eqn:E; [exfalso|reflexivity].
  unfold is_space, is_WhiteSpace, is_LineTerminator in E.
  repeat (apply orb_true_iff in E as [E|E]);
    try (apply Z.eqb_eq in E; lia).
  apply andb_true_iff in E as [E _]. apply Z.leb_le in E. lia.
Qed.

Lemma digits_value_nonneg (ds : jsstring) :
  forallb is_digit ds = true -> 0 <= digits_value ds.
Proof.
  induction ds as [|c ds IH] using rev_ind; [intros _; cbn; lia|].
  rewrite forallb_app, digits_value_last. intros H.
  apply andb_true_iff in H as [Hds Hc]. cbn in Hc.
  rewrite andb_true_r in Hc. apply is_digit_spec in Hc.
  specialize (IH Hds). unfold digit in Hc. lia.
Qed.

Lemma ends_numeral_dropWhile (s : jsstring) :
  ends_numeral (dropWhile is_digit s).
Proof.
  destruct (dropWhile is_digit s) as [|c r] eqn:E; [now left|].
  right. exists c, r. split; [reflexivity|].
  apply dropWhile_head in E. intros d Hd.
  apply digit_value in Hd as [Hd _]. congruence.
Qed.

Lemma takeWhile_numeral (ds rest : jsstring) :
  forallb is_digit ds = true -> ends_numeral rest ->
  takeWhile is_digit (ds ++ rest) = ds.
Proof.
  intros Hds [->|(c & r & -> & Hc)].
  - rewrite app_nil_r. now apply takeWhile_app_end.
  - apply takeWhile_app_stop; [assumption|].
    destruct (is_digit c) eqn:E; [|reflexivity].
    apply is_digit_spec in E. now elim (Hc _ E).
Qed.

(** [parseInt] reads the integer a token begins with, and reads a
    positive number from no other token. *)
Lemma leading_integer_parseInt (token : jsstring) (n : Z) :
  leading_integer token n -> parseInt token = Some n.
Proof.
  intros (ds & rest & E & Hnum & Hend).
  apply numeral_digits in Hnum as (Hne & Hds & Hn).
  destruct ds as [|c ds]; [contradiction|].
  destruct E as [->| ->].
  - assert (Hc : is_digit c = true)
      by (cbn in Hds; now apply andb_true_iff in Hds as [Hc _]).
    rewrite <- app_comm_cons.
    rewrite parseInt_unsigned.
    + rewrite app_comm_cons, takeWhile_numeral by assumption.
      now rewrite Hn.
    + now apply digit_not_space.
    + apply is_digit_spec in Hc. unfold digit in Hc. lia.
    + apply is_digit_spec in Hc. unfold digit in Hc. lia.
  - rewrite parseInt_plus, takeWhile_numeral by assumption. now rewrite Hn.
Qed.

Lemma parseInt_leading_integer (token : jsstring) (n : Z) :
  Forall (fun c => ~ separates c) token ->
  parseInt token = Some n -> 0 < n -> leading_integer token n.
Proof.
  intros Hword H Hpos. destruct token as [|c r]; [discriminate|].
  destruct (takeWhile_dropWhile is_digit r) as [Er Hr].
  destruct (Z.eq_dec c 45) as [->|N45].
  { rewrite parseInt_minus in H.
    destruct (takeWhile is_digit r) as [|d ds]; [discriminate|].
    injection H as <-. apply digits_value_nonneg in Hr. lia. }
  destruct (Z.eq_dec c 43) as [->|N43].
  { rewrite parseInt_plus in H.
    destruct (takeWhile is_digit r) as [|d ds] eqn:E; [discriminate|].
    injection H as <-. exists (d :: ds), (dropWhile is_digit r).
    split; [right; now f_equal|].
    split; [apply digits_numeral; [discriminate | assumption]|].
    apply ends_numeral_dropWhile. }
  inversion_clear Hword as [|? ? Hc _]. apply not_separates in Hc.
  unfold is_separator in Hc. apply orb_false_iff in Hc as [Hc _].
  rewrite parseInt_unsigned in H by assumption.
  destruct (takeWhile_dropWhile is_digit (c :: r)) as [Et Ht].
  destruct (takeWhile is_digit (c :: r)) as [|d ds] eqn:E; [discriminate|].
  injection H as <-. exists (d :: ds), (dropWhile is_digit (c :: r)).
  split; [now left|].
  split; [apply digits_numeral; [discriminate | assumption]|].
  apply ends_numeral_dropWhile.
Qed.

(** A word of either gender starts with a letter, so [parseInt] reads
    no number from it. *)
Lemma male_word_not_number (t : jsstring) :
  is_male_word t = true -> parseInt t = None.
Proof.
  unfold is_male_word. intros H. word_heads H; reflexivity.
Qed.

Lemma female_word_not_number (t : jsstring) :
  is_female_word t = true -> parseInt t = None.
Proof.
  unfold is_female_word. intros H. word_heads H; reflexivity.
Qed.

Lemma male_word_not_female (t : jsstring) :
  is_male_word t = true -> is_female_word t = false.
Proof.
  unfold is_male_word, is_female_word.
  change (js "nam") with [110; 97; 109]. change (js "man") with [109; 97; 110].
  change (js "men") with [109; 101; 110]. change (js "nu") with [110; 117].
  change (js "woman") with [119; 111; 109; 97; 110].
  change (js "women") with [119; 111; 109; 101; 110].
  destruct t as [|a [|b t]]; cbn [startsWith]; try discriminate.
  - rewrite !andb_false_r. discriminate.
  - destruct (Z.eqb_spec a 110) as [->|]; cbn [andb orb];
      [|destruct (Z.eqb_spec a 109) as [->|]; cbn [andb orb];
        [reflexivity|discriminate]].
    destruct (Z.eqb_spec b 97) as [->|]; [reflexivity|].
    cbn. discriminate.
Qed.


(** The loop of [parseGenders] emits what the grammar prescribes for
    its tokens, and the grammar prescribes something for every list of
    tokens. *)
Lemma parseGenders_loop_Reads (count : Z) (ts : list jsstring)
    (out : list gender) :
  Reads leading_integer count ts out ->
  Forall (fun t => t <> [] /\ Forall (fun c => ~ separates c) t) ts ->
  forall genders,
    snd (fold_left parseGenders_step ts (count, genders)) = genders ++ out.
Proof.
  induction 1 as [c | c n t ts out Hn Hpos _ IH | c t ts out Hm _ IH
                 | c t ts out Hf _ IH | c t ts out Hnum Hm Hf _ IH];
    intros Hts genders.
  - cbn. now rewrite app_nil_r.
  - inversion_clear Hts as [|? ? _ Hts']. cbn [fold_left].
    unfold parseGenders_step at 2.
    rewrite (leading_integer_parseInt t n Hn).
    apply Z.ltb_lt in Hpos. rewrite Hpos. now apply IH.
  - inversion_clear Hts as [|? ? _ Hts']. cbn [fold_left].
    unfold parseGenders_step at 2. apply is_male_word_spec in Hm.
    rewrite (male_word_not_number t Hm), Hm. unfold push_times.
    rewrite IH by assumption. now rewrite app_assoc.
  - inversion_clear Hts as [|? ? _ Hts']. cbn [fold_left].
    unfold parseGenders_step at 2. apply is_female_word_spec in Hf.
    rewrite (female_word_not_number t Hf), Hf.
    destruct (is_male_word t) eqn:Hm.
    + apply male_word_not_female in Hm. congruence.
    + unfold push_times. rewrite IH by assumption. now rewrite app_assoc.
  - inversion_clear Hts as [|? ? [_ Ht] Hts']. cbn [fold_left].
    unfold parseGenders_step at 2.
    destruct (is_male_word t) eqn:Em;
      [now apply is_male_word_spec in Em|].
    destruct (is_female_word t) eqn:Ef;
      [now apply is_female_word_spec in Ef|].
    destruct (parseInt t) as [n|] eqn:En; [|now apply IH].
    destruct (Z.ltb_spec 0 n) as [Hpos|_]; [|now apply IH].
    elim Hnum. exists n. split; [|assumption].
    now apply parseInt_leading_integer.
Qed.

Lemma Reads_total (ts : list jsstring) :
  Forall (fun t => t <> [] /\ Forall (fun c => ~ separates c) t) ts ->
  forall count, exists out, Reads leading_integer count ts out.
Proof.
  induction 1 as [|t ts [_ Ht] _ IH]; intros count.
  - exists []. constructor.
  - destruct (parseInt t) as [n|] eqn:En.
    + destruct (Z.ltb_spec 0 n) as [Hpos|Hneg].
      * destruct (IH n) as [out Hout]. exists out.
        apply (Reads_count _ count n); try assumption.
        now apply parseInt_leading_integer.
      * assert (Hnum : ~ (exists m, leading_integer t m /\ 0 < m)).
        { intros (m & Hm & Hpos). apply leading_integer_parseInt in Hm.
          rewrite Hm in En. injection En as ->. lia. }
        destruct (is_male_word t) eqn:Em.
        { destruct (IH 1) as [out Hout]. eexists.
          apply Reads_male; [now apply is_male_word_spec | eassumption]. }
        destruct (is_female_word t) eqn:Ef.
        { destruct (IH 1) as [out Hout]. eexists.
          apply Reads_female; [now apply is_female_word_spec | eassumption]. }
        destruct (IH count) as [out Hout]. exists out.
        apply Reads_other; try assumption.
        -- intros H. apply is_male_word_spec in H. congruence.
        -- intros H. apply is_female_word_spec in H. congruence.
    + assert (Hnum : ~ (exists m, leading_integer t m /\ 0 < m)).
      { intros (m & Hm & Hpos). apply leading_integer_parseInt in Hm.
        congruence. }
      destruct (is_male_word t) eqn:Em.
      { destruct (IH 1) as [out Hout]. eexists.
        apply Reads_male; [now apply is_male_word_spec | eassumption]. }
      destruct (is_female_word t) eqn:Ef.
      { destruct (IH 1) as [out Hout]. eexists.
        apply Reads_female; [now apply is_female_word_spec | eassumption]. }
      destruct (IH count) as [out Hout]. exists out.
      apply Reads_other; try assumption.
      * intros H. apply is_male_word_spec in H. congruence.
      * intros H. apply is_female_word_spec in H. congruence.
Qed.

(** Derivations on concrete hints. *)
Ltac stripped :=
  repeat first
    [ apply Stripped_end
    | apply Stripped_other; [unfold diacritical_mark; lia|]
    | apply Stripped_mark; [unfold diacritical_mark; lia|] ].

Ltac no_separator :=
  repeat constructor;
  intros [H|[H|H]]; discriminate H.

(** C4, counterexample.  The hint "3x nam" has the tokens "3x" and
    "nam".  The first is not a positive integer, nor a word of either
    gender, so the grammar as stated passes it over and emits one male
    tag for the second, the count being still 1 - and nothing else.  The
    code reads the count 3 from the digit "3x" begins with, and emits
    three. *)
Lemma parseGenders_counts_by_leading_digits :
  Stripped (normalizeNFD (toLowerCase (js "3x nam"))) (js "3x nam")
  /\ Tokens (js "3x nam") [js "3x"; js "nam"]
  /\ Reads numeral 1 [js "3x"; js "nam"] [male]
  /\ (forall out, Reads numeral 1 [js "3x"; js "nam"] out -> out = [male])
  /\ parseGenders (js "3x nam") = [male; male; male].
Proof.
  assert (N3x : ~ (exists n, numeral (js "3x") n /\ 0 < n)).
  { intros (n & H & _). apply numeral_digits in H as (_ & H & _).
    discriminate H. }
  assert (Nnam : forall n, ~ numeral (js "nam") n).
  { intros n H. apply numeral_digits in H as (_ & H & _). discriminate H. }
  assert (M3x : ~ male_token (js "3x")).
  { intros H. apply is_male_word_spec in H. discriminate H. }
  assert (F3x : ~ female_token (js "3x")).
  { intros H. apply is_female_word_spec in H. discriminate H. }
  assert (Mnam : male_token (js "nam")) by (left; now exists []).
  assert (Fnam : ~ female_token (js "nam")).
  { intros H. apply is_female_word_spec in H. discriminate H. }
  split; [|split; [|split; [|split]]].
  - change (normalizeNFD (toLowerCase (js "3x nam"))) with (js "3x nam").
    change (js "3x nam") with [51; 120; 32; 110; 97; 109]. stripped.
  - apply (Tokens_token (js "3x") (js " nam")); [discriminate|no_separator| |].
    + right. exists 32, (js "nam"). split; [reflexivity | now left].
    + apply Tokens_separator; [now left|].
      apply (Tokens_token (js "nam") []);
        [discriminate | no_separator | now left | constructor].
  - apply Reads_other; try assumption.
    apply (Reads_male numeral 1 (js "nam") [] []); [assumption | constructor].
  - intros out H.
    inversion H as [ | ? n ? ? ? Hn | ? ? ? ? Hm | ? ? ? ? Hf
                     | ? ? ? ? _ _ _ H' ]; subst.
    + elim N3x. now exists n.
    + contradiction.
    + contradiction.
    + inversion H' as [ | ? n ? ? ? Hn | ? ? ? ? _ H''
                        | ? ? ? ? Hf | ? ? ? ? _ Hm ]; subst.
      * now elim (Nnam n).
      * now inversion H''.
      * contradiction.
      * contradiction.
  - reflexivity.
Qed.

(** C4, as amended.  For every hint, the text left of the lowercased and
    decomposed hint once its diacritical marks are removed has tokens -
    its maximal runs free of white space and commas - and the grammar
    reads a list of tags from them, starting from the count 1:
    a token that begins with a positive integer (a numeral, after a plus
    sign or none; what follows its digits is not looked at) sets the
    count and emits nothing; a token starting with nam, man or men emits
    [count] male tags and resets the count to 1; a token starting with
    nu, woman or women does the same with female tags; any other token
    changes nothing.  Whatever list the grammar reads, [parseGenders]
    returns it, provided the array can hold it. *)
Theorem parseGenders_reads_hint {platform : Platform} {engine : Engine}
    (hint : jsstring) :
  (exists text ts out,
     Stripped (normalizeNFD (toLowerCase hint)) text
     /\ Tokens text ts
     /\ Reads leading_integer 1 ts out)
  /\ (forall text ts out,
        Stripped (normalizeNFD (toLowerCase hint)) text ->
        Tokens text ts ->
        Reads leading_integer 1 ts out ->
        Z.of_nat (length out) <= max_array_length ->
        parseGenders hint = out)
  /\ parseGenders (js "1 nam 1 nu") = [male; female]
  /\ parseGenders (js "1 nam 1 nam 1 nu") = [male; male; female].
Proof.
  split; [|split; [|split; ascii_hint]].
  - destruct (Tokens_total _ (normalized hint) (le_n _)) as [ts Hts].
    destruct (Reads_total ts (Tokens_words _ _ Hts) 1) as [out Hout].
    exists (normalized hint), ts, out.
    split; [apply strip_marks_Stripped | now split].
  - intros text ts out Htext Hts Hout _.
    apply Stripped_strip_marks in Htext. fold (normalized hint) in Htext.
    subst text. rewrite parseGenders_tokens. unfold tokens, split_separators.
    rewrite (Tokens_split_loop _ _ Hts false).
    exact (parseGenders_loop_Reads 1 ts out Hout (Tokens_words _ _ Hts) []).
Qed.

Lemma parseGenders_reads_hint_witness :
  parseGenders (js "2 nam") = [male; male].
Proof.
  apply (proj1 (proj2 (parseGenders_reads_hint
                         (platform := latin_platform)
                         (engine := language_engine) (js "2 nam")))
           (js "2 nam") [js "2"; js "nam"]).
  - change (normalizeNFD (toLowerCase (js "2 nam"))) with (js "2 nam").
    change (js "2 nam") with [50; 32; 110; 97; 109]. stripped.
  - apply (Tokens_token (js "2") (js " nam")); [discriminate|no_separator| |].
    + right. exists 32, (js "nam"). split; [reflexivity | now left].
    + apply Tokens_separator; [now left|].
      apply (Tokens_token (js "nam") []);
        [discriminate | no_separator | now left | constructor].
  - apply (Reads_count leading_integer 1 2).
    + exists (js "2"), []. split; [now left|]. split; [|now left].
      apply (numeral_digit 50 2). unfold digit. lia.
    + lia.
    + apply (Reads_male leading_integer 2 (js "nam") [] []);
        [left; now exists [] | constructor].
  - vm_compute. discriminate.
Defined.

(** The grammar on the hints of the specification, with the platform of
    the examples.  The marks are removed wherever they stand: the
    placeholder of the input field, written with its diacritics, is
    read, and so is a word with a mark inside it ("na", U+0301, "m").
    A count glued to its word is read as a count. *)
Example parseGenders_examples :
  parseGenders (js "1 nam 1 nu") = [male; female]
  /\ parseGenders (js "1 nam 1 n" ++ [7919]) = [male; female]
  /\ parseGenders (js "na" ++ [769] ++ js "m, nu" ++ [795; 771])
     = [male; female]
  /\ parseGenders (js "2 nam") = [male; male]
  /\ parseGenders (js "3 nam 1 nu") = [male; male; male; female]
  /\ parseGenders (js "Nam, WOMEN") = [male; female]
  /\ parseGenders (js "2nam nu") = [female; female]
  /\ parseGenders (js "+2 nam") = [male; male]
  /\ parseGenders (js "0 nam x -4 nu") = [male; female]
  /\ parseGenders (js "   ") = [].
Proof. repeat split. Qed.

(* ================================================================= *)
(** ** The speaker pattern *)

Lemma colon_not_label_char (c : Z) : is_label_char c = true -> c <> colon.
Proof. intros H ->. discriminate. Qed.

(** What the repetition and the colon match: a run of class members
    followed by a colon, and nothing else. *)
Lemma match_more_complete (run rest : jsstring) :
  forallb is_label_char run = true ->
  match_more (run ++ colon :: rest) = Some (run ++ [colon], rest).
Proof.
  induction run as [|c run IH]; intros H.
  - reflexivity.
  - cbn in H. apply andb_true_iff in H as [Hc Hrun].
    cbn [app match_more]. now rewrite Hc, IH.
Qed.

Lemma match_more_sound (s : jsstring) :
  forall m rest,
    match_more s = Some (m, rest) ->
    exists run, forallb is_label_char run = true
                /\ m = run ++ [colon] /\ s = run ++ colon :: rest.
Proof.
  induction s as [|c s IH]; intros m rest; cbn [match_more];
    [discriminate|].
  assert (Hcolon : match_colon (c :: s) = Some (m, rest) ->
            exists run, forallb is_label_char run = true
                        /\ m = run ++ [colon] /\ c :: s = run ++ colon :: rest).
  { unfold match_colon. destruct (Z.eqb_spec c colon) as [->|];
      [|discriminate].
    intros [= <- <-]. now exists []. }
  destruct (is_label_char c) eqn:Hc; [|exact Hcolon].
  destruct (match_more s) as [[m' rest']|]; [|exact Hcolon].
  intros [= <- <-].
  destruct (IH m' rest' eq_refl) as (run & Hrun & -> & ->).
  exists (c :: run). cbn. now rewrite Hc, Hrun.
Qed.

Lemma match_here_complete (run rest : jsstring) :
  run <> [] -> forallb is_label_char run = true ->
  match_here (run ++ colon :: rest) = Some (run ++ [colon], rest).
Proof.
  destruct run as [|c run]; [contradiction|]. intros _ H.
  cbn in H. apply andb_true_iff in H as [Hc Hrun].
  cbn [app match_here]. now rewrite Hc, match_more_complete.
Qed.

Lemma match_here_spec (s m rest : jsstring) :
  match_here s = Some (m, rest)
  <-> exists run, run <> [] /\ forallb is_label_char run = true
                  /\ m = run ++ [colon] /\ s = run ++ colon :: rest.
Proof.
  split.
  - destruct s as [|c s]; cbn [match_here]; [discriminate|].
    destruct (is_label_char c) eqn:Hc; [|discriminate].
    destruct (match_more s) as [[m' rest']|] eqn:Hs; [|discriminate].
    intros [= <- <-].
    apply match_more_sound in Hs as (run & Hrun & -> & ->).
    exists (c :: run). cbn. rewrite Hc, Hrun. repeat split. discriminate.
  - intros (run & Hne & Hrun & -> & ->). now apply match_here_complete.
Qed.

Lemma match_here_shorter (s m rest : jsstring) :
  match_here s = Some (m, rest) -> (length rest < length s)%nat.
Proof.
  intros H. apply match_here_spec in H as (run & _ & _ & _ & ->).
  rewrite length_app. cbn. lia.
Qed.

(** Fuel beyond the length of the input changes nothing. *)
Lemma match_loop_fuel (fuel : nat) :
  forall (b : bool) (s : jsstring),
    (length s <= fuel)%nat ->
    match_loop fuel b s = match_loop (length s) b s.
Proof.
  induction fuel as [fuel IH] using lt_wf_ind. intros b s Hlen.
  destruct s as [|c s']; [now destruct fuel|].
  destruct fuel as [|fuel]; [cbn in Hlen; lia|].
  cbn [match_loop length].
  destruct (if b then match_here (c :: s') else None) as [[m rest]|] eqn:E.
  - assert (Hr : (length rest < length (c :: s'))%nat).
    { destruct b; [|discriminate]. now apply match_here_shorter in E. }
    cbn in Hr, Hlen. f_equal.
    rewrite (IH fuel) by lia. symmetry. apply IH; lia.
  - cbn in Hlen. apply IH; lia.
Qed.

(** A position is at the start of a line when nothing or a line
    terminator precedes it. *)
Definition line_start (before : jsstring) : Prop :=
  before = []
  \/ exists p c, before = p ++ [c] /\ is_LineTerminator c = true.

(** The pattern occurs in a script: at some start of a line there is a
    non-empty run of letters, digits and white-space characters, line
    terminators among them, with a colon right after it. *)
Definition has_label (script : jsstring) : Prop :=
  exists before run rest,
    script = before ++ run ++ colon :: rest
    /\ line_start before
    /\ run <> [] /\ forallb is_label_char run = true.

(** The line-start flag of the scan after reading [before]. *)
Fixpoint start_flag (b : bool) (before : jsstring) : bool :=
  match before with
  | [] => b
  | c :: r => start_flag (is_LineTerminator c) r
  end.

Lemma start_flag_spec (before : jsstring) :
  forall b,
    start_flag b before = true
    <-> (before = [] /\ b = true)
        \/ exists p c, before = p ++ [c] /\ is_LineTerminator c = true.
Proof.
  induction before as [|a r IH]; intros b; cbn [start_flag].
  - split; [now left|]. intros [[_ H]|(p & c & H & _)]; [assumption|].
    now destruct p.
  - rewrite IH. split.
    + intros [[-> H]|(p & c & -> & H)]; right.
      * now exists [], a.
      * now exists (a :: p), c.
    + intros [[H _]|(p & c & H & Hc)]; [discriminate|].
      destruct p as [|a' p]; cbn in H; injection H as -> H.
      * left. split; [now symmetry in H | assumption].
      * right. now exists p, c.
Qed.

Definition occurs (b : bool) (s : jsstring) : Prop :=
  exists before run rest,
    s = before ++ run ++ colon :: rest
    /\ start_flag b before = true
    /\ run <> [] /\ forallb is_label_char run = true.

Lemma has_label_occurs (script : jsstring) :
  has_label script <-> occurs true script.
Proof.
  unfold has_label, occurs, line_start.
  split; intros (before & run & rest & E & Hs & Hrun);
    exists before, run, rest; (split; [assumption|]);
    (split; [|assumption]).
  - apply start_flag_spec. destruct Hs as [->|H]; [now left | now right].
  - apply start_flag_spec in Hs. destruct Hs as [[H _]|H];
      [now left | now right].
Qed.

Lemma occurs_nil (b : bool) : ~ occurs b [].
Proof.
  intros (before & run & rest & E & _). symmetry in E.
  apply app_eq_nil in E as [_ E]. apply app_eq_nil in E as [_ E].
  discriminate.
Qed.

Lemma occurs_step (b : bool) (c : Z) (s : jsstring) :
  (if b then match_here (c :: s) else None) = None ->
  (occurs b (c :: s) <-> occurs (is_LineTerminator c) s).
Proof.
  intros Hnone. split.
  - intros (before & run & rest & E & Hs & Hne & Hrun).
    destruct before as [|a before].
    + cbn in Hs, E. subst b. rewrite E in Hnone.
      now rewrite match_here_complete in Hnone.
    + cbn in E. injection E as <- ->. now exists before, run, rest.
  - intros (before & run & rest & -> & Hs & Hne & Hrun).
    now exists (c :: before), run, rest.
Qed.

(** The scan finds nothing exactly when the pattern does not occur. *)
Lemma match_loop_nil (fuel : nat) :
  forall (b : bool) (s : jsstring),
    (length s <= fuel)%nat ->
    (match_loop fuel b s = [] <-> ~ occurs b s).
Proof.
  induction fuel as [|fuel IH]; intros b s Hlen.
  - destruct s; [|cbn in Hlen; lia]. cbn. split; [intros _|reflexivity].
    apply occurs_nil.
  - destruct s as [|c s]; cbn [match_loop].
    + split; [intros _|reflexivity]. apply occurs_nil.
    + destruct (if b then match_here (c :: s) else None) as [[m rest]|] eqn:E.
      * split; [discriminate|]. intros Hno. exfalso. apply Hno.
        destruct b; [|discriminate].
        apply match_here_spec in E as (run & Hne & Hrun & -> & ->).
        now exists [], run, rest.
      * rewrite (occurs_step b c s E). apply IH. cbn in Hlen. lia.
Qed.

Lemma String_match_none (script : jsstring) :
  String_match_speakerRegex script = None <-> ~ has_label script.
Proof.
  unfold String_match_speakerRegex. rewrite has_label_occurs.
  rewrite <- (match_loop_nil (length script) true script) by lia.
  destruct (match_loop (length script) true script); split;
    congruence.
Qed.

(** Every match is a non-empty run of class members and the colon. *)
Definition label_match (m : jsstring) : Prop :=
  exists run, run <> [] /\ forallb is_label_char run = true
              /\ m = run ++ [colon].

Lemma match_loop_matches (fuel : nat) :
  forall (b : bool) (s : jsstring), Forall label_match (match_loop fuel b s).
Proof.
  induction fuel as [|fuel IH]; intros b s; cbn; [constructor|].
  destruct s as [|c s]; [constructor|].
  destruct (if b then match_here (c :: s) else None) as [[m rest]|] eqn:E.
  - constructor; [|apply IH].
    destruct b; [|discriminate].
    apply match_here_spec in E as (run & Hne & Hrun & -> & _).
    now exists run.
  - apply IH.
Qed.

(** The labels of a script, one per match, and the distinct labels in
    order of first appearance: the [speakers] of the source. *)
Definition label_of (m : jsstring) : jsstring := trim (slice_0_m1 m).

Definition labels (script : jsstring) : list jsstring :=
  match String_match_speakerRegex script with
  | None => []
  | Some matches => map label_of matches
  end.

Definition distinct_labels (script : jsstring) : list jsstring :=
  Set_values (labels script).

Lemma match_loop_found (fuel : nat) :
  forall (b : bool) (s : jsstring) m ms,
    match_loop fuel b s = m :: ms -> occurs b s.
Proof.
  induction fuel as [|fuel IH]; intros b s m ms; cbn; [discriminate|].
  destruct s as [|c s]; [discriminate|].
  destruct (if b then match_here (c :: s) else None) as [[m' rest]|] eqn:E.
  - intros _. destruct b; [|discriminate].
    apply match_here_spec in E as (run & Hne & Hrun & -> & ->).
    now exists [], run, rest.
  - intros H. apply (occurs_step b c s E). exact (IH _ _ _ _ H).
Qed.

Lemma String_match_some (script : jsstring) (matches : list jsstring) :
  String_match_speakerRegex script = Some matches ->
  matches <> [] /\ Forall label_match matches /\ has_label script.
Proof.
  unfold String_match_speakerRegex. intros H.
  pose proof (match_loop_matches (length script) true script) as HF.
  destruct (match_loop (length script) true script) as [|m ms] eqn:E;
    [discriminate|].
  injection H as <-. split; [discriminate|]. split; [assumption|].
  apply has_label_occurs. exact (match_loop_found _ _ _ _ _ E).
Qed.

Lemma has_label_dec (script : jsstring) :
  has_label script \/ ~ has_label script.
Proof.
  destruct (String_match_speakerRegex script) as [ms|] eqn:E.
  - left. now apply String_match_some in E.
  - right. now apply String_match_none.
Qed.

Lemma labels_nil (script : jsstring) :
  labels script = [] <-> ~ has_label script.
Proof.
  unfold labels. rewrite <- String_match_none.
  destruct (String_match_speakerRegex script) as [ms|] eqn:E.
  - apply String_match_some in E as [Hne _].
    destruct ms; [contradiction|]. cbn. split; discriminate.
  - tauto.
Qed.

(* ================================================================= *)
(** ** Sets of labels and trimming *)

Lemma eqb_spec (s t : jsstring) : JSString.eqb s t = true <-> s = t.
Proof.
  revert t. induction s as [|c s IH]; intros [|d t]; cbn;
    try (split; [discriminate|discriminate]); [tauto|].
  rewrite andb_true_iff, Z.eqb_eq, IH. split.
  - now intros [-> ->].
  - now intros [= -> ->].
Qed.

Lemma mem_spec (v : jsstring) (set : list jsstring) :
  existsb (JSString.eqb v) set = true <-> In v set.
Proof.
  rewrite existsb_exists. split.
  - intros (x & Hx & E). apply eqb_spec in E. now subst.
  - intros H. exists v. split; [assumption | now apply eqb_spec].
Qed.

(** The values not seen before, in order of appearance. *)
Fixpoint first_occurrences (seen values : list jsstring) : list jsstring :=
  match values with
  | [] => []
  | v :: rest =>
      if existsb (JSString.eqb v) seen then first_occurrences seen rest
      else v :: first_occurrences (seen ++ [v]) rest
  end.

Lemma Set_add_loop (values : list jsstring) :
  forall seen,
    fold_left Set_add values seen = seen ++ first_occurrences seen values.
Proof.
  induction values as [|v rest IH]; intros seen; cbn.
  - now rewrite app_nil_r.
  - unfold Set_add at 2. destruct (existsb (JSString.eqb v) seen).
    + apply IH.
    + rewrite IH. now rewrite <- app_assoc.
Qed.

Lemma Set_values_first_occurrences (values : list jsstring) :
  Set_values values = first_occurrences [] values.
Proof. unfold Set_values. now rewrite Set_add_loop. Qed.

Lemma first_occurrences_In (values : list jsstring) :
  forall seen x,
    In x (first_occurrences seen values) <-> In x values /\ ~ In x seen.
Proof.
  induction values as [|v rest IH]; intros seen x; cbn; [tauto|].
  destruct (existsb (JSString.eqb v) seen) eqn:E.
  - apply mem_spec in E. rewrite IH. split.
    + intros [H1 H2]. tauto.
    + intros [[->|H1] H2]; [contradiction | tauto].
  - assert (Hv : ~ In v seen) by (rewrite <- mem_spec; congruence).
    cbn. rewrite IH, in_app_iff. cbn. split.
    + intros [->|[H1 H2]]; [tauto|]. split; [tauto|]. tauto.
    + intros [[->|H1] H2]; [now left|].
      destruct (JSString.eqb v x) eqn:Ex.
      * apply eqb_spec in Ex. now left.
      * right. split; [assumption|]. intros [H|[->|[]]]; [contradiction|].
        assert (JSString.eqb x x = true) by now apply eqb_spec.
        congruence.
Qed.

Lemma first_occurrences_NoDup (values : list jsstring) :
  forall seen, NoDup (first_occurrences seen values).
Proof.
  induction values as [|v rest IH]; intros seen; cbn; [constructor|].
  destruct (existsb (JSString.eqb v) seen); [apply IH|].
  constructor; [|apply IH].
  rewrite first_occurrences_In, in_app_iff. cbn. tauto.
Qed.

(** [Set_values] keeps every value once. *)
Lemma Set_values_In (values : list jsstring) (x : jsstring) :
  In x (Set_values values) <-> In x values.
Proof.
  rewrite Set_values_first_occurrences, first_occurrences_In. cbn. tauto.
Qed.

Lemma Set_values_NoDup (values : list jsstring) : NoDup (Set_values values).
Proof.
  rewrite Set_values_first_occurrences. apply first_occurrences_NoDup.
Qed.

Lemma first_occurrences_nil (values seen : list jsstring) :
  first_occurrences seen values = [] -> Forall (fun v => In v seen) values.
Proof.
  revert seen. induction values as [|v rest IH]; intros seen; cbn;
    [constructor|].
  destruct (existsb (JSString.eqb v) seen) eqn:E; [|discriminate].
  intros H. constructor; [now apply mem_spec | now apply IH].
Qed.

(** Two distinct values in all: the first value repeated, then the
    second, then only these two. *)
Lemma Set_values_two (values : list jsstring) (a b : jsstring) :
  Set_values values = [a; b] ->
  a <> b
  /\ exists n rest,
       values = repeat a (S n) ++ b :: rest
       /\ Forall (fun v => v = a \/ v = b) rest.
Proof.
  rewrite Set_values_first_occurrences.
  destruct values as [|v values]; cbn; [discriminate|].
  intros [= -> H].
  assert (Hgen : forall l, first_occurrences [a] l = [b] ->
            a <> b /\ exists n rest, l = repeat a n ++ b :: rest
                        /\ Forall (fun v => v = a \/ v = b) rest).
  { clear. induction l as [|v l IH]; cbn [first_occurrences];
      [discriminate|].
    destruct (existsb (JSString.eqb v) [a]) eqn:E.
    - apply mem_spec in E as [->|[]]. intros H.
      destruct (IH H) as (Hne & n & rest & -> & HF).
      split; [assumption|]. now exists (S n), rest.
    - intros [= -> H]. split.
      + intros ->. rewrite <- not_true_iff_false, mem_spec in E.
        apply E. now left.
      + exists 0%nat, l. split; [reflexivity|].
        apply first_occurrences_nil in H.
        eapply Forall_impl; [|exact H]. cbn. intros x [<-|[<-|[]]]; auto. }
  destruct (Hgen values H) as (Hne & n & rest & -> & HF).
  split; [assumption|]. now exists n, rest.
Qed.

(** *** [trim] *)

Definition blank (s : jsstring) : bool := forallb is_space s.

(** Neither the first nor the last code unit is white space. *)
Definition trimmed (s : jsstring) : bool :=
  match s with [] => true | c :: _ => negb (is_space c) end
  && match rev s with [] => true | c :: _ => negb (is_space c) end.

Lemma dropWhile_app_all (p : Z -> bool) (l x : jsstring) :
  forallb p l = true -> dropWhile p (l ++ x) = dropWhile p x.
Proof.
  induction l as [|c l IH]; cbn; [reflexivity|].
  intros H. apply andb_true_iff in H as [Hc Hl]. rewrite Hc. now apply IH.
Qed.

(** [trim] undoes padding with white space ... *)
Lemma trim_pad (l core r : jsstring) :
  blank l = true -> blank r = true -> trimmed core = true ->
  trim (l ++ core ++ r) = core.
Proof.
  unfold blank, trimmed, trim, trimStart, trimEnd.
  intros Hl Hr Hcore. rewrite dropWhile_app_all by assumption.
  apply andb_true_iff in Hcore as [Hhead Hlast].
  destruct core as [|c core].
  - cbn [app]. apply dropWhile_nil in Hr. rewrite Hr. reflexivity.
  - cbn [app dropWhile]. apply negb_true_iff in Hhead. rewrite Hhead.
    change (c :: core ++ r) with ((c :: core) ++ r).
    rewrite rev_app_distr, dropWhile_app_all by now rewrite forallb_rev.
    destruct (rev (c :: core)) as [|d w] eqn:E.
    + apply (f_equal (@rev Z)) in E. now rewrite rev_involutive in E.
    + cbn [dropWhile]. apply negb_true_iff in Hlast. rewrite Hlast.
      rewrite <- E. apply rev_involutive.
Qed.

(** ... and removes nothing else. *)
Lemma trim_spec (s : jsstring) :
  exists l r, s = l ++ trim s ++ r
              /\ blank l = true /\ blank r = true /\ trimmed (trim s) = true.
Proof.
  unfold trim, trimStart, trimEnd, blank.
  destruct (takeWhile_dropWhile is_space s) as [Hs Hl].
  set (u := dropWhile is_space s) in *.
  destruct (takeWhile_dropWhile is_space (rev u)) as [Hu Hr].
  set (v := dropWhile is_space (rev u)) in *.
  assert (Eu : u = rev v ++ rev (takeWhile is_space (rev u))).
  { rewrite <- rev_app_distr, <- Hu. now rewrite rev_involutive. }
  exists (takeWhile is_space s), (rev (takeWhile is_space (rev u))).
  split; [now rewrite <- Eu|]. split; [assumption|].
  split; [now rewrite forallb_rev|].
  unfold trimmed. rewrite rev_involutive. apply andb_true_iff. split.
  - destruct (rev v) as [|c t] eqn:E; [reflexivity|].
    rewrite Eu in *. subst u. cbn in Eu.
    apply negb_true_iff. eapply dropWhile_head. exact Eu.
  - destruct v as [|c t] eqn:E; [reflexivity|].
    apply negb_true_iff. subst v. eapply dropWhile_head. exact E.
Qed.

Lemma trim_idempotent (s : jsstring) : trim (trim s) = trim s.
Proof.
  destruct (trim_spec s) as (l & r & _ & _ & _ & Ht).
  rewrite <- (app_nil_r (trim s)) at 1.
  now apply (trim_pad [] (trim s) []).
Qed.

(** The label of a match is the trimmed run before its colon. *)
Lemma label_of_match (run : jsstring) : label_of (run ++ [colon]) = trim run.
Proof. unfold label_of, slice_0_m1. now rewrite removelast_last. Qed.

(* ================================================================= *)
(** ** Two-speaker resolution: the outcomes *)

(** The label pattern read line by line, in the words of the
    specification: the lines of the script, and a line that starts with
    a label of letters, digits and spaces followed immediately by a
    colon. *)
Fixpoint lines_loop (line : jsstring) (s : jsstring) : list jsstring :=
  match s with
  | [] => [rev line]
  | c :: s' =>
      if is_LineTerminator c then rev line :: lines_loop [] s'
      else lines_loop (c :: line) s'
  end.

Definition lines_of (script : jsstring) : list jsstring := lines_loop [] script.

Definition line_starts_with_label (line : jsstring) : Prop :=
  exists label rest,
    line = label ++ colon :: rest
    /\ label <> []
    /\ forallb (fun c => is_letter c || is_digit c || is_WhiteSpace c) label
       = true.

Lemma lines_loop_In (s : jsstring) :
  forall (acc line : jsstring),
    In line (lines_loop acc s) ->
    (exists after, s = skipn (length acc) line ++ after
                   /\ firstn (length acc) line = rev acc)
    \/ (exists before after,
          s = before ++ line ++ after
          /\ exists p c, before = p ++ [c] /\ is_LineTerminator c = true).
Proof.
  induction s as [|c s IH]; intros acc line; cbn [lines_loop].
  - intros [<-|[]]. left. exists [].
    rewrite <- length_rev, skipn_all, firstn_all. now split.
  - destruct (is_LineTerminator c) eqn:Hc.
    + intros [<-|H].
      * left. exists (c :: s).
        rewrite <- length_rev, skipn_all, firstn_all. now split.
      * right. destruct (IH [] line H) as [(after & -> & _)
                                          |(before & after & -> & p & d & -> & Hd)].
        -- exists [c], after. cbn. split; [reflexivity|]. now exists [], c.
        -- exists (c :: p ++ [d]), after. split; [reflexivity|].
           now exists (c :: p), d.
    + intros H.
      destruct (IH (c :: acc) line H) as [(after & -> & Hf)
                                         |(before & after & -> & p & d & -> & Hd)].
      * left. exists after. cbn [length rev] in Hf.
        assert (Hlen : (length acc < length line)%nat).
        { apply (f_equal (@length Z)) in Hf.
          rewrite length_firstn, length_app, length_rev in Hf.
          cbn [length] in Hf. lia. }
        assert (E : firstn (S (length acc)) line
                    = firstn (length acc) line
                      ++ firstn 1 (skipn (length acc) line)).
        { rewrite <- (firstn_skipn (length acc) line) at 1.
          rewrite firstn_app, firstn_firstn.
          rewrite length_firstn.
          replace (Init.Nat.min (S (length acc)) (length acc)) with (length acc)
            by lia.
          replace (S (length acc) - Init.Nat.min (length acc) (length line))%nat
            with 1%nat by lia.
          reflexivity. }
        rewrite E in Hf.
        destruct (skipn (length acc) line) as [|x t] eqn:Hsk.
        -- apply (f_equal (@length Z)) in Hsk.
           rewrite length_skipn in Hsk. cbn in Hsk. lia.
        -- cbn in Hf. apply app_inj_tail in Hf as [Hf ->].
           split; [|assumption].
           cbn [length]. 
           replace (skipn (S (length acc)) line) with t; [reflexivity|].
           change (S (length acc)) with (1 + length acc)%nat.
           rewrite <- skipn_skipn, Hsk. reflexivity.
      * right. exists (c :: p ++ [d]), after. split; [reflexivity|].
        now exists (c :: p), d.
Qed.

(** A line that starts with a label makes the pattern occur ... *)
Lemma label_line_has_label (script line : jsstring) :
  In line (lines_of script) -> line_starts_with_label line ->
  has_label script.
Proof.
  intros Hin (label & rest & -> & Hne & Hlabel).
  assert (Hclass : forallb is_label_char label = true).
  { rewrite forallb_forall in *. intros c Hc. specialize (Hlabel c Hc).
    unfold is_label_char, is_space.
    apply orb_true_iff in Hlabel as [Hlabel|Hw];
      [apply orb_true_iff in Hlabel as [Hl|Hd]|].
    - now rewrite Hl.
    - rewrite Hd. now rewrite orb_true_r.
    - rewrite Hw. now rewrite orb_true_r. }
  apply lines_loop_In in Hin as [(after & -> & _)
                                |(before & after & -> & Hb)].
  - exists [], label, (rest ++ after). cbn [skipn length app].
    rewrite <- !app_assoc. cbn. repeat split; try assumption. now left.
  - exists before, label, (rest ++ after).
    rewrite <- !app_assoc. cbn. repeat split; try assumption. now right.
Qed.

Section Resolution.

Context {platform : Platform}.
Variables MALE FEMALE : list jsstring.

Lemma speakerVoiceConfigs_with_unfold (script hint : jsstring) :
  speakerVoiceConfigs_with MALE FEMALE script hint
  = match String_match_speakerRegex script with
    | None => Err MissingSpeakerLabels
    | Some _ =>
        if negb (length (distinct_labels script) =? 2)%nat
        then Err (SpeakerCountMismatch (length (distinct_labels script)))
        else if (0 <? length (parseGenders hint))%nat
                && negb (length (parseGenders hint) =? 2)%nat
             then Err (GenderCountMismatch (length (parseGenders hint)))
             else Ok (assignVoices MALE FEMALE (parseGenders hint) 0 0 0
                        (distinct_labels script))
    end.
Proof.
  unfold speakerVoiceConfigs_with, distinct_labels, labels.
  now destruct (String_match_speakerRegex script).
Qed.

(** The outcome of the resolution, case by case. *)
Lemma speakerVoiceConfigs_with_cases (script hint : jsstring) :
  (~ has_label script
   /\ speakerVoiceConfigs_with MALE FEMALE script hint
      = Err MissingSpeakerLabels)
  \/ (has_label script
      /\ length (distinct_labels script) <> 2%nat
      /\ speakerVoiceConfigs_with MALE FEMALE script hint
         = Err (SpeakerCountMismatch (length (distinct_labels script))))
  \/ (has_label script
      /\ length (distinct_labels script) = 2%nat
      /\ length (parseGenders hint) <> 0%nat
      /\ length (parseGenders hint) <> 2%nat
      /\ speakerVoiceConfigs_with MALE FEMALE script hint
         = Err (GenderCountMismatch (length (parseGenders hint))))
  \/ (has_label script
      /\ length (distinct_labels script) = 2%nat
      /\ (length (parseGenders hint) = 0%nat
          \/ length (parseGenders hint) = 2%nat)
      /\ speakerVoiceConfigs_with MALE FEMALE script hint
         = Ok (assignVoices MALE FEMALE (parseGenders hint) 0 0 0
                 (distinct_labels script))).
Proof.
  rewrite speakerVoiceConfigs_with_unfold.
  destruct (String_match_speakerRegex script) as [ms|] eqn:EM.
  - apply String_match_some in EM as (_ & _ & Hlabel). right.
    destruct (Nat.eqb_spec (length (distinct_labels script)) 2) as [E2|N2];
      cbn [negb]; [|now left].
    right.
    destruct (Nat.ltb_spec 0 (length (parseGenders hint))) as [Hpos|Hzero];
      cbn [andb].
    + destruct (Nat.eqb_spec (length (parseGenders hint)) 2) as [G2|GN];
        cbn [negb].
      * right. repeat split; auto.
      * left. repeat split; auto. lia.
    + right. repeat split; auto. left. lia.
  - left. split; [now apply String_match_none | reflexivity].
Qed.

End Resolution.

(* ================================================================= *)
(** ** Single-voice resolution (C5) *)

(** C5, the code at the failing input.  The hint "woman" - a female
    word for [parseGenders], which reads it as one female speaker -
    selects the male voice in the single-voice branch, because the
    branch looks for "man" anywhere in the hint. *)
Theorem singleVoiceName_woman_selects_male {platform : Platform} :
  is_female_word (js "woman") = true
  /\ parseGenders (js "woman") = [female]
  /\ singleVoiceName (js "woman") = js "Puck".
Proof. repeat split; ascii_hint. Qed.

(** What the branch does in general: the voice is the male one exactly
    when the normalised hint contains "nam" or "man" somewhere; the
    hints listed by the specification resolve as it says. *)
Lemma singleVoiceName_cases {platform : Platform} (hint : jsstring) :
  (includes (normalized hint) (js "nam") = true
   \/ includes (normalized hint) (js "man") = true
   -> singleVoiceName hint = js "Puck")
  /\ (includes (normalized hint) (js "nam") = false
      -> includes (normalized hint) (js "man") = false
      -> singleVoiceName hint = js "Kore").
Proof.
  unfold singleVoiceName. split.
  - intros [H|H]; rewrite H; [reflexivity | now rewrite orb_true_r].
  - now intros -> ->.
Qed.

Example singleVoiceName_examples {platform : Platform} :
  singleVoiceName [] = js "Kore"
  /\ singleVoiceName (js "1 nam") = js "Puck"
  /\ singleVoiceName (js "man") = js "Puck"
  /\ singleVoiceName (js "nu") = js "Kore"
  /\ singleVoiceName (js "women") = js "Kore".
Proof. repeat split; ascii_hint. Qed.

(* ================================================================= *)
(** ** Voice assignment (C7) *)



Section Assignment.

Variables MALE FEMALE : list jsstring.

Definition pool (g : gender) : list jsstring :=
  match g with male => MALE | female => FEMALE end.

Lemma assignVoices_speakers (gs : list gender) (speakers : list jsstring) :
  forall index mi fi,
    map speaker (assignVoices MALE FEMALE gs index mi fi speakers) = speakers.
Proof.
  induction speakers as [|s rest IH]; intros index mi fi;
    cbn [assignVoices]; [reflexivity|].
  destruct (if (0 <? length gs)%nat then nth_error gs index
            else Some (if (index =? 0)%nat then male else female))
    as [[|]|]; cbn [map speaker]; f_equal; apply IH.
Qed.


End Assignment.

Lemma pick_first (pool : list jsstring) : pick pool 0 = hd_error pool.
Proof.
  unfold pick. rewrite Nat.Div0.mod_0_l. now destruct pool.
Qed.


Lemma distinct_labels_two_has_label (script : jsstring) :
  length (distinct_labels script) = 2%nat -> has_label script.
Proof.
  intros H. destruct (has_label_dec script) as [|Hno]; [assumption|].
  apply labels_nil in Hno. unfold distinct_labels in H.
  rewrite Hno in H. discriminate.
Qed.

(** With exactly two distinct labels and the empty hint, the first
    label gets the first male voice and the second the first female
    voice. *)
Lemma default_assignment_distinct_labels {platform : Platform}
    (MALE FEMALE : list jsstring) (script : jsstring) :
  length (distinct_labels script) = 2%nat ->
  exists a b n rest,
    distinct_labels script = [a; b]
    /\ a <> b
    /\ labels script = repeat a (S n) ++ b :: rest
    /\ Forall (fun l => l = a \/ l = b) rest
    /\ speakerVoiceConfigs_with MALE FEMALE script []
       = Ok [ {| speaker := a; voiceName := hd_error MALE |};
              {| speaker := b; voiceName := hd_error FEMALE |} ]
    /\ speakerVoiceConfigs script []
       = Ok [ {| speaker := a; voiceName := Some (js "Puck") |};
              {| speaker := b; voiceName := Some (js "Kore") |} ].
Proof.
  intros H2.
  destruct (distinct_labels script) as [|a [|b [|c l]]] eqn:E;
    try discriminate.
  destruct (Set_values_two _ _ _ E) as (Hne & n & rest & Hlabels & Hrest).
  exists a, b, n, rest. repeat split; try assumption.
  - destruct (speakerVoiceConfigs_with_cases MALE FEMALE script [])
      as [(H & _)|[(_ & N & _)|[(_ & _ & G0 & _)|(_ & _ & _ & ->)]]].
    + elim H. apply distinct_labels_two_has_label. now rewrite E.
    + rewrite E in N. now elim N.
    + now elim G0.
    + rewrite E. cbn. now rewrite <- !pick_first.
  - unfold speakerVoiceConfigs.
    destruct (speakerVoiceConfigs_with_cases MALE_VOICES FEMALE_VOICES
                script [])
      as [(H & _)|[(_ & N & _)|[(_ & _ & G0 & _)|(_ & _ & _ & ->)]]].
    + elim H. apply distinct_labels_two_has_label. now rewrite E.
    + rewrite E in N. now elim N.
    + now elim G0.
    + rewrite E. reflexivity.
Qed.

Definition script_A_B_A : jsstring :=
  js "A: hi" ++ [LF] ++ js "B: hello" ++ [LF] ++ js "A: bye".



(** The pools of the source list no voice twice, and the hint "2 nu"
    rotates through the female pool in the same way. *)
Example pools_without_repetition :
  NoDup MALE_VOICES /\ NoDup FEMALE_VOICES.
Proof.
  split; repeat constructor; cbn; intuition discriminate.
Qed.

Example same_gender_female {platform : Platform} :
  speakerVoiceConfigs script_A_B_A (js "2 nu")
  = Ok [ {| speaker := js "A"; voiceName := Some (js "Kore") |};
         {| speaker := js "B"; voiceName := Some (js "Zephyr") |} ].
Proof.
  unfold speakerVoiceConfigs. rewrite speakerVoiceConfigs_with_unfold.
  replace (parseGenders (js "2 nu")) with [female; female]
    by (symmetry; ascii_hint).
  reflexivity.
Qed.

(* ================================================================= *)
(** ** Labels are trimmed before they are counted *)

(** The matches of a script, none when [match] returns [null]. *)
Definition matches_of (script : jsstring) : list jsstring :=
  match String_match_speakerRegex script with
  | None => []
  | Some matches => matches
  end.

Lemma labels_matches (script : jsstring) :
  labels script = map label_of (matches_of script).
Proof.
  unfold labels, matches_of. now destruct (String_match_speakerRegex script).
Qed.

Lemma matches_of_label_match (script : jsstring) :
  Forall label_match (matches_of script).
Proof.
  unfold matches_of.
  destruct (String_match_speakerRegex script) as [ms|] eqn:E; [|constructor].
  now apply String_match_some in E.
Qed.

Definition script_A_A_B : jsstring :=
  js "A: hi" ++ [LF] ++ js "A : bye" ++ [LF] ++ js " B: yo"
  ++ [LF] ++ js "A: again".

Example labels_trimmed_example {platform : Platform} :
  matches_of script_A_A_B = [js "A:"; js "A :"; js " B:"; js "A:"]
  /\ distinct_labels script_A_A_B = [js "A"; js "B"]
  /\ speakerVoiceConfigs script_A_A_B []
     = Ok [ {| speaker := js "A"; voiceName := Some (js "Puck") |};
            {| speaker := js "B"; voiceName := Some (js "Kore") |} ].
Proof. repeat split. Qed.

(** A run may span lines: a line without a colon, made of letters and
    spaces only, is taken into the label of the next line. *)
Example label_spanning_lines :
  distinct_labels
    (js "A: hi" ++ [LF] ++ js "how are you" ++ [LF] ++ js "B: fine")
  = [js "A"; js "how are you" ++ [LF] ++ js "B"].
Proof. reflexivity. Qed.

(* ================================================================= *)
(** ** The number of voices (C10) *)

Definition key_present (GEMINI_API_KEY : option jsstring) : bool :=
  match GEMINI_API_KEY with
  | Some (_ :: _) => true
  | _ => false
  end.

(** C10.  For every integer [numVoices <= 1], zero and the negatives
    included, [generateSpeech] takes the single-voice branch and raises
    no error about the number of voices; its error about an unsupported
    number of voices is raised exactly for the integers from 3 on (the
    API key being set, or the call stops before).  The bounds 1 and 2
    are enforced by the guard of the calling handler, which lets exactly
    these two numbers through. *)
Theorem generateSpeech_voice_count {platform : Platform}
    (GEMINI_API_KEY : option jsstring) (script voiceGenders : jsstring)
    (numVoices : Z) :
  (numVoices <= 1 ->
   (key_present GEMINI_API_KEY = true ->
    generateSpeech_config GEMINI_API_KEY script numVoices voiceGenders
    = Ok (voiceConfig (singleVoiceName voiceGenders)))
   /\ forall n,
        generateSpeech_config GEMINI_API_KEY script numVoices voiceGenders
        <> Err (UnsupportedVoiceCount n))
  /\ (forall n,
        generateSpeech_config GEMINI_API_KEY script numVoices voiceGenders
        = Err (UnsupportedVoiceCount n)
        <-> key_present GEMINI_API_KEY = true /\ n = numVoices
            /\ 3 <= numVoices)
  /\ (forall typed parsed,
        handleGenerateAudio_guard typed = Proceed parsed
        <-> parseInt typed = Some parsed /\ (parsed = 1 \/ parsed = 2)).
Proof.
  split; [|split].
  - intros Hle. unfold generateSpeech_config.
    apply Z.leb_le in Hle. split.
    + destruct GEMINI_API_KEY as [[|c k]|]; try discriminate.
      intros _. now rewrite Hle.
    + intros n. destruct GEMINI_API_KEY as [[|c k]|]; try discriminate.
      now rewrite Hle.
  - intros n. unfold generateSpeech_config.
    destruct GEMINI_API_KEY as [[|c k]|]; cbn [key_present];
      try (split; [discriminate | intros [? _]; discriminate]).
    destruct (Z.leb_spec numVoices 1) as [Hle|Hgt].
    + split; [discriminate | intros (_ & _ & H); lia].
    + destruct (Z.eqb_spec numVoices 2) as [->|Hne]; cbn [negb].
      * split; [|intros (_ & _ & H); lia].
        unfold speakerVoiceConfigs.
        destruct (speakerVoiceConfigs_with_cases MALE_VOICES FEMALE_VOICES
                    script voiceGenders)
          as [(_ & ->)|[(_ & _ & ->)|[(_ & _ & _ & _ & ->)|(_ & _ & _ & ->)]]];
          discriminate.
      * split.
        -- intros [= <-]. repeat split. lia.
        -- now intros (_ & -> & _).
  - intros typed parsed. unfold handleGenerateAudio_guard.
    destruct (parseInt typed) as [p|]; [|split; [discriminate|]].
    + destruct (Z.ltb_spec p 1); [split; [discriminate|]|].
      * intros ([= ->] & H'). lia.
      * destruct (Z.ltb_spec 2 p); [split; [discriminate|]|].
        -- intros ([= ->] & H'). lia.
        -- split.
           ++ intros [= <-]. split; [reflexivity | lia].
           ++ now intros ([= ->] & _).
    + intros [H _]. discriminate.
Qed.

Lemma generateSpeech_voice_count_witness :
  generateSpeech_config (platform := latin_platform) (Some (js "key"))
    (js "Hello there") (-3) (js "nam")
  = Ok (voiceConfig (js "Puck"))
  /\ generateSpeech_config (platform := latin_platform) (Some (js "key"))
       (js "Hello there") 5 []
     = Err (UnsupportedVoiceCount 5).
Proof.
  split.
  - apply (generateSpeech_voice_count (platform := latin_platform)
             (Some (js "key")) (js "Hello there") (js "nam") (-3));
      [lia | reflexivity].
  - apply (generateSpeech_voice_count (platform := latin_platform)
             (Some (js "key")) (js "Hello there") [] 5).
    repeat split. lia.
Defined.

Example handleGenerateAudio_guard_examples :
  handleGenerateAudio_guard (js "0") = NumVoicesBelowOne
  /\ handleGenerateAudio_guard (js "-2") = NumVoicesBelowOne
  /\ handleGenerateAudio_guard (js "") = NumVoicesBelowOne
  /\ handleGenerateAudio_guard (js "1") = Proceed 1
  /\ handleGenerateAudio_guard (js "2") = Proceed 2
  /\ handleGenerateAudio_guard (js "3") = NumVoicesAboveTwo.
Proof. repeat split. Qed.


(* ================================================================= *)
(** * The rest of the two files

    The base64 transport of [createWavFileDataUrl] ([decode], [encode]
    and the data URL), the request text of [generateSpeech], and
    properties of the code beyond the header and the resolver
    failures. *)

(* ================================================================= *)
(** ** [atob] and [btoa] *)

Module Base64.

(** The exception both functions throw. *)
Inductive DOMException : Type := InvalidCharacterError.

Definition pad : Z := 61.

(** The base64 alphabet: A-Z, a-z, 0-9, plus and slash. *)
Definition char_of_sextet (i : Z) : Z :=
  if i <? 26 then 65 + i
  else if i <? 52 then 97 + (i - 26)
  else if i <? 62 then 48 + (i - 52)
  else if i =? 62 then 43
  else 47.

Definition sextet_of_char (c : Z) : option Z :=
  if (65 <=? c) && (c <=? 90) then Some (c - 65)
  else if (97 <=? c) && (c <=? 122) then Some (c - 97 + 26)
  else if (48 <=? c) && (c <=? 57) then Some (c - 48 + 52)
  else if c =? 43 then Some 62
  else if c =? 47 then Some 63
  else None.

(** Three octets make four sextets; one or two trailing octets make two
    or three, the missing bits being zero. *)
Fixpoint sextets_of_octets (octets : list Z) : list Z :=
  match octets with
  | a :: b :: c :: rest =>
      a / 4 :: (a mod 4) * 16 + b / 16 :: (b mod 16) * 4 + c / 64 :: c mod 64
      :: sextets_of_octets rest
  | [a; b] => [a / 4; (a mod 4) * 16 + b / 16; (b mod 16) * 4]
  | [a] => [a / 4; (a mod 4) * 16]
  | [] => []
  end.

Definition padding (n : nat) : nat := ((3 - n mod 3) mod 3)%nat.

(** [btoa(data)]: a code unit above U+00FF is refused; otherwise the
    code units are taken as octets and encoded, with padding. *)
Definition btoa (data : jsstring) : result DOMException jsstring :=
  if forallb (fun c => c <=? 255) data
  then Ok (map char_of_sextet (sextets_of_octets data)
           ++ repeat pad (padding (length data)))
  else Err InvalidCharacterError.

(** [atob(data)], the forgiving decoder: ASCII white space is removed;
    when the length is then a multiple of 4, one or two trailing pads
    are removed; a length of 1 modulo 4 or a character outside the
    alphabet is refused; the sextets are regrouped into octets and the
    bits left over (four of 12, two of 18) are dropped. *)
Definition is_ascii_whitespace (c : Z) : bool :=
  (c =? 9) || (c =? 10) || (c =? 12) || (c =? 13) || (c =? 32).

Fixpoint drop_pads (data : jsstring) : jsstring :=
  match data with
  | [] => []
  | c :: rest =>
      if JSString.eqb data [pad] || JSString.eqb data [pad; pad] then []
      else c :: drop_pads rest
  end.

Fixpoint sextets_of_chars (data : jsstring) : option (list Z) :=
  match data with
  | [] => Some []
  | c :: rest =>
      match sextet_of_char c, sextets_of_chars rest with
      | Some s, Some ss => Some (s :: ss)
      | _, _ => None
      end
  end.

Fixpoint octets_of_sextets (sextets : list Z) : list Z :=
  match sextets with
  | s0 :: s1 :: s2 :: s3 :: rest =>
      s0 * 4 + s1 / 16 :: (s1 mod 16) * 16 + s2 / 4 :: (s2 mod 4) * 64 + s3
      :: octets_of_sextets rest
  | [s0; s1; s2] => [s0 * 4 + s1 / 16; (s1 mod 16) * 16 + s2 / 4]
  | [s0; s1] => [s0 * 4 + s1 / 16]
  | _ => []
  end.

Definition atob (data : jsstring) : result DOMException jsstring :=
  let data := filter (fun c => negb (is_ascii_whitespace c)) data in
  let data :=
    if (length data mod 4 =? 0)%nat then drop_pads data else data in
  if (length data mod 4 =? 1)%nat then Err InvalidCharacterError
  else
    match sextets_of_chars data with
    | None => Err InvalidCharacterError
    | Some sextets => Ok (octets_of_sextets sextets)
    end.

End Base64.

Import Base64.

(* ================================================================= *)
(** ** [utils/audioUtils.ts]: [decode], [encode] and the data URL *)

(** What [createWavFileDataUrl] can throw. *)
Inductive thrown : Type :=
| DOM (e : DOMException)
| Range (e : exn).

(** [bytes[i] = v] on a [Uint8Array]: the value is stored modulo 256;
    an index past the end is ignored. *)
Definition store_cell (bytes : list byte) (i : nat) (v : Z) : list byte :=
  if (i <? length bytes)%nat
  then firstn i bytes ++ u8 v :: skipn (S i) bytes
  else bytes.

(** The loop of [decode]: [bytes[i] = binaryString.charCodeAt(i)]. *)
Fixpoint decode_loop (i : nat) (binaryString : jsstring) (bytes : list byte)
  : list byte :=
  match binaryString with
  | [] => bytes
  | c :: rest => decode_loop (S i) rest (store_cell bytes i c)
  end.

Definition decode {engine : Engine} (base64 : jsstring)
  : result thrown (list byte) :=
  match atob base64 with
  | Err e => Err (DOM e)
  | Ok binaryString =>
      match alloc (Z.of_nat (length binaryString)) with
      | Err e => Err (Range e)
      | Ok bytes => Ok (decode_loop 0 binaryString bytes)
      end
  end.

(** The loop of [encode]: [binary += String.fromCharCode(bytes[i])]. *)
Definition encode_loop (bytes : list byte) : jsstring :=
  fold_left (fun binary b => binary ++ [byte_val b]) bytes [].

(** [encode]: the binary string grows by one code unit per byte, so
    the loop ends exactly when the whole string is within the engine's
    limit; the text [btoa] returns is a new string as well. *)
Definition encode {engine : Engine} (bytes : list byte)
  : result thrown jsstring :=
  match new_string (encode_loop bytes) with
  | Err e => Err (Range e)
  | Ok binary =>
      match btoa binary with
      | Err e => Err (DOM e)
      | Ok base64 =>
          match new_string base64 with
          | Err e => Err (Range e)
          | Ok base64 => Ok base64
          end
      end
  end.

Definition dataUrlPrefix : jsstring := js "data:audio/wav;base64,".

Definition createWavFileDataUrl {engine : Engine} (base64Pcm : jsstring)
    (trailingSilenceSeconds : Number.double) : result thrown jsstring :=
  match decode base64Pcm with
  | Err e => Err e
  | Ok pcmData =>
      match wavFileBytes pcmData trailingSilenceSeconds with
      | Err e => Err (Range e)
      | Ok wavFileBytes =>
          match encode wavFileBytes with
          | Err e => Err e
          | Ok base64Wav =>
              match new_string (dataUrlPrefix ++ base64Wav) with
              | Err e => Err (Range e)
              | Ok url => Ok url
              end
          end
      end
  end.

(* ================================================================= *)
(** ** Base64: supporting lemmas *)

(** Induction three elements at a time. *)
Lemma list_ind3 {A} (P : list A -> Prop) :
  P [] -> (forall a, P [a]) -> (forall a b, P [a; b]) ->
  (forall a b c l, P l -> P (a :: b :: c :: l)) ->
  forall l, P l.
Proof.
  intros H0 H1 H2 H3 l.
  assert (H : P l /\ (forall a, P (a :: l)) /\ (forall a b, P (a :: b :: l))).
  { induction l as [|x l (IH0 & IH1 & IH2)]; [now repeat split|].
    repeat split; auto. }
  apply H.
Qed.

Definition is_octet (z : Z) : Prop := 0 <= z < 256.
Definition is_sextet (z : Z) : Prop := 0 <= z < 64.

Lemma sextets_of_octets_range (octets : list Z) :
  Forall is_octet octets -> Forall is_sextet (sextets_of_octets octets).
Proof.
  unfold is_octet, is_sextet.
  induction octets as [|a|a b|a b c l IH] using list_ind3; intros H;
    cbn [sextets_of_octets].
  - constructor.
  - inversion_clear H. repeat constructor; Z.div_mod_to_equations; lia.
  - inversion_clear H as [|? ? Ha H']. inversion_clear H' as [|? ? Hb _].
    repeat constructor; Z.div_mod_to_equations; lia.
  - inversion_clear H as [|? ? Ha H']. inversion_clear H' as [|? ? Hb H''].
    inversion_clear H'' as [|? ? Hc Hl].
    repeat (constructor; [Z.div_mod_to_equations; lia|]). now apply IH.
Qed.

(** Decoding the sextets gives the octets back. *)
Lemma octets_of_sextets_of_octets (octets : list Z) :
  Forall is_octet octets ->
  octets_of_sextets (sextets_of_octets octets) = octets.
Proof.
  unfold is_octet.
  induction octets as [|a|a b|a b c l IH] using list_ind3; intros H;
    cbn [sextets_of_octets octets_of_sextets].
  - reflexivity.
  - inversion_clear H. f_equal. Z.div_mod_to_equations. lia.
  - inversion_clear H as [|? ? Ha H']. inversion_clear H' as [|? ? Hb _].
    f_equal; [|f_equal]; Z.div_mod_to_equations; lia.
  - inversion_clear H as [|? ? Ha H']. inversion_clear H' as [|? ? Hb H''].
    inversion_clear H'' as [|? ? Hc Hl].
    rewrite (IH Hl).
    f_equal; [|f_equal; [|f_equal]]; Z.div_mod_to_equations; lia.
Qed.

Lemma sextet_of_char_of_sextet (i : Z) :
  is_sextet i -> sextet_of_char (char_of_sextet i) = Some i.
Proof.
  unfold is_sextet, char_of_sextet, sextet_of_char. intros H.
  repeat match goal with
         | |- context [?a <? ?b] => destruct (Z.ltb_spec a b)
         | |- context [?a <=? ?b] => destruct (Z.leb_spec a b)
         | |- context [?a =? ?b] => destruct (Z.eqb_spec a b)
         end; cbn [andb]; try lia; f_equal; lia.
Qed.

Lemma char_of_sextet_plain (i : Z) :
  is_sextet i ->
  char_of_sextet i <> pad
  /\ is_ascii_whitespace (char_of_sextet i) = false
  /\ 43 <= char_of_sextet i <= 122.
Proof.
  unfold is_sextet, char_of_sextet, is_ascii_whitespace, pad. intros H.
  repeat match goal with
         | |- context [?a <? ?b] => destruct (Z.ltb_spec a b)
         | |- context [if ?a =? ?b then _ else _] =>
             destruct (Z.eqb_spec a b)
         end;
    (split; [lia|]); (split; [|lia]);
    repeat (apply orb_false_iff; split); apply Z.eqb_neq; lia.
Qed.

Lemma sextets_of_chars_of_sextets (ss : list Z) :
  Forall is_sextet ss -> sextets_of_chars (map char_of_sextet ss) = Some ss.
Proof.
  induction 1 as [|x l Hx _ IH]; cbn; [reflexivity|].
  now rewrite sextet_of_char_of_sextet, IH.
Qed.

Lemma drop_pads_padded (xs : jsstring) (k : nat) :
  Forall (fun c => c <> pad) xs -> (k <= 2)%nat ->
  drop_pads (xs ++ repeat pad k) = xs.
Proof.
  intros Hxs Hk. induction Hxs as [|x xs Hx _ IH].
  - destruct k as [|[|[|k]]]; try reflexivity. lia.
  - cbn [app drop_pads JSString.eqb].
    apply Z.eqb_neq in Hx. rewrite Hx. cbn [andb orb]. now rewrite IH.
Qed.

Lemma length_sextets_of_octets (octets : list Z) :
  (length (sextets_of_octets octets) + padding (length octets)
   = 4 * ((length octets + 2) / 3))%nat
  /\ (length (sextets_of_octets octets) mod 4 <> 1)%nat
  /\ (padding (length octets) <= 2)%nat.
Proof.
  unfold padding.
  induction octets as [|a|a b|a b c l (IH1 & IH2 & IH3)] using list_ind3;
    cbn [sextets_of_octets length].
  - repeat split; cbn; lia.
  - repeat split; cbn; lia.
  - repeat split; cbn; lia.
  - replace (S (S (S (length l)))) with (length l + 1 * 3)%nat by lia.
    rewrite Nat.Div0.mod_add.
    replace (length l + 1 * 3 + 2)%nat with (length l + 2 + 1 * 3)%nat by lia.
    rewrite Nat.div_add by lia.
    replace (S (S (S (S (length (sextets_of_octets l))))))
      with (length (sextets_of_octets l) + 1 * 4)%nat by lia.
    rewrite Nat.Div0.mod_add. repeat split; try assumption. lia.
Qed.

(** [atob] undoes [btoa]. *)
Lemma atob_btoa (data : jsstring) :
  Forall is_octet data ->
  exists base64, btoa data = Ok base64 /\ atob base64 = Ok data.
Proof.
  intros Hd. unfold btoa.
  assert (Hle : forallb (fun c => c <=? 255) data = true).
  { apply forallb_forall. intros c Hc. rewrite Forall_forall in Hd.
    apply Z.leb_le. specialize (Hd c Hc). unfold is_octet in Hd. lia. }
  rewrite Hle. eexists. split; [reflexivity|].
  pose proof (sextets_of_octets_range data Hd) as Hs.
  destruct (length_sextets_of_octets data) as (Hlen & Hmod & Hpad).
  assert (Hplain : Forall (fun c => c <> pad
                                    /\ is_ascii_whitespace c = false)
                     (map char_of_sextet (sextets_of_octets data))).
  { apply Forall_map. eapply Forall_impl; [|exact Hs].
    intros i Hi. destruct (char_of_sextet_plain i Hi) as (H1 & H2 & _).
    now split. }
  unfold atob.
  assert (Hfilter :
    filter (fun c => negb (is_ascii_whitespace c))
      (map char_of_sextet (sextets_of_octets data)
       ++ repeat pad (padding (length data)))
    = map char_of_sextet (sextets_of_octets data)
      ++ repeat pad (padding (length data))).
  { apply forallb_filter_id, forallb_forall. intros c Hc.
    apply in_app_or in Hc as [Hc|Hc].
    - rewrite Forall_forall in Hplain. destruct (Hplain c Hc) as [_ ->].
      reflexivity.
    - apply repeat_spec in Hc. now subst. }
  rewrite Hfilter.
  rewrite length_app, length_map, repeat_length, Hlen.
  rewrite Nat.mul_comm, Nat.Div0.mod_mul. cbn [Nat.eqb].
  rewrite drop_pads_padded;
    [|eapply Forall_impl; [|exact Hplain]; now intros c [H _] | assumption].
  rewrite length_map.
  destruct (Nat.eqb_spec (length (sextets_of_octets data) mod 4) 1);
    [contradiction|].
  rewrite sextets_of_chars_of_sextets by assumption.
  now rewrite octets_of_sextets_of_octets.
Qed.

(** *** The two loops *)

Lemma u8_byte_val (b : byte) : u8 (byte_val b) = b.
Proof.
  unfold u8, byte_val. pose proof (Byte.to_N_bounded b) as H.
  rewrite Z.mod_small by lia. rewrite N2Z.id. now rewrite Byte.of_to_N.
Qed.

Lemma encode_loop_map (bytes : list byte) :
  encode_loop bytes = map byte_val bytes.
Proof.
  unfold encode_loop.
  assert (H : forall acc, fold_left (fun binary b => binary ++ [byte_val b])
                            bytes acc = acc ++ map byte_val bytes).
  { induction bytes as [|b l IH]; intros acc; cbn.
    - now rewrite app_nil_r.
    - rewrite IH. now rewrite <- app_assoc. }
  apply H.
Qed.

Lemma encode_loop_octets (bytes : list byte) :
  Forall is_octet (encode_loop bytes).
Proof.
  rewrite encode_loop_map. apply Forall_map, Forall_forall.
  intros b _. apply byte_val_range.
Qed.

Lemma decode_loop_fills (binaryString : jsstring) :
  forall (done : list byte),
    decode_loop (length done) binaryString
      (done ++ repeat x00 (length binaryString))
    = done ++ map u8 binaryString.
Proof.
  induction binaryString as [|c rest IH]; intros done; [reflexivity|].
  cbn [decode_loop length repeat map]. unfold store_cell.
  replace (length done <? length (done ++ x00 :: repeat x00 (length rest)))%nat
    with true by (symmetry; apply Nat.ltb_lt; rewrite length_app; cbn; lia).
  rewrite firstn_length_app.
  replace (S (length done)) with (length (done ++ [x00]))
    by (rewrite length_app; cbn; lia).
  replace (done ++ x00 :: repeat x00 (length rest))
    with ((done ++ [x00]) ++ repeat x00 (length rest))
    by now rewrite <- app_assoc.
  rewrite skipn_length_app.
  replace (length (done ++ [x00])) with (length (done ++ [u8 c]))
    by (rewrite !length_app; reflexivity).
  replace (done ++ u8 c :: repeat x00 (length rest))
    with ((done ++ [u8 c]) ++ repeat x00 (length rest))
    by now rewrite <- app_assoc.
  rewrite IH. now rewrite <- app_assoc.
Qed.

Lemma decode_of_atob {engine : Engine} (base64 binaryString : jsstring) :
  atob base64 = Ok binaryString ->
  Z.of_nat (length binaryString) <= max_buffer_length ->
  decode base64 = Ok (map u8 binaryString).
Proof.
  intros Ha Hfit. unfold decode. rewrite Ha.
  rewrite alloc_ok by lia. rewrite Nat2Z.id.
  f_equal. exact (decode_loop_fills binaryString []).
Qed.

Lemma map_u8_byte_val (bytes : list byte) :
  map u8 (map byte_val bytes) = bytes.
Proof.
  rewrite map_map. rewrite <- (map_id bytes) at 2.
  apply map_ext. apply u8_byte_val.
Qed.

(* ================================================================= *)
(** ** The base64 transport *)

(** The length of the base64 text of [n] bytes: four characters for
    every three bytes, rounded up. *)
Definition base64_length (n : Z) : Z := 4 * ((n + 2) / 3).

Lemma base64_length_nat (n : nat) :
  Z.of_nat (4 * ((n + 2) / 3)) = base64_length (Z.of_nat n).
Proof.
  unfold base64_length.
  now rewrite Nat2Z.inj_mul, Nat2Z.inj_div, Nat2Z.inj_add.
Qed.

Lemma base64_length_grows (n : Z) : 0 <= n -> n <= base64_length n.
Proof. unfold base64_length. intros H. Z.div_mod_to_equations. lia. Qed.

Lemma new_string_ok {engine : Engine} (s : jsstring) :
  Z.of_nat (length s) <= max_string_length -> new_string s = Ok s.
Proof.
  intros H. unfold new_string. apply Z.leb_le in H. now rewrite H.
Qed.

Lemma new_string_err {engine : Engine} (s : jsstring) :
  max_string_length < Z.of_nat (length s) -> new_string s = Err RangeError.
Proof.
  intros H. unfold new_string. apply Z.leb_gt in H. now rewrite H.
Qed.

Lemma length_btoa (data base64 : jsstring) :
  btoa data = Ok base64 ->
  Z.of_nat (length base64) = base64_length (Z.of_nat (length data)).
Proof.
  unfold btoa. destruct (forallb _ data); [|discriminate].
  intros [= <-].
  destruct (length_sextets_of_octets data) as (Hlen & _).
  rewrite length_app, length_map, repeat_length, Hlen.
  apply base64_length_nat.
Qed.

(** What [encode] does with bytes whose text the engine can hold, and
    with the others. *)
Lemma encode_ok {engine : Engine} (bytes : list byte) :
  base64_length (Z.of_nat (length bytes)) <= max_string_length ->
  exists base64,
    encode bytes = Ok base64
    /\ atob base64 = Ok (encode_loop bytes)
    /\ Z.of_nat (length base64) = base64_length (Z.of_nat (length bytes)).
Proof.
  intros Hfit. unfold encode.
  pose proof (base64_length_grows (Z.of_nat (length bytes)) ltac:(lia)) as Hg.
  rewrite new_string_ok by (rewrite encode_loop_map, length_map; lia).
  destruct (atob_btoa (encode_loop bytes) (encode_loop_octets bytes))
    as (base64 & Hb & Ha).
  rewrite Hb. pose proof (length_btoa _ _ Hb) as Hlen.
  rewrite encode_loop_map, length_map in Hlen.
  rewrite new_string_ok by lia.
  now exists base64.
Qed.

Lemma encode_err {engine : Engine} (bytes : list byte) :
  max_string_length < base64_length (Z.of_nat (length bytes)) ->
  encode bytes = Err (Range RangeError).
Proof.
  intros Hbig. unfold encode.
  destruct (new_string (encode_loop bytes)) as [binary|[]] eqn:E;
    [|reflexivity].
  unfold new_string in E.
  destruct (Z.of_nat (length (encode_loop bytes)) <=? max_string_length);
    [|discriminate].
  injection E as <-.
  destruct (atob_btoa (encode_loop bytes) (encode_loop_octets bytes))
    as (base64 & Hb & _).
  rewrite Hb. pose proof (length_btoa _ _ Hb) as Hlen.
  rewrite encode_loop_map, length_map in Hlen.
  now rewrite new_string_err by lia.
Qed.

Definition is_base64_char (c : Z) : bool :=
  match sextet_of_char c with Some _ => true | None => false end.

Lemma encode_not_refused {engine : Engine} (bytes : list byte) :
  encode bytes <> Err (DOM InvalidCharacterError).
Proof.
  destruct (Z.le_gt_cases (base64_length (Z.of_nat (length bytes)))
              max_string_length) as [Hfit|Hbig].
  - destruct (encode_ok bytes Hfit) as (base64 & -> & _). discriminate.
  - rewrite (encode_err bytes Hbig). discriminate.
Qed.

(** X1.  [encode] never fails on account of the bytes: every code unit
    it hands to [btoa] is a byte value, so [btoa] never refuses.  Its
    one failure is the [RangeError] of a string beyond the engine's
    limit, raised exactly when the base64 text - four characters for
    every three bytes, rounded up - is longer than the engine's
    strings. *)
Theorem encode_fails_only_on_length {engine : Engine} (bytes : list byte) :
  encode bytes <> Err (DOM InvalidCharacterError)
  /\ ((exists base64, encode bytes = Ok base64)
      <-> base64_length (Z.of_nat (length bytes)) <= max_string_length)
  /\ (encode bytes = Err (Range RangeError)
      <-> max_string_length < base64_length (Z.of_nat (length bytes))).
Proof.
  destruct (Z.le_gt_cases (base64_length (Z.of_nat (length bytes)))
              max_string_length) as [Hfit|Hbig].
  - destruct (encode_ok bytes Hfit) as (base64 & -> & _).
    split; [discriminate|]. split; split; try discriminate.
    + now intros _.
    + intros _. now exists base64.
    + lia.
  - rewrite (encode_err bytes Hbig).
    split; [discriminate|]. split; split; try reflexivity.
    + intros [? H]. discriminate.
    + lia.
    + now intros _.
Qed.

(** X2.  [decode] undoes [encode]: the bytes put into a data URL are
    the bytes read back from it, for every array whose text and whose
    buffer the engine grants. *)
Theorem decode_encode_round_trip {engine : Engine} (bytes : list byte) :
  Z.of_nat (length bytes) <= max_buffer_length ->
  base64_length (Z.of_nat (length bytes)) <= max_string_length ->
  exists base64, encode bytes = Ok base64 /\ decode base64 = Ok bytes.
Proof.
  intros Hbuf Hstr.
  destruct (encode_ok bytes Hstr) as (base64 & Hb & Ha & _).
  exists base64. split; [exact Hb|].
  rewrite (decode_of_atob base64 (encode_loop bytes) Ha).
  - now rewrite encode_loop_map, map_u8_byte_val.
  - now rewrite encode_loop_map, length_map.
Qed.

Lemma decode_encode_round_trip_witness :
  exists base64,
    encode (engine := language_engine) [x01; x02; x03; x04] = Ok base64
    /\ decode (engine := language_engine) base64 = Ok [x01; x02; x03; x04].
Proof.
  apply (decode_encode_round_trip (engine := language_engine)
           [x01; x02; x03; x04]);
    vm_compute; discriminate.
Defined.

Lemma length_decode {engine : Engine} (base64 : jsstring)
    (bytes : list byte) :
  decode base64 = Ok bytes -> Z.of_nat (length bytes) <= max_buffer_length.
Proof.
  unfold decode. destruct (atob base64) as [binaryString|]; [|discriminate].
  unfold alloc.
  destruct ((0 <=? Z.of_nat (length binaryString))
            && (Z.of_nat (length binaryString) <=? max_buffer_length)) eqn:E;
    [|discriminate].
  intros [= <-]. apply andb_true_iff in E as [_ E]. apply Z.leb_le in E.
  rewrite Nat2Z.id.
  pose proof (decode_loop_fills binaryString []) as H. cbn [app length] in H.
  rewrite H. now rewrite length_map.
Qed.

(** The length of the data URL of a file of [n] bytes: the 22
    characters of the prefix and the base64 text. *)
Definition url_length (n : Z) : Z := 22 + base64_length n.

Lemma length_data_url (base64Wav : jsstring) :
  Z.of_nat (length (dataUrlPrefix ++ base64Wav))
  = 22 + Z.of_nat (length base64Wav).
Proof. rewrite length_app, Nat2Z.inj_add. reflexivity. Qed.

(** The URL of a file the engine can hold as a text. *)
Lemma data_url_ok {engine : Engine} (wav : list byte) :
  url_length (Z.of_nat (length wav)) <= max_string_length ->
  exists base64Wav,
    encode wav = Ok base64Wav
    /\ new_string (dataUrlPrefix ++ base64Wav)
       = Ok (dataUrlPrefix ++ base64Wav)
    /\ atob base64Wav = Ok (encode_loop wav).
Proof.
  unfold url_length. intros Hfit.
  assert (Hb64 : base64_length (Z.of_nat (length wav)) <= max_string_length)
    by lia.
  destruct (encode_ok wav Hb64) as (base64Wav & Hb & Ha & Hlen).
  exists base64Wav. split; [exact Hb|]. split; [|exact Ha].
  apply new_string_ok. rewrite length_data_url. lia.
Qed.

Lemma data_url_err {engine : Engine} (wav : list byte) :
  max_string_length < url_length (Z.of_nat (length wav)) ->
  match encode wav with
  | Err e => Err e
  | Ok base64Wav =>
      match new_string (dataUrlPrefix ++ base64Wav) with
      | Err e => Err (Range e)
      | Ok url => Ok url
      end
  end = Err (Range RangeError).
Proof.
  unfold url_length. intros Hbig.
  destruct (Z.le_gt_cases (base64_length (Z.of_nat (length wav)))
              max_string_length) as [Hfit|Hno].
  - destruct (encode_ok wav Hfit) as (base64Wav & -> & _ & Hlen).
    rewrite new_string_err; [reflexivity|].
    rewrite length_data_url. lia.
  - now rewrite encode_err.
Qed.

(** The URL of an input that decodes, when the engine grants what the
    file needs. *)
Lemma createWavFileDataUrl_ok {engine : Engine}
    (base64Pcm : jsstring) (pcmData : list byte) (d : Number.double) (n : Z) :
  decode base64Pcm = Ok pcmData ->
  silence_bytes d n ->
  Z.of_nat (length pcmData) + n + 44 <= max_buffer_length ->
  url_length (Z.of_nat (length pcmData) + n + 44) <= max_string_length ->
  exists base64Wav wav,
    createWavFileDataUrl base64Pcm d = Ok (dataUrlPrefix ++ base64Wav)
    /\ decode base64Wav = Ok wav
    /\ wavFileBytes pcmData d = Ok wav
    /\ length wav = (44 + length pcmData + Z.to_nat n)%nat
    /\ skipn 44 wav = pcmData ++ repeat x00 (Z.to_nat n).
Proof.
  intros Hdec Hs Hfit Hurl. unfold createWavFileDataUrl. rewrite Hdec.
  pose proof max_buffer_length_bound as Hbound.
  destruct (silence_bytes_requested d n Hs) as (Hn0 & Hreq & _).
  destruct (wavFileBytes_fits pcmData d n (Hreq ltac:(lia)) Hfit)
    as [Hn Hwav].
  rewrite Hwav.
  set (wav := raw_header _ _ _ _ _ ++ pcmData ++ repeat x00 (Z.to_nat n)).
  assert (Hlen : length wav = (44 + length pcmData + Z.to_nat n)%nat).
  { unfold wav. rewrite !length_app, length_raw_header, repeat_length. lia. }
  destruct (data_url_ok wav) as (base64Wav & Hb & Hnew & Ha).
  { rewrite Hlen.
    replace (Z.of_nat (44 + length pcmData + Z.to_nat n))
      with (Z.of_nat (length pcmData) + n + 44) by lia.
    exact Hurl. }
  rewrite Hb, Hnew. exists base64Wav, wav.
  split; [reflexivity|]. split; [|repeat split; auto].
  rewrite (decode_of_atob base64Wav (encode_loop wav) Ha).
  - now rewrite encode_loop_map, map_u8_byte_val.
  - rewrite encode_loop_map, length_map, Hlen. lia.
Qed.

(** X3.  The data URL carries the WAV file: for every input that
    decodes to samples and every duration, when the engine grants the
    file as a buffer and its URL as a string, [createWavFileDataUrl]
    returns the prefix [data:audio/wav;base64,] followed by a text that
    decodes to the bytes of the file - 44 header bytes, the samples,
    the silence asked for. *)
Theorem createWavFileDataUrl_carries_file {engine : Engine}
    (base64Pcm : jsstring) (pcmData : list byte) (d : Number.double) (n : Z) :
  decode base64Pcm = Ok pcmData ->
  silence_bytes d n ->
  Z.of_nat (length pcmData) + n + 44 <= max_buffer_length ->
  url_length (Z.of_nat (length pcmData) + n + 44) <= max_string_length ->
  exists base64Wav wav,
    createWavFileDataUrl base64Pcm d = Ok (dataUrlPrefix ++ base64Wav)
    /\ decode base64Wav = Ok wav
    /\ wavFileBytes pcmData d = Ok wav
    /\ length wav = (44 + length pcmData + Z.to_nat n)%nat
    /\ skipn 44 wav = pcmData ++ repeat x00 (Z.to_nat n).
Proof. apply createWavFileDataUrl_ok. Qed.

Lemma createWavFileDataUrl_carries_file_witness :
  exists base64Wav wav,
    createWavFileDataUrl (engine := language_engine) (js "AQIDBA==") d_1e_5
    = Ok (dataUrlPrefix ++ base64Wav)
    /\ decode (engine := language_engine) base64Wav = Ok wav
    /\ skipn 44 wav = [x01; x02; x03; x04].
Proof.
  assert (Hs : silence_bytes d_1e_5 0).
  { right. split; [reflexivity|]. eexists.
    split; [vm_compute; reflexivity | reflexivity]. }
  destruct (createWavFileDataUrl_carries_file (engine := language_engine)
              (js "AQIDBA==") [x01; x02; x03; x04] d_1e_5 0 eq_refl Hs)
    as (base64Wav & wav & H1 & H2 & _ & _ & H3).
  - vm_compute. discriminate.
  - vm_compute. discriminate.
  - exists base64Wav, wav.
    split; [exact H1|]. split; [exact H2 | exact H3].
Defined.

Lemma drop_pads_keeps (c : Z) (data : jsstring) :
  c <> pad -> In c data -> In c (drop_pads data).
Proof.
  intros Hc. induction data as [|x rest IH]; [easy|].
  intros Hin. cbn [drop_pads].
  destruct (JSString.eqb (x :: rest) [pad]
            || JSString.eqb (x :: rest) [pad; pad]) eqn:E.
  - exfalso. apply orb_true_iff in E as [E|E]; apply eqb_spec in E;
      rewrite E in Hin; cbn in Hin; intuition congruence.
  - destruct Hin as [->|Hin]; [now left | right; auto].
Qed.

Lemma sextets_of_chars_refuses (c : Z) (data : jsstring) :
  sextet_of_char c = None -> In c data -> sextets_of_chars data = None.
Proof.
  intros Hc. induction data as [|x rest IH]; [easy|].
  intros [->|Hin]; cbn.
  - now rewrite Hc.
  - rewrite (IH Hin). now destruct (sextet_of_char x).
Qed.

Lemma atob_refuses (c : Z) (data : jsstring) :
  In c data -> sextet_of_char c = None -> c <> pad ->
  is_ascii_whitespace c = false ->
  atob data = Err InvalidCharacterError.
Proof.
  intros Hin Hc Hpad Hws. unfold atob.
  set (data1 := filter (fun c => negb (is_ascii_whitespace c)) data).
  assert (H1 : In c data1)
    by (apply filter_In; split; [assumption | now rewrite Hws]).
  set (data2 := if (length data1 mod 4 =? 0)%nat then drop_pads data1
                else data1).
  assert (H2 : In c data2).
  { unfold data2. destruct (length data1 mod 4 =? 0)%nat;
      [now apply drop_pads_keeps | assumption]. }
  destruct (length data2 mod 4 =? 1)%nat; [reflexivity|].
  now rewrite (sextets_of_chars_refuses c data2 Hc H2).
Qed.

(** X4.  An input holding a character that is neither of the base64
    alphabet, nor the pad, nor ASCII white space is refused with
    [InvalidCharacterError] before any audio is built, whatever the
    silence duration. *)
Theorem createWavFileDataUrl_refuses_foreign_character {engine : Engine}
    (base64Pcm : jsstring) (d : Number.double) (c : Z) :
  In c base64Pcm ->
  is_base64_char c = false -> c <> pad -> is_ascii_whitespace c = false ->
  createWavFileDataUrl base64Pcm d = Err (DOM InvalidCharacterError).
Proof.
  intros Hin Hc Hpad Hws. unfold createWavFileDataUrl, decode.
  rewrite (atob_refuses c base64Pcm Hin); auto.
  unfold is_base64_char in Hc. now destruct (sextet_of_char c).
Qed.

Lemma createWavFileDataUrl_refuses_foreign_character_witness :
  createWavFileDataUrl (engine := language_engine) (js "AQ!DBA==") d_2p60
  = Err (DOM InvalidCharacterError).
Proof.
  apply (createWavFileDataUrl_refuses_foreign_character
           (engine := language_engine) (js "AQ!DBA==") d_2p60 33);
    [vm_compute; tauto | reflexivity | discriminate | reflexivity].
Defined.

(** X5.  The failures of [createWavFileDataUrl] have separate causes:
    it throws [InvalidCharacterError] exactly when [atob] refuses the
    input - the encoding of the result never does - and it returns a
    URL exactly when the input decodes and the engine grants the file,
    silence included, as a buffer and its URL as a string; what is left
    raises [RangeError]. *)
Theorem createWavFileDataUrl_failures {engine : Engine}
    (base64Pcm : jsstring) (d : Number.double) :
  (createWavFileDataUrl base64Pcm d = Err (DOM InvalidCharacterError)
   <-> atob base64Pcm = Err InvalidCharacterError)
  /\ ((exists url, createWavFileDataUrl base64Pcm d = Ok url)
      <-> exists pcmData n,
            decode base64Pcm = Ok pcmData
            /\ silence_bytes d n
            /\ Z.of_nat (length pcmData) + n + 44 <= max_buffer_length
            /\ url_length (Z.of_nat (length pcmData) + n + 44)
               <= max_string_length).
Proof.
  pose proof max_buffer_length_bound as Hbound.
  split.
  - unfold createWavFileDataUrl, decode.
    destruct (atob base64Pcm) as [binaryString|[]].
    + split; [|discriminate].
      destruct (alloc (Z.of_nat (length binaryString))) as [bytes|[]];
        [|discriminate].
      destruct (wavFileBytes _ d) as [wav|[]]; [|discriminate].
      pose proof (encode_not_refused wav) as Hnever.
      destruct (encode wav) as [base64Wav|[[]|[]]];
        [|now elim Hnever|discriminate].
      destruct (new_string (dataUrlPrefix ++ base64Wav)) as [url|[]];
        discriminate.
    + tauto.
  - split.
    + intros [url Hurl]. unfold createWavFileDataUrl in Hurl.
      destruct (decode base64Pcm) as [pcmData|] eqn:Hdec; [|discriminate].
      exists pcmData.
      destruct (wavFileBytes pcmData d) as [wav|[]] eqn:Hwav;
        [|discriminate].
      destruct (proj1 (wavFileBytes_returns_iff pcmData d)
                  (ex_intro _ wav Hwav)) as (n & Hs & Hfit).
      exists n. repeat split; try assumption.
      destruct (silence_bytes_requested d n Hs) as (Hn0 & Hreq & _).
      destruct (wavFileBytes_fits pcmData d n (Hreq ltac:(lia)) Hfit)
        as [_ Hout].
      rewrite Hout in Hwav. apply Ok_inj in Hwav. subst wav.
      destruct (Z.le_gt_cases
                  (url_length (Z.of_nat (length pcmData) + n + 44))
                  max_string_length) as [|Hbig]; [assumption|].
      rewrite data_url_err in Hurl; [discriminate|].
      rewrite !length_app, length_raw_header, repeat_length.
      replace (Z.of_nat (44 + (length pcmData + Z.to_nat n)))
        with (Z.of_nat (length pcmData) + n + 44) by lia.
      exact Hbig.
    + intros (pcmData & n & Hdec & Hs & Hfit & Hurl).
      destruct (createWavFileDataUrl_ok base64Pcm pcmData d n
                  Hdec Hs Hfit Hurl) as (base64Wav & wav & -> & _).
      now eexists.
Qed.

(* ================================================================= *)
(** ** More on the encoder *)

(** X6.  Whatever the format numbers - also negative ones, or a bit
    depth that is no multiple of 8 - the header writes of
    [createWavFile] stay inside the header: the only failure is the
    allocation of a file beyond what the engine grants.  The result is
    44 bytes longer than the samples, ends with the samples unchanged,
    and its header depends on the samples through their number
    only. *)
Theorem createWavFile_header_depends_on_length {engine : Engine}
    (pcmData pcmData' : list byte) (sr ch bits : Z) :
  length pcmData' = length pcmData ->
  (createWavFile pcmData sr ch bits = Err RangeError
   <-> max_buffer_length < Z.of_nat (length pcmData) + 44)
  /\ forall out,
       createWavFile pcmData sr ch bits = Ok out ->
       length out = (44 + length pcmData)%nat
       /\ skipn 44 out = pcmData
       /\ exists out',
            createWavFile pcmData' sr ch bits = Ok out'
            /\ firstn 44 out' = firstn 44 out.
Proof.
  intros Hlen.
  destruct (Z.le_gt_cases (Z.of_nat (length pcmData) + 44) max_buffer_length)
    as [Hfit|Hbig].
  - rewrite (createWavFile_ok pcmData sr ch bits Hfit). split.
    + split; [discriminate | lia].
    + intros out Hout. apply Ok_inj in Hout. subst out. split; [|split].
      * now rewrite length_app, length_raw_header.
      * reflexivity.
      * eexists. split.
        -- apply createWavFile_ok. rewrite Hlen. exact Hfit.
        -- rewrite Hlen. reflexivity.
  - rewrite (createWavFile_err pcmData sr ch bits Hbig). split.
    + tauto.
    + discriminate.
Qed.

Lemma createWavFile_header_depends_on_length_witness :
  exists out',
    createWavFile (engine := language_engine) [xff; xfe; xfd] (-1) 70000 12
    = Ok out'
    /\ firstn 44 out'
       = firstn 44 (raw_header 47 3 (-1) 70000 12 ++ [x01; x02; x03]).
Proof.
  assert (Hfit : Z.of_nat (length [x01; x02; x03]) + 44
                 <= max_buffer_length (Engine := language_engine))
    by (vm_compute; discriminate).
  destruct (createWavFile_header_depends_on_length (engine := language_engine)
              [x01; x02; x03] [xff; xfe; xfd] (-1) 70000 12 eq_refl)
    as [_ H].
  destruct (H _ (createWavFile_ok (engine := language_engine)
                   [x01; x02; x03] (-1) 70000 12 Hfit))
    as (_ & _ & out' & H1 & H2).
  exists out'. split; [exact H1 | exact H2].
Defined.

(** X7.  For positive format numbers whose product stays below 2^53,
    where the arithmetic of doubles is exact, the byte-rate and
    block-alignment fields hold sampleRate * channels * bits / 8 and
    channels * bits / 8 with their fraction cut off (and reduced to the
    width of the field): a bit depth that is no multiple of 8 is
    written as a header with too small a block, not refused. *)
Theorem createWavFile_truncates_fractional_fields {engine : Engine}
    (pcmData : list byte) (sr ch bits : Z) (out : list byte) :
  0 < sr -> 0 < ch -> 0 < bits -> sr * ch * bits < 2 ^ 53 ->
  createWavFile pcmData sr ch bits = Ok out ->
  le_value (slice 28 4 out) = (sr * ch * bits / 8) mod 2 ^ 32
  /\ le_value (slice 32 2 out) = (ch * bits / 8) mod 2 ^ 16.
Proof.
  intros Hsr Hch Hbits Hp H.
  assert (Hcb : 0 < ch * bits < 2 ^ 53) by nia.
  assert (Hscb : 0 < sr * ch * bits) by nia.
  destruct (Z.le_gt_cases (Z.of_nat (length pcmData) + 44) max_buffer_length)
    as [Hfit|Hbig].
  - rewrite (createWavFile_ok pcmData sr ch bits Hfit) in H.
    apply Ok_inj in H. subst out.
    split; header_cells; field_value.
    + unfold Number.ToUint32.
      rewrite byteRate_dyadic, truncate_eighths by lia.
      now rewrite Z.mod_mod by lia.
    + unfold Number.ToUint16.
      rewrite blockAlign_dyadic, truncate_eighths by lia.
      now rewrite Z.mod_mod by lia.
  - rewrite (createWavFile_err pcmData sr ch bits Hbig) in H. discriminate.
Qed.

Lemma createWavFile_truncates_fractional_fields_witness :
  exists out,
    createWavFile (engine := language_engine) [x01; x02; x03] 11025 1 12
    = Ok out
    /\ le_value (slice 28 4 out) = 16537
    /\ le_value (slice 32 2 out) = 1.
Proof.
  assert (Hfit : Z.of_nat (length [x01; x02; x03]) + 44
                 <= max_buffer_length (Engine := language_engine))
    by (vm_compute; discriminate).
  pose proof (createWavFile_ok (engine := language_engine)
                [x01; x02; x03] 11025 1 12 Hfit) as Hout.
  eexists. split; [exact Hout|].
  apply (createWavFile_truncates_fractional_fields
           (engine := language_engine) [x01; x02; x03] 11025 1 12);
    [reflexivity | reflexivity | reflexivity | reflexivity | exact Hout].
Defined.

(** Beyond 2^53 the products are rounded before they are stored: at
    2^53 - 1 Hz, 3 channels and 8 bits the double product is
    3 * 2^53 - 4, and the byte-rate field holds its low 32 bits,
    4294967292 (the bytes fc ff ff ff), where the product of the
    integers would give 4294967293. *)
Example createWavFile_rounds_large_products :
  Number.ToUint32
    (Number.mul (Number.mul (Number.of_Z (2 ^ 53 - 1)) (Number.of_Z 3))
       (Number.div (Number.of_Z 8) (Number.of_Z 8)))
  = 4294967292
  /\ ((2 ^ 53 - 1) * 3 * 8 / 8) mod 2 ^ 32 = 4294967293
  /\ firstn 4 (skipn 28 (raw_header 47 3 (2 ^ 53 - 1) 3 8))
     = [xfc; xff; xff; xff].
Proof. repeat split; vm_compute; reflexivity. Qed.

Lemma requested_silence_even (d : Number.double) (n : Z) :
  requested_silence d = Number.Integer n ->
  exists k : nat,
    n = 2 * Z.of_nat k /\ (Number.gt d Number.zero = false -> k = 0%nat).
Proof.
  unfold requested_silence.
  destruct (Number.gt d Number.zero);
    [|intros [= <-]; now exists 0%nat].
  destruct (Number.positive (silenceBytesCount d)) eqn:Hpos;
    [|intros [= <-]; exists 0%nat; split; [reflexivity | discriminate]].
  intros Hn. rewrite Hn in Hpos. cbn in Hpos. apply Z.ltb_lt in Hpos.
  unfold silenceBytesCount in Hn. cbv zeta in Hn.
  change (bitsPerSample / 8) with 2 in Hn. change numChannels with 1 in Hn.
  destruct (Number.floor _) as [z| |]; cbn [Number.scale] in Hn;
    try discriminate.
  destruct (Z.abs (z * 1) <? 2 ^ Number.emax); cbn [Number.scale] in Hn;
    [|discriminate].
  destruct (Z.abs (z * 1 * 2) <? 2 ^ Number.emax); [|discriminate].
  injection Hn as <-.
  exists (Z.to_nat z). split; [lia | discriminate].
Qed.

(** X8.  Whatever the duration - negative, NaN and infinite ones
    included - a file that [wavFileBytes] returns is the header, the
    samples untouched, and a whole number of zero samples (two bytes
    each); a duration that is not greater than 0 appends none. *)
Theorem wavFileBytes_appends_whole_samples {engine : Engine}
    (pcmData : list byte) (d : Number.double) (out : list byte) :
  wavFileBytes pcmData d = Ok out ->
  exists k : nat,
    length out = (44 + length pcmData + 2 * k)%nat
    /\ skipn 44 out = pcmData ++ repeat x00 (2 * k)
    /\ (Number.gt d Number.zero = false -> k = 0%nat).
Proof.
  intros Hout.
  destruct (requested_silence d) as [n| |] eqn:Hreq.
  - destruct (Z.le_gt_cases (Z.of_nat (length pcmData) + n + 44)
                max_buffer_length) as [Hfit|Hbig].
    + destruct (wavFileBytes_fits pcmData d n Hreq Hfit) as [_ H].
      rewrite H in Hout. apply Ok_inj in Hout. subst out.
      destruct (requested_silence_even d n Hreq) as (k & -> & Hk).
      exists k. replace (Z.to_nat (2 * Z.of_nat k)) with (2 * k)%nat by lia.
      repeat split; [|exact Hk].
      rewrite !length_app, length_raw_header, repeat_length. lia.
    + rewrite wavFileBytes_overflows in Hout; [discriminate|].
      rewrite Hreq. now intros n' [= <-].
  - rewrite wavFileBytes_overflows in Hout; [discriminate|].
    rewrite Hreq. discriminate.
  - rewrite wavFileBytes_overflows in Hout; [discriminate|].
    rewrite Hreq. discriminate.
Qed.

Definition d_minus_one : Number.double :=
  S754_finite true 4503599627370496 (-52).

Lemma wavFileBytes_appends_whole_samples_witness :
  exists k : nat,
    skipn 44 (raw_header 47 3 sampleRate numChannels bitsPerSample
              ++ [x01; x02; x03])
    = [x01; x02; x03] ++ repeat x00 (2 * k)
    /\ k = 0%nat.
Proof.
  assert (Hreq : requested_silence d_minus_one = Number.Integer 0)
    by (vm_compute; reflexivity).
  assert (Hfit : Z.of_nat (length [x01; x02; x03]) + 0 + 44
                 <= max_buffer_length (Engine := language_engine))
    by (vm_compute; discriminate).
  destruct (wavFileBytes_fits (engine := language_engine)
              [x01; x02; x03] d_minus_one 0 Hreq Hfit)
    as [_ Hout].
  destruct (wavFileBytes_appends_whole_samples (engine := language_engine)
              [x01; x02; x03] d_minus_one _ Hout) as (k & _ & H & Hk).
  exists k. split; [exact H | now apply Hk].
Defined.

(** X9.  Silence is encoded as samples: padding by a duration gives the
    file that encoding the samples with the zero bytes already appended
    gives, error for error, and the two size fields of its header count
    the silence. *)
Theorem wavFileBytes_silence_is_samples {engine : Engine}
    (pcmData : list byte) (d : Number.double) (n : Z) :
  requested_silence d = Number.Integer n ->
  wavFileBytes pcmData d
  = wavFileBytes (pcmData ++ repeat x00 (Z.to_nat n)) Number.zero
  /\ forall out,
       wavFileBytes pcmData d = Ok out ->
       le_value (slice 4 4 out)
       = (Z.of_nat (length pcmData) + n + 36) mod 2 ^ 32
       /\ le_value (slice 40 4 out)
          = (Z.of_nat (length pcmData) + n) mod 2 ^ 32.
Proof.
  intros Hreq.
  destruct (requested_silence_even d n Hreq) as (k & Hk & _).
  assert (Hplain : wavFileBytes (pcmData ++ repeat x00 (Z.to_nat n))
                     Number.zero
                   = createWavFile (pcmData ++ repeat x00 (Z.to_nat n))
                       sampleRate numChannels bitsPerSample).
  { unfold wavFileBytes. now rewrite padded_unchanged by now left. }
  assert (Hlen : Z.of_nat (length (pcmData ++ repeat x00 (Z.to_nat n)))
                 = Z.of_nat (length pcmData) + n).
  { rewrite length_app, repeat_length. lia. }
  destruct (Z.le_gt_cases (Z.of_nat (length pcmData) + n + 44)
              max_buffer_length) as [Hfit|Hbig].
  - pose proof (granted_length _ Hfit) as Hsafe.
    destruct (wavFileBytes_fits pcmData d n Hreq Hfit) as [_ H].
    rewrite H, Hplain. split.
    + rewrite createWavFile_ok by (rewrite Hlen; exact Hfit).
      rewrite Hlen. reflexivity.
    + intros out [= <-]. split; header_cells; field_value; f_equal; lia.
  - rewrite wavFileBytes_overflows
      by (rewrite Hreq; now intros n' [= <-]).
    rewrite Hplain. split; [|discriminate].
    symmetry. apply createWavFile_err. rewrite Hlen. lia.
Qed.

Lemma wavFileBytes_silence_is_samples_witness :
  wavFileBytes (engine := language_engine) [x01; x02; x03] d_half
  = wavFileBytes (engine := language_engine)
      ([x01; x02; x03] ++ repeat x00 (Z.to_nat 24000)) Number.zero.
Proof.
  exact (proj1 (wavFileBytes_silence_is_samples (engine := language_engine)
                  [x01; x02; x03] d_half 24000 eq_refl)).
Defined.

(* ================================================================= *)
(** ** More on the resolver *)

Lemma trim_keeps_class (p : Z -> bool) (s : jsstring) :
  forallb p s = true -> forallb p (trim s) = true.
Proof.
  intros H. destruct (trim_spec s) as (l & r & E & _).
  rewrite E, !forallb_app in H.
  apply andb_true_iff in H as [_ H]. now apply andb_true_iff in H as [H _].
Qed.

Lemma distinct_labels_class (script : jsstring) (l : jsstring) :
  In l (distinct_labels script) ->
  forallb is_label_char l = true /\ trimmed l = true.
Proof.
  unfold distinct_labels. rewrite Set_values_In, labels_matches.
  intros H. apply in_map_iff in H as (m & <- & Hm).
  pose proof (matches_of_label_match script) as HF.
  rewrite Forall_forall in HF.
  destruct (HF m Hm) as (run & _ & Hrun & ->).
  rewrite label_of_match. split.
  - now apply trim_keeps_class.
  - now destruct (trim_spec run) as (_ & _ & _ & _ & _ & Ht).
Qed.

(** X10.  Whenever the two-speaker branch succeeds it hands over
    exactly two entries, for two different speakers; each speaker name
    is made of letters, digits and white space only - no colon, no
    punctuation - and has no white space at either end. *)
Theorem speakerVoiceConfigs_two_named_speakers {platform : Platform}
    (script hint : jsstring) (configs : list SpeakerVoiceConfig) :
  speakerVoiceConfigs script hint = Ok configs ->
  exists c1 c2,
    configs = [c1; c2]
    /\ speaker c1 <> speaker c2
    /\ Forall (fun c => forallb is_label_char (speaker c) = true
                        /\ trimmed (speaker c) = true
                        /\ ~ In colon (speaker c)) configs.
Proof.
  unfold speakerVoiceConfigs. intros H.
  destruct (speakerVoiceConfigs_with_cases MALE_VOICES FEMALE_VOICES
              script hint)
    as [(_ & E)|[(_ & _ & E)|[(_ & _ & _ & _ & E)|(_ & H2 & _ & E)]]];
    rewrite E in H; try discriminate.
  apply Ok_inj in H.
  pose proof (assignVoices_speakers MALE_VOICES FEMALE_VOICES
                (parseGenders hint) (distinct_labels script) 0 0 0) as Hs.
  rewrite H in Hs.
  pose proof (Set_values_NoDup (labels script)) as Hnd.
  fold (distinct_labels script) in Hnd.
  pose proof (distinct_labels_class script) as Hclass.
  rewrite <- Hs in Hnd, Hclass, H2.
  destruct configs as [|c1 [|c2 [|c3 rest]]]; try discriminate.
  exists c1, c2. split; [reflexivity|]. split.
  - cbn in Hnd. inversion_clear Hnd as [|? ? Hin _].
    intros Heq. apply Hin. left. now symmetry.
  - assert (Hone : forall c, In (speaker c) (map speaker [c1; c2]) ->
              forallb is_label_char (speaker c) = true
              /\ trimmed (speaker c) = true /\ ~ In colon (speaker c)).
    { intros c Hc. destruct (Hclass _ Hc) as [Hl Ht].
      repeat split; try assumption.
      intros Hcolon. rewrite forallb_forall in Hl.
      specialize (Hl colon Hcolon). discriminate. }
    repeat constructor; apply Hone; cbn; auto.
Qed.

Lemma speakerVoiceConfigs_two_named_speakers_witness :
  exists c1 c2,
    [ {| speaker := js "A"; voiceName := Some (js "Puck") |};
      {| speaker := js "B"; voiceName := Some (js "Kore") |} ] = [c1; c2]
    /\ speaker c1 <> speaker c2.
Proof.
  destruct (speakerVoiceConfigs_two_named_speakers
              (platform := latin_platform) script_A_B_A [] _ eq_refl)
    as (c1 & c2 & H1 & H2 & _).
  now exists c1, c2.
Defined.

(** X11.  Whenever the two-speaker branch succeeds, whatever the hint,
    both speakers get a voice of the roster and the two voices are
    different. *)
Theorem speakerVoiceConfigs_two_different_voices {platform : Platform}
    (script hint : jsstring) (configs : list SpeakerVoiceConfig) :
  speakerVoiceConfigs script hint = Ok configs ->
  exists v1 v2,
    map voiceName configs = [Some v1; Some v2]
    /\ v1 <> v2
    /\ In v1 (MALE_VOICES ++ FEMALE_VOICES)
    /\ In v2 (MALE_VOICES ++ FEMALE_VOICES).
Proof.
  unfold speakerVoiceConfigs. intros H.
  destruct (speakerVoiceConfigs_with_cases MALE_VOICES FEMALE_VOICES
              script hint)
    as [(_ & E)|[(_ & _ & E)|[(_ & _ & _ & _ & E)|(_ & H2 & Hg & E)]]];
    rewrite E in H; try discriminate.
  apply Ok_inj in H. subst configs.
  destruct (distinct_labels script) as [|a [|b [|c l]]]; try discriminate.
  destruct (parseGenders hint) as [|g0 [|g1 [|g2 gs]]];
    try (destruct Hg; discriminate).
  - exists (js "Puck"), (js "Kore"). vm_compute. intuition discriminate.
  - destruct g0, g1.
    + exists (js "Puck"), (js "Charon"). vm_compute. intuition discriminate.
    + exists (js "Puck"), (js "Kore"). vm_compute. intuition discriminate.
    + exists (js "Kore"), (js "Puck"). vm_compute. intuition discriminate.
    + exists (js "Kore"), (js "Zephyr"). vm_compute. intuition discriminate.
Qed.

Lemma speakerVoiceConfigs_two_different_voices_witness :
  exists v1 v2,
    [Some (js "Kore"); Some (js "Puck")] = [Some v1; Some v2] /\ v1 <> v2.
Proof.
  destruct (speakerVoiceConfigs_two_different_voices
              (platform := latin_platform) script_A_B_A (js "nu, nam")
              _ eq_refl)
    as (v1 & v2 & H1 & H2 & _).
  now exists v1, v2.
Defined.



Lemma is_space_not_capital (c : Z) :
  65 <= c <= 122 -> is_space c = false.
Proof.
  intros H. unfold is_space, is_WhiteSpace, is_LineTerminator.
  repeat match goal with
         | |- context [?a =? ?b] => destruct (Z.eqb_spec a b); [lia|]
         end.
  destruct (Z.leb_spec 8192 c); [lia|]. reflexivity.
Qed.

Lemma is_space_ascii_lower (c : Z) : is_space (ascii_lower c) = is_space c.
Proof.
  unfold ascii_lower.
  destruct ((65 <=? c) && (c <=? 90)) eqn:E; [|reflexivity].
  apply andb_true_iff in E as [E1 E2]. apply Z.leb_le in E1, E2.
  now rewrite !is_space_not_capital by lia.
Qed.

Lemma ascii_lower_idempotent (c : Z) :
  ascii_lower (ascii_lower c) = ascii_lower c.
Proof.
  unfold ascii_lower.
  destruct ((65 <=? c) && (c <=? 90)) eqn:E; [|now rewrite E].
  apply andb_true_iff in E as [E1 E2]. apply Z.leb_le in E1, E2.
  replace ((65 <=? c + 32) && (c + 32 <=? 90)) with false; [reflexivity|].
  symmetry. apply andb_false_iff. right. apply Z.leb_gt. lia.
Qed.

Lemma is_ascii_lower (s : jsstring) :
  forallb is_ascii s = true -> forallb is_ascii (map ascii_lower s) = true.
Proof.
  rewrite !forallb_forall. intros H x Hx.
  apply in_map_iff in Hx as (c & <- & Hc). specialize (H c Hc).
  unfold is_ascii, ascii_lower in *.
  apply andb_true_iff in H as [H0 H1].
  apply Z.leb_le in H0. apply Z.ltb_lt in H1.
  destruct ((65 <=? c) && (c <=? 90)) eqn:E.
  - apply andb_true_iff in E as [E0 E1]. apply Z.leb_le in E0, E1.
    apply andb_true_iff. split; [apply Z.leb_le | apply Z.ltb_lt]; lia.
  - apply andb_true_iff. split; [apply Z.leb_le | apply Z.ltb_lt]; lia.
Qed.

Lemma blank_ascii_lower (s : jsstring) :
  forallb is_space (map ascii_lower s) = forallb is_space s.
Proof.
  induction s as [|c s IH]; cbn; [reflexivity|].
  now rewrite is_space_ascii_lower, IH.
Qed.

(** X13.  ASCII hints are read without regard to case, in both
    branches: a hint and its lower-case form give the same genders and
    the same single voice. *)
Theorem hints_ignore_case {platform : Platform} (hint : jsstring) :
  forallb is_ascii hint = true ->
  parseGenders hint = parseGenders (map ascii_lower hint)
  /\ singleVoiceName hint = singleVoiceName (map ascii_lower hint).
Proof.
  intros H. pose proof (is_ascii_lower hint H) as Hlow.
  assert (Hn : normalized hint = normalized (map ascii_lower hint)).
  { rewrite !normalized_ascii by assumption.
    rewrite map_map. apply map_ext. intros c.
    now rewrite ascii_lower_idempotent. }
  split.
  - unfold parseGenders. rewrite <- Hn.
    assert (Ht : truthy (trim hint) = truthy (trim (map ascii_lower hint))).
    { destruct (truthy (trim hint)) eqn:E1,
               (truthy (trim (map ascii_lower hint))) eqn:E2;
        try reflexivity; exfalso.
      - apply trim_empty in E2. rewrite blank_ascii_lower in E2.
        apply trim_empty in E2. congruence.
      - apply trim_empty in E1. rewrite <- blank_ascii_lower in E1.
        apply trim_empty in E1. congruence. }
    now rewrite Ht.
  - unfold singleVoiceName. now rewrite <- Hn.
Qed.

Lemma hints_ignore_case_witness :
  parseGenders (platform := latin_platform) (js "1 NAM, 1 Nu")
  = [male; female].
Proof.
  rewrite (proj1 (hints_ignore_case (platform := latin_platform)
                    (js "1 NAM, 1 Nu") eq_refl)).
  reflexivity.
Defined.

(* ================================================================= *)
(** ** Scripts in the documented format *)

(** The speaker a line names: what stands before its first colon,
    trimmed. *)
Definition line_label (line : jsstring) : jsstring :=
  trim (takeWhile (fun c => negb (c =? colon)) line).

(** The line has the form of the pattern: a non-empty run of the class
    and a colon right after it. *)
Definition names_speaker (line : jsstring) : bool :=
  match dropWhile is_label_char line with
  | c :: _ => (c =? colon) && truthy (takeWhile is_label_char line)
  | [] => false
  end.

(** A line of speech, or a name the pattern does not read: before any
    colon it has a code unit that is neither a letter of [a-zA-Z], a
    digit nor white space - punctuation, an accented letter. *)
Definition text_line (line : jsstring) : Prop :=
  exists pre c rest,
    line = pre ++ c :: rest
    /\ forallb is_label_char pre = true
    /\ is_label_char c = false
    /\ c <> colon.

Definition documented_line (line : jsstring) : Prop :=
  blank line = true \/ line_starts_with_label line \/ text_line line.

Definition line_labels (script : jsstring) : list jsstring :=
  map line_label (filter names_speaker (lines_of script)).

Definition no_terminator (s : jsstring) : bool :=
  forallb (fun c => negb (is_LineTerminator c)) s.

Lemma labels_match_loop (script : jsstring) :
  labels script = map label_of (match_loop (length script) true script).
Proof.
  unfold labels, String_match_speakerRegex.
  now destruct (match_loop (length script) true script).
Qed.

Lemma split_line (s : jsstring) :
  no_terminator s = true
  \/ exists r t s', s = r ++ t :: s' /\ no_terminator r = true
                    /\ is_LineTerminator t = true.
Proof.
  induction s as [|c s IH]; [now left|].
  destruct (is_LineTerminator c) eqn:Hc.
  - right. now exists [], c, s.
  - destruct IH as [H|(r & t & s' & -> & Hr & Ht)].
    + left. cbn. now rewrite Hc.
    + right. exists (c :: r), t, s'. cbn. now rewrite Hc.
Qed.

Lemma lines_loop_last (r : jsstring) :
  forall acc, no_terminator r = true -> lines_loop acc r = [rev acc ++ r].
Proof.
  induction r as [|c r IH]; intros acc H; cbn.
  - now rewrite app_nil_r.
  - cbn in H. apply andb_true_iff in H as [Hc Hr].
    apply negb_true_iff in Hc. rewrite Hc, IH by assumption.
    cbn. now rewrite <- app_assoc.
Qed.

Lemma lines_loop_line (r : jsstring) (t : Z) (s' : jsstring) :
  forall acc,
    no_terminator r = true -> is_LineTerminator t = true ->
    lines_loop acc (r ++ t :: s') = (rev acc ++ r) :: lines_of s'.
Proof.
  induction r as [|c r IH]; intros acc H Ht; cbn.
  - now rewrite Ht, app_nil_r.
  - cbn in H. apply andb_true_iff in H as [Hc Hr].
    apply negb_true_iff in Hc. rewrite Hc, IH by assumption.
    cbn. now rewrite <- app_assoc.
Qed.

Lemma no_terminator_app (r s : jsstring) :
  no_terminator (r ++ s) = no_terminator r && no_terminator s.
Proof. apply forallb_app. Qed.

Lemma no_terminator_tail (pre : jsstring) (c : Z) (rest : jsstring) :
  no_terminator (pre ++ c :: rest) = true -> no_terminator rest = true.
Proof.
  change (c :: rest) with ([c] ++ rest). rewrite !no_terminator_app.
  intros H. apply andb_true_iff in H as [_ H].
  now apply andb_true_iff in H as [_ H].
Qed.

Lemma is_LineTerminator_space (t : Z) :
  is_LineTerminator t = true -> is_space t = true.
Proof. unfold is_space. intros ->. apply orb_true_r. Qed.

Lemma blank_label_chars (B : jsstring) :
  blank B = true -> forallb is_label_char B = true.
Proof.
  unfold blank. rewrite !forallb_forall. intros H c Hc.
  unfold is_label_char. rewrite (H c Hc). now rewrite orb_true_r.
Qed.

Lemma line_class_label_char (label : jsstring) :
  forallb (fun c => is_letter c || is_digit c || is_WhiteSpace c) label = true ->
  forallb is_label_char label = true.
Proof.
  rewrite !forallb_forall. intros H c Hc. specialize (H c Hc).
  unfold is_label_char, is_space.
  destruct (is_letter c), (is_digit c), (is_WhiteSpace c);
    try discriminate; reflexivity.
Qed.

Lemma takeWhile_label (label rest : jsstring) :
  forallb is_label_char label = true ->
  takeWhile (fun c => negb (c =? colon)) (label ++ colon :: rest) = label.
Proof.
  induction label as [|c label IH]; cbn; [reflexivity|].
  intros H. apply andb_true_iff in H as [Hc Hl].
  destruct (Z.eqb_spec c colon) as [->|_]; [discriminate|].
  cbn. now rewrite IH.
Qed.

Lemma names_speaker_blank (line : jsstring) :
  blank line = true -> names_speaker line = false.
Proof.
  intros H. apply blank_label_chars in H. unfold names_speaker.
  rewrite <- (app_nil_r line) at 1. now rewrite dropWhile_app_all.
Qed.

Lemma names_speaker_label (line : jsstring) :
  line_starts_with_label line -> names_speaker line = true.
Proof.
  intros (label & rest & -> & Hne & H). apply line_class_label_char in H.
  unfold names_speaker. rewrite dropWhile_app_all by assumption.
  cbn. rewrite takeWhile_app_stop by (assumption || reflexivity).
  now destruct label.
Qed.

Lemma names_speaker_text (line : jsstring) :
  text_line line -> names_speaker line = false.
Proof.
  intros (pre & c & rest & -> & Hpre & Hc & Hcolon).
  unfold names_speaker. rewrite dropWhile_app_all by assumption.
  cbn. rewrite Hc. now destruct (Z.eqb_spec c colon).
Qed.

(** A code unit outside the class that is no colon stops every match
    that starts in the run before it. *)
Lemma match_here_blocked (p : jsstring) (c : Z) (tail : jsstring) :
  forallb is_label_char p = true -> is_label_char c = false ->
  c <> colon ->
  match_here (p ++ c :: tail) = None.
Proof.
  intros Hp Hc Hcolon.
  destruct (match_here (p ++ c :: tail)) as [[m rest]|] eqn:E;
    [exfalso|reflexivity].
  apply match_here_spec in E as (run & _ & Hrun & _ & E).
  revert run Hrun E.
  induction p as [|a p IH]; intros run Hrun E.
  - destruct run as [|d run]; cbn in E; injection E as -> _;
      [now elim Hcolon|].
    cbn in Hrun. rewrite Hc in Hrun. discriminate.
  - cbn in Hp. apply andb_true_iff in Hp as [Ha Hp].
    destruct run as [|d run]; cbn in E; injection E as -> E.
    + discriminate.
    + cbn in Hrun. apply andb_true_iff in Hrun as [_ Hrun].
      exact (IH Hp run Hrun E).
Qed.

Lemma match_loop_blank (fuel : nat) :
  forall (b : bool) (x : jsstring),
    blank x = true -> match_loop fuel b x = [].
Proof.
  induction fuel as [|fuel IH]; intros b x H; cbn; [reflexivity|].
  destruct x as [|c x]; [reflexivity|].
  assert (E : (if b then match_here (c :: x) else None) = None).
  { destruct b; [|reflexivity].
    destruct (match_here (c :: x)) as [[m rest]|] eqn:E; [|reflexivity].
    apply match_here_spec in E as (run & _ & _ & _ & Es).
    unfold blank in H. rewrite Es, forallb_app in H.
    apply andb_true_iff in H as [_ H]. discriminate. }
  rewrite E. apply IH. cbn in H. now apply andb_true_iff in H as [_ H].
Qed.

Lemma match_loop_rest_of_last_line (r : jsstring) :
  forall fuel, no_terminator r = true -> match_loop fuel false r = [].
Proof.
  induction r as [|c r IH]; intros fuel H; destruct fuel; cbn;
    try reflexivity.
  cbn in H. apply andb_true_iff in H as [Hc Hr].
  apply negb_true_iff in Hc. rewrite Hc. now apply IH.
Qed.

Lemma match_loop_rest_of_line (r : jsstring) (t : Z) (s' : jsstring) :
  forall fuel,
    no_terminator r = true -> is_LineTerminator t = true ->
    (length (r ++ t :: s') <= fuel)%nat ->
    match_loop fuel false (r ++ t :: s') = match_loop (length s') true s'.
Proof.
  induction r as [|c r IH]; intros fuel H Ht Hlen;
    (destruct fuel as [|fuel]; [cbn in Hlen; lia|]); cbn [app match_loop].
  - rewrite Ht. apply match_loop_fuel. cbn in Hlen. lia.
  - cbn in H. apply andb_true_iff in H as [Hc Hr].
    apply negb_true_iff in Hc. rewrite Hc. apply IH; try assumption.
    cbn in Hlen. lia.
Qed.

Lemma not_label_char_not_terminator (c : Z) :
  is_label_char c = false -> is_LineTerminator c = false.
Proof.
  unfold is_label_char, is_space. intros H.
  apply orb_false_iff in H as [_ H]. now apply orb_false_iff in H as [_ H].
Qed.

(** The scan over a text line and the blank lines [p] before it finds
    nothing, whatever the flag it is entered with. *)
Lemma match_loop_text_last_line (p : jsstring) (c : Z) (rest : jsstring) :
  forall (fuel : nat) (b : bool),
    forallb is_label_char p = true -> is_label_char c = false ->
    c <> colon -> no_terminator rest = true ->
    match_loop fuel b (p ++ c :: rest) = [].
Proof.
  induction p as [|a p IH]; intros fuel b Hp Hc Hcolon Hrest;
    (destruct fuel as [|fuel]; [reflexivity|]); cbn [app match_loop].
  - replace (if b then match_here (c :: rest) else None)
      with (@None (jsstring * jsstring))
      by (destruct b; [|reflexivity]; symmetry;
          now apply (match_here_blocked [])).
    rewrite (not_label_char_not_terminator c Hc).
    now apply match_loop_rest_of_last_line.
  - replace (if b then match_here (a :: p ++ c :: rest) else None)
      with (@None (jsstring * jsstring))
      by (destruct b; [|reflexivity]; symmetry;
          now apply (match_here_blocked (a :: p))).
    cbn in Hp. apply andb_true_iff in Hp as [_ Hp]. now apply IH.
Qed.

Lemma match_loop_text_line (p : jsstring) (c : Z) (rest : jsstring) (t : Z)
    (s' : jsstring) :
  forall (fuel : nat) (b : bool),
    forallb is_label_char p = true -> is_label_char c = false ->
    c <> colon -> no_terminator rest = true ->
    is_LineTerminator t = true ->
    (length (p ++ c :: rest ++ t :: s') <= fuel)%nat ->
    match_loop fuel b (p ++ c :: rest ++ t :: s')
    = match_loop (length s') true s'.
Proof.
  induction p as [|a p IH]; intros fuel b Hp Hc Hcolon Hrest Ht Hlen;
    (destruct fuel as [|fuel]; [cbn in Hlen; lia|]); cbn [app match_loop].
  - replace (if b then match_here (c :: rest ++ t :: s') else None)
      with (@None (jsstring * jsstring))
      by (destruct b; [|reflexivity]; symmetry;
          now apply (match_here_blocked [])).
    rewrite (not_label_char_not_terminator c Hc).
    apply match_loop_rest_of_line; try assumption. cbn in Hlen. lia.
  - replace (if b then match_here (a :: p ++ c :: rest ++ t :: s') else None)
      with (@None (jsstring * jsstring))
      by (destruct b; [|reflexivity]; symmetry;
          now apply (match_here_blocked (a :: p))).
    cbn in Hp. apply andb_true_iff in Hp as [_ Hp].
    apply IH; try assumption. cbn in Hlen. lia.
Qed.

Lemma trim_blank_prefix (B x : jsstring) :
  blank B = true -> trim (B ++ x) = trim x.
Proof.
  intros H. unfold trim, trimStart. now rewrite dropWhile_app_all.
Qed.

(** The scan at the start of a label line, the blank lines [B] before it
    already read: one match, the label that of the line. *)
Lemma match_loop_label_line (B label rest : jsstring) (fuel : nat) :
  blank B = true -> label <> [] ->
  forallb is_label_char label = true ->
  match_loop (S fuel) true ((B ++ label) ++ colon :: rest)
  = ((B ++ label) ++ [colon]) :: match_loop fuel false rest
  /\ label_of ((B ++ label) ++ [colon]) = trim label.
Proof.
  intros HB Hne Hclass. split.
  - assert (Hm : match_here ((B ++ label) ++ colon :: rest)
                 = Some ((B ++ label) ++ [colon], rest)).
    { apply match_here_complete.
      - intros E. apply app_eq_nil in E as [_ E]. contradiction.
      - now rewrite forallb_app, Hclass, (blank_label_chars B HB). }
    destruct ((B ++ label) ++ colon :: rest) as [|c x] eqn:E;
      [discriminate|].
    cbn [match_loop]. now rewrite Hm.
  - now rewrite label_of_match, trim_blank_prefix.
Qed.

(** The scan over a script of documented lines, entered at the start of
    a line with the blank lines [B] already read. *)
Lemma match_loop_documented (n : nat) :
  forall (s B : jsstring) (fuel : nat),
    (length s <= n)%nat -> blank B = true ->
    Forall documented_line (lines_of s) ->
    (length (B ++ s) <= fuel)%nat ->
    map label_of (match_loop fuel true (B ++ s)) = line_labels s.
Proof.
  induction n as [n IH] using lt_wf_ind. intros s B fuel Hn HB Hdoc Hfuel.
  unfold line_labels, lines_of in *.
  destruct (split_line s) as [Hs|(r & t & s' & -> & Hr & Ht)].
  - rewrite (lines_loop_last s []) in * by assumption. cbn [rev app] in *.
    inversion_clear Hdoc as [|? ? [Hblank|[Hlabel|Htext]] _]; cbn [filter].
    + rewrite (names_speaker_blank s Hblank). cbn [map].
      rewrite match_loop_blank; [reflexivity|].
      unfold blank in *. rewrite forallb_app. now rewrite HB.
    + rewrite (names_speaker_label s Hlabel). cbn [map].
      destruct Hlabel as (label & rest & -> & Hne & Hclass).
      apply line_class_label_char in Hclass.
      unfold line_label. rewrite takeWhile_label by assumption.
      rewrite app_assoc in *.
      destruct fuel as [|fuel];
        [rewrite length_app in Hfuel; cbn in Hfuel; lia|].
      destruct (match_loop_label_line B label rest fuel HB Hne Hclass)
        as [-> Hl].
      cbn [map]. rewrite Hl.
      rewrite match_loop_rest_of_last_line; [reflexivity|].
      exact (no_terminator_tail _ _ _ Hs).
    + rewrite (names_speaker_text s Htext). cbn [map].
      destruct Htext as (pre & c & rest & -> & Hpre & Hc & Hcolon).
      rewrite app_assoc.
      rewrite match_loop_text_last_line; try assumption; try reflexivity.
      * now rewrite forallb_app, Hpre, (blank_label_chars B HB).
      * exact (no_terminator_tail _ _ _ Hs).
  - rewrite (lines_loop_line r t s' []) in * by assumption.
    cbn [rev app] in *.
    assert (Hlt : (length s' < length (r ++ t :: s'))%nat).
    { rewrite length_app. cbn. lia. }
    inversion_clear Hdoc as [|? ? [Hblank|[Hlabel|Htext]] Hrest];
      cbn [filter].
    + rewrite (names_speaker_blank r Hblank).
      replace (B ++ r ++ t :: s') with ((B ++ r ++ [t]) ++ s') in *
        by now rewrite <- !app_assoc.
      destruct n as [|n]; [lia|].
      apply (IH (length s')); try assumption; try lia.
      unfold blank in *. rewrite !forallb_app, HB, Hblank. cbn.
      now rewrite (is_LineTerminator_space t Ht).
    + rewrite (names_speaker_label r Hlabel). cbn [map].
      destruct Hlabel as (label & rest & -> & Hne & Hclass).
      apply line_class_label_char in Hclass.
      unfold line_label. rewrite takeWhile_label by assumption.
      replace (B ++ (label ++ colon :: rest) ++ t :: s')
        with ((B ++ label) ++ colon :: (rest ++ t :: s')) in *
        by now rewrite <- !app_assoc.
      destruct fuel as [|fuel];
        [rewrite length_app in Hfuel; cbn in Hfuel; lia|].
      destruct (match_loop_label_line B label (rest ++ t :: s') fuel
                  HB Hne Hclass) as [-> Hl].
      cbn [map]. rewrite Hl. f_equal.
      rewrite match_loop_rest_of_line; try assumption.
      * destruct n as [|n]; [lia|].
        apply (IH (length s') ltac:(lia) s' [] (length s')); auto.
      * exact (no_terminator_tail _ _ _ Hr).
      * rewrite !length_app in Hfuel. cbn [length] in Hfuel.
        rewrite !length_app in Hfuel. cbn [length] in Hfuel.
        rewrite length_app. cbn [length]. lia.
    + rewrite (names_speaker_text r Htext).
      destruct Htext as (pre & c & rest & -> & Hpre & Hc & Hcolon).
      replace (B ++ (pre ++ c :: rest) ++ t :: s')
        with ((B ++ pre) ++ c :: rest ++ t :: s') in *
        by now rewrite <- !app_assoc.
      rewrite match_loop_text_line; try assumption.
      * destruct n as [|n]; [lia|].
        apply (IH (length s') ltac:(lia) s' [] (length s')); auto.
      * now rewrite forallb_app, Hpre, (blank_label_chars B HB).
      * exact (no_terminator_tail _ _ _ Hr).
Qed.

(** X14.  For a script in the documented format - every line blank, or
    starting with a label of letters, digits and spaces followed by a
    colon, or a text line, which has a punctuation mark or another code
    unit outside the class before any colon - the labels the resolver
    finds are exactly the names of the label lines, one per line and in
    order: each is the text before the first colon of its line,
    trimmed.  Blank lines, also those a CR LF pair leaves, and text
    lines add nothing; a name with an accented letter makes its line a
    text line, so that speaker is not found. *)
Theorem labels_of_documented_script (script : jsstring) :
  Forall documented_line (lines_of script) ->
  labels script = line_labels script
  /\ distinct_labels script = Set_values (line_labels script).
Proof.
  intros H.
  assert (E : labels script = line_labels script).
  { rewrite labels_match_loop.
    apply (match_loop_documented (length script) script []); auto. }
  split; [exact E|]. unfold distinct_labels. now rewrite E.
Qed.

(** The fourth line names its speaker with the letter U+1EC5. *)
Definition script_with_blank_lines : jsstring :=
  js "A: hi" ++ [13; 10; 13; 10] ++ js "B : how are you?" ++ [10]
  ++ js "Nguy" ++ [7877] ++ js "n: fine." ++ [10].

Lemma labels_of_documented_script_witness :
  labels script_with_blank_lines = [js "A"; js "B"].
Proof.
  assert (H : Forall documented_line (lines_of script_with_blank_lines)).
  { change (lines_of script_with_blank_lines)
      with [js "A" ++ colon :: js " hi"; []; []; [];
            js "B " ++ colon :: js " how are you?";
            js "Nguy" ++ 7877 :: js "n: fine."; []].
    repeat apply Forall_cons; try apply Forall_nil;
      first [ now left
            | right; left; eexists; eexists; split; [reflexivity|];
              split; [discriminate | reflexivity]
            | right; right; eexists; eexists; eexists;
              split; [reflexivity|];
              split; [reflexivity|]; split; [reflexivity | discriminate] ]. }
  rewrite (proj1 (labels_of_documented_script script_with_blank_lines H)).
  reflexivity.
Defined.

(* ================================================================= *)
(** ** Labels that span lines (C3, C6, C9)

    The pattern anchors a label at the start of a line, but its class
    [a-zA-Z0-9\s] holds the line terminators: the run before a colon may
    begin on an earlier line.  A line of words without a colon - a
    heading, an aside - is then read into the label of the line after
    it. *)

Lemma label_line_has_colon (line : jsstring) :
  line_starts_with_label line -> In colon line.
Proof.
  intros (label & rest & -> & _). apply in_elt.
Qed.

Ltac label_line label rest :=
  exists label, rest; split; [reflexivity|]; split; [discriminate|reflexivity].

Ltac no_label_line :=
  let H := fresh in
  intros H; apply label_line_has_colon in H; cbn in H; unfold colon in H;
  intuition discriminate.

(** A heading above the lines of one speaker. *)
Definition script_heading_A_A : jsstring :=
  js "Section 1" ++ [LF] ++ js "A: hi" ++ [LF] ++ js "A: bye".

(** No line has a label before its colon. *)
Definition script_no_label : jsstring := js "Hello" ++ [LF] ++ js ":)".

(** C3, the code at the failing inputs.  In the first script the lines
    that start with a label and a colon are "A: hi" and "A: bye": one
    distinct label, A.  Whatever the hint, the resolver does not fail
    with [SpeakerCountMismatch]: it reads the heading into the first
    label and counts two speakers, "Section 1", line feed, "A" and "A".
    In the second script no line starts with a label and a colon, and
    the resolver fails with [SpeakerCountMismatch 1], not with
    [MissingSpeakerLabels]. *)
Theorem speakers_counted_across_lines {platform : Platform}
    (hint : jsstring) :
  lines_of script_heading_A_A = [js "Section 1"; js "A: hi"; js "A: bye"]
  /\ ~ line_starts_with_label (js "Section 1")
  /\ line_starts_with_label (js "A: hi")
  /\ line_starts_with_label (js "A: bye")
  /\ Set_values (line_labels script_heading_A_A) = [js "A"]
  /\ (forall n, speakerVoiceConfigs script_heading_A_A hint
                <> Err (SpeakerCountMismatch n))
  /\ speakerVoiceConfigs script_heading_A_A []
     = Ok [ {| speaker := js "Section 1" ++ [LF] ++ js "A";
               voiceName := Some (js "Puck") |};
            {| speaker := js "A"; voiceName := Some (js "Kore") |} ]
  /\ lines_of script_no_label = [js "Hello"; js ":)"]
  /\ Forall (fun line => ~ line_starts_with_label line)
       (lines_of script_no_label)
  /\ speakerVoiceConfigs script_no_label hint
     = Err (SpeakerCountMismatch 1).
Proof.
  split; [reflexivity|]. split; [no_label_line|].
  split; [label_line (js "A") (js " hi")|].
  split; [label_line (js "A") (js " bye")|].
  split; [reflexivity|]. split; [|split; [reflexivity|]].
  - intros n. unfold speakerVoiceConfigs.
    destruct (speakerVoiceConfigs_with_cases MALE_VOICES FEMALE_VOICES
                script_heading_A_A hint)
      as [(_ & ->)|[(_ & N & _)|[(_ & _ & _ & _ & ->)|(_ & _ & _ & ->)]]];
      try discriminate.
    now elim N.
  - split; [reflexivity|]. split; [|reflexivity].
    change (lines_of script_no_label) with [js "Hello"; js ":)"].
    repeat constructor; [no_label_line|].
    intros (label & rest & E & Hne & Hlabel).
    destruct label as [|c label]; [contradiction|].
    change (js ":)") with [58; 41] in E. cbn in E.
    injection E as <- _. discriminate.
Qed.

(** An aside without a colon between the lines of two speakers. *)
Definition script_A_B_aside_A : jsstring :=
  js "A: hi" ++ [LF] ++ js "B: hello" ++ [LF] ++ js "ok then" ++ [LF]
  ++ js "A: bye".

(** C6, the code at the failing input.  The script has the two distinct
    labels A and B, in that order, on the three lines that start with a
    label and a colon; the hint is empty.  The resolver does not return
    A and B with the first voices of the two pools: it reads the aside
    into the label of the last line, counts three speakers, and fails.
    Without the aside - the script of the specification - it returns A
    with Puck and B with Kore. *)
Theorem default_assignment_fails_across_lines {platform : Platform} :
  lines_of script_A_B_aside_A
  = [js "A: hi"; js "B: hello"; js "ok then"; js "A: bye"]
  /\ line_starts_with_label (js "A: hi")
  /\ line_starts_with_label (js "B: hello")
  /\ ~ line_starts_with_label (js "ok then")
  /\ line_starts_with_label (js "A: bye")
  /\ line_labels script_A_B_aside_A = [js "A"; js "B"; js "A"]
  /\ Set_values (line_labels script_A_B_aside_A) = [js "A"; js "B"]
  /\ distinct_labels script_A_B_aside_A
     = [js "A"; js "B"; js "ok then" ++ [LF] ++ js "A"]
  /\ speakerVoiceConfigs script_A_B_aside_A []
     = Err (SpeakerCountMismatch 3)
  /\ speakerVoiceConfigs script_A_B_A []
     = Ok [ {| speaker := js "A"; voiceName := Some (js "Puck") |};
            {| speaker := js "B"; voiceName := Some (js "Kore") |} ].
Proof.
  split; [reflexivity|].
  split; [label_line (js "A") (js " hi")|].
  split; [label_line (js "B") (js " hello")|].
  split; [no_label_line|].
  split; [label_line (js "A") (js " bye")|].
  repeat split.
Qed.

(** Two lines of one speaker, the second with a space before the colon,
    next to each other and with a line of one word between them. *)
Definition script_A_A : jsstring := js "A: hi" ++ [LF] ++ js "A : bye".

Definition script_A_well_A : jsstring :=
  js "A: hi" ++ [LF] ++ js "well" ++ [LF] ++ js "A : bye".

(** C9, the code at the failing input.  The two lines that start with a
    label and a colon, "A: hi" and "A : bye", carry labels that differ
    only in a trailing space, and both trim to A.  Next to each other
    they count as one speaker (the resolver fails with
    [SpeakerCountMismatch 1]).  With the line "well" between them they
    count as two: the resolver succeeds, and the second speaker label it
    returns is "well", line feed, "A", which is not the trimmed label of
    any line. *)
Theorem labels_not_trimmed_across_lines {platform : Platform} :
  lines_of script_A_well_A = [js "A: hi"; js "well"; js "A : bye"]
  /\ line_starts_with_label (js "A: hi")
  /\ ~ line_starts_with_label (js "well")
  /\ line_starts_with_label (js "A : bye")
  /\ line_label (js "A: hi") = js "A"
  /\ line_label (js "A : bye") = js "A"
  /\ Set_values (line_labels script_A_well_A) = [js "A"]
  /\ speakerVoiceConfigs script_A_well_A []
     = Ok [ {| speaker := js "A"; voiceName := Some (js "Puck") |};
            {| speaker := js "well" ++ [LF] ++ js "A";
               voiceName := Some (js "Kore") |} ]
  /\ speakerVoiceConfigs script_A_A [] = Err (SpeakerCountMismatch 1).
Proof.
  split; [reflexivity|].
  split; [label_line (js "A") (js " hi")|].
  split; [no_label_line|].
  split; [label_line (js "A ") (js " bye")|].
  repeat split.
Qed.

(** ** The resolver on scripts in the documented format *)

(** On a documented line the pattern and the line-by-line reading
    agree. *)
Lemma documented_names_speaker (line : jsstring) :
  documented_line line ->
  (names_speaker line = true <-> line_starts_with_label line).
Proof.
  intros [Hblank|[Hlabel|Htext]]; split; try (intros _; assumption).
  - rewrite (names_speaker_blank line Hblank). discriminate.
  - intros (label & rest & -> & Hne & _). exfalso.
    unfold blank in Hblank. rewrite forallb_app in Hblank.
    apply andb_true_iff in Hblank as [_ H]. discriminate H.
  - intros _. now apply names_speaker_label.
  - rewrite (names_speaker_text line Htext). discriminate.
  - intros H. apply names_speaker_label in H.
    rewrite (names_speaker_text line Htext) in H. discriminate.
Qed.

Lemma documented_labels (script : jsstring) :
  Forall documented_line (lines_of script) ->
  labels script = line_labels script.
Proof.
  intros H. rewrite labels_match_loop.
  apply (match_loop_documented (length script) script []); auto.
Qed.

Lemma documented_has_label (script : jsstring) :
  Forall documented_line (lines_of script) ->
  (has_label script <-> Exists line_starts_with_label (lines_of script)).
Proof.
  intros Hdoc. split.
  - intros H. destruct (labels script) as [|l ls] eqn:E.
    { apply labels_nil in E. contradiction. }
    rewrite (documented_labels script Hdoc) in E. unfold line_labels in E.
    destruct (filter names_speaker (lines_of script)) as [|line rest] eqn:F;
      [discriminate|].
    assert (Hin : In line (filter names_speaker (lines_of script)))
      by (rewrite F; now left).
    apply filter_In in Hin as [Hin Hline].
    apply Exists_exists. exists line. split; [assumption|].
    rewrite Forall_forall in Hdoc.
    now apply (documented_names_speaker line (Hdoc line Hin)).
  - intros H. apply Exists_exists in H as (line & Hin & Hline).
    exact (label_line_has_label script line Hin Hline).
Qed.

(** X19.  A line that starts with a label and a colon is always found,
    whatever the other lines hold: a script with such a line never fails
    with [MissingSpeakerLabels]. *)
Theorem label_line_is_found {platform : Platform}
    (script hint line : jsstring) :
  In line (lines_of script) -> line_starts_with_label line ->
  speakerVoiceConfigs script hint <> Err MissingSpeakerLabels.
Proof.
  intros Hin Hline. pose proof (label_line_has_label script line Hin Hline).
  unfold speakerVoiceConfigs.
  destruct (speakerVoiceConfigs_with_cases MALE_VOICES FEMALE_VOICES
              script hint)
    as [(N & _)|[(_ & _ & ->)|[(_ & _ & _ & _ & ->)|(_ & _ & _ & ->)]]];
    try discriminate.
  contradiction.
Qed.

Lemma label_line_is_found_witness :
  In (js "A: hi") (lines_of script_A_B_aside_A)
  /\ speakerVoiceConfigs script_A_B_aside_A (js "nam")
     <> Err MissingSpeakerLabels.
Proof.
  assert (Hin : In (js "A: hi") (lines_of script_A_B_aside_A)) by now left.
  split; [exact Hin|].
  apply (label_line_is_found (platform := latin_platform)
           script_A_B_aside_A (js "nam") (js "A: hi") Hin).
  label_line (js "A") (js " hi").
Defined.

(** X20.  On a script in the documented format the first two failures
    are decided line by line: the resolver fails with
    [MissingSpeakerLabels] exactly when no line starts with a label and
    a colon, and with [SpeakerCountMismatch] exactly when some line
    does and the names of these lines, trimmed, are not two different
    ones; the number reported is the number of different names. *)
Theorem documented_script_failures {platform : Platform}
    (script hint : jsstring) :
  Forall documented_line (lines_of script) ->
  (speakerVoiceConfigs script hint = Err MissingSpeakerLabels
   <-> Forall (fun line => ~ line_starts_with_label line) (lines_of script))
  /\ (forall n,
        speakerVoiceConfigs script hint = Err (SpeakerCountMismatch n)
        <-> Exists line_starts_with_label (lines_of script)
            /\ n = length (Set_values (line_labels script))
            /\ n <> 2%nat).
Proof.
  intros Hdoc.
  pose proof (documented_has_label script Hdoc) as Hlabel.
  assert (Hlabels : distinct_labels script = Set_values (line_labels script)).
  { unfold distinct_labels. now rewrite (documented_labels script Hdoc). }
  rewrite <- Hlabels. unfold speakerVoiceConfigs. split.
  - rewrite Forall_Exists_neg, <- Hlabel.
    destruct (speakerVoiceConfigs_with_cases MALE_VOICES FEMALE_VOICES
                script hint)
      as [(H & ->)|[(H & _ & ->)|[(H & _ & _ & _ & ->)|(H & _ & _ & ->)]]];
      split; intros; try discriminate; try reflexivity; tauto.
  - intros n. rewrite <- Hlabel.
    destruct (speakerVoiceConfigs_with_cases MALE_VOICES FEMALE_VOICES
                script hint)
      as [(H & ->)|[(H & N & ->)|[(H & E & _ & _ & ->)|(H & E & _ & ->)]]];
      split; try discriminate; try tauto.
    + intros [= <-]. auto.
    + intros (_ & -> & _). reflexivity.
    + intros (_ & -> & Hn). contradiction.
    + intros (_ & -> & Hn). contradiction.
Qed.

Lemma documented_script_failures_witness :
  Forall documented_line (lines_of script_A_A)
  /\ speakerVoiceConfigs script_A_A (js "nam, nu")
     = Err (SpeakerCountMismatch 1).
Proof.
  assert (Hdoc : Forall documented_line (lines_of script_A_A)).
  { change (lines_of script_A_A) with [js "A: hi"; js "A : bye"].
    repeat apply Forall_cons; try apply Forall_nil; right; left;
      [label_line (js "A") (js " hi") | label_line (js "A ") (js " bye")]. }
  split; [exact Hdoc|].
  apply (proj2 (documented_script_failures (platform := latin_platform)
                  script_A_A (js "nam, nu") Hdoc) 1%nat).
  split; [|split; [reflexivity | discriminate]].
  apply Exists_cons_hd. label_line (js "A") (js " hi").
Defined.

(** X21.  On a script in the documented format whose label lines carry
    exactly two different names, the empty hint gives the default
    assignment in order of first appearance: the name of the first
    label line with the first entry of the male pool, the first name
    that differs from it with the first entry of the female pool - Puck
    and Kore with the pools of the source. *)
Theorem documented_script_default_assignment {platform : Platform}
    (MALE FEMALE : list jsstring) (script : jsstring) :
  Forall documented_line (lines_of script) ->
  length (Set_values (line_labels script)) = 2%nat ->
  exists a b n rest,
    Set_values (line_labels script) = [a; b]
    /\ line_labels script = repeat a (S n) ++ b :: rest
    /\ a <> b
    /\ Forall (fun l => l = a \/ l = b) rest
    /\ speakerVoiceConfigs_with MALE FEMALE script []
       = Ok [ {| speaker := a; voiceName := hd_error MALE |};
              {| speaker := b; voiceName := hd_error FEMALE |} ]
    /\ speakerVoiceConfigs script []
       = Ok [ {| speaker := a; voiceName := Some (js "Puck") |};
              {| speaker := b; voiceName := Some (js "Kore") |} ].
Proof.
  intros Hdoc H2. rewrite <- (documented_labels script Hdoc) in *.
  destruct (default_assignment_distinct_labels MALE FEMALE script H2)
    as (a & b & n & rest & E & Hne & Hlabels & Hrest & Hwith & Hsource).
  now exists a, b, n, rest.
Qed.

Lemma script_with_blank_lines_documented :
  Forall documented_line (lines_of script_with_blank_lines).
Proof.
  change (lines_of script_with_blank_lines)
    with [js "A" ++ colon :: js " hi"; []; []; [];
          js "B " ++ colon :: js " how are you?";
          js "Nguy" ++ 7877 :: js "n: fine."; []].
  repeat apply Forall_cons; try apply Forall_nil;
    first [ now left
          | right; left; eexists; eexists; split; [reflexivity|];
            split; [discriminate | reflexivity]
          | right; right; eexists; eexists; eexists;
            split; [reflexivity|];
            split; [reflexivity|]; split; [reflexivity | discriminate] ].
Qed.

Lemma documented_script_default_assignment_witness :
  speakerVoiceConfigs script_with_blank_lines []
  = Ok [ {| speaker := js "A"; voiceName := Some (js "Puck") |};
         {| speaker := js "B"; voiceName := Some (js "Kore") |} ].
Proof.
  destruct (documented_script_default_assignment (platform := latin_platform)
              MALE_VOICES FEMALE_VOICES script_with_blank_lines
              script_with_blank_lines_documented eq_refl)
    as (a & b & n & rest & E & _ & _ & _ & _ & H).
  change (Set_values (line_labels script_with_blank_lines))
    with [js "A"; js "B"] in E.
  injection E as <- <-. exact H.
Defined.

(** X22.  On a script in the documented format the speakers are the
    trimmed names of the label lines: the name of every line that
    starts with a label and a colon - what stands before the colon,
    without the white space around it - is one of the speakers; no
    speaker is listed twice; names that differ only in the white space
    around them are the same name; and the speaker labels the resolver
    returns are exactly these names, each the trimmed name of a label
    line of the script. *)
Theorem documented_script_labels_trimmed {platform : Platform}
    (script hint : jsstring) :
  Forall documented_line (lines_of script) ->
  (forall line,
     In line (lines_of script) -> line_starts_with_label line ->
     In (line_label line) (Set_values (line_labels script)))
  /\ NoDup (Set_values (line_labels script))
  /\ (forall l core r rest,
        blank l = true -> blank r = true -> trimmed core = true ->
        forallb is_label_char core = true ->
        line_label ((l ++ core ++ r) ++ colon :: rest) = core)
  /\ (forall configs,
        speakerVoiceConfigs script hint = Ok configs ->
        map speaker configs = Set_values (line_labels script)
        /\ Forall (fun c =>
                     trimmed (speaker c) = true
                     /\ exists line,
                          In line (lines_of script)
                          /\ line_starts_with_label line
                          /\ speaker c = line_label line)
             configs).
Proof.
  intros Hdoc. split; [|split; [|split]].
  - intros line Hin Hline. rewrite Set_values_In. unfold line_labels.
    apply in_map, filter_In. split; [assumption|].
    now apply names_speaker_label.
  - apply Set_values_NoDup.
  - intros l core r rest Hl Hr Hcore Hclass. unfold line_label.
    rewrite takeWhile_label; [now apply trim_pad|].
    rewrite !forallb_app, Hclass.
    now rewrite (blank_label_chars l Hl), (blank_label_chars r Hr).
  - intros configs H. unfold speakerVoiceConfigs in H.
    assert (Hmap : map speaker configs = Set_values (line_labels script)).
    { rewrite <- (documented_labels script Hdoc). fold (distinct_labels script).
      destruct (speakerVoiceConfigs_with_cases MALE_VOICES FEMALE_VOICES
                  script hint)
        as [(_ & E)|[(_ & _ & E)|[(_ & _ & _ & _ & E)|(_ & _ & _ & E)]]];
        rewrite E in H; try discriminate.
      injection H as <-. apply assignVoices_speakers. }
    split; [exact Hmap|]. apply Forall_forall. intros c Hc.
    apply (in_map speaker) in Hc. rewrite Hmap in Hc.
    rewrite Set_values_In in Hc. unfold line_labels in Hc.
    apply in_map_iff in Hc as (line & <- & Hline).
    apply filter_In in Hline as [Hin Hline]. split.
    + unfold line_label.
      now destruct (trim_spec (takeWhile (fun c => negb (c =? colon)) line))
        as (_ & _ & _ & _ & _ & Ht).
    + exists line. split; [assumption|]. split; [|reflexivity].
      rewrite Forall_forall in Hdoc.
      now apply (documented_names_speaker line (Hdoc line Hin)).
Qed.

Lemma documented_script_labels_trimmed_witness :
  In (js "A : bye") (lines_of script_A_A_B)
  /\ line_label (js "A : bye") = js "A"
  /\ In (js "A") (Set_values (line_labels script_A_A_B)).
Proof.
  assert (Hdoc : Forall documented_line (lines_of script_A_A_B)).
  { change (lines_of script_A_A_B)
      with [js "A: hi"; js "A : bye"; js " B: yo"; js "A: again"].
    repeat apply Forall_cons; try apply Forall_nil; right; left;
      [ label_line (js "A") (js " hi") | label_line (js "A ") (js " bye")
      | label_line (js " B") (js " yo") | label_line (js "A") (js " again") ]. }
  assert (Hin : In (js "A : bye") (lines_of script_A_A_B))
    by (right; now left).
  split; [exact Hin|]. split; [reflexivity|].
  apply (proj1 (documented_script_labels_trimmed (platform := latin_platform)
                  script_A_A_B [] Hdoc) (js "A : bye") Hin).
  label_line (js "A ") (js " bye").
Defined.

(* ================================================================= *)
(** ** The decision of [generateSpeech] as a whole *)

(** X15.  [generateSpeech] reaches the remote call exactly when the API
    key is set and either at most one voice is asked for - the script
    and the hint are then never a reason to refuse - or two voices are
    asked for, the speaker pattern occurs in the script, the distinct
    labels number two and the hint names no gender or two.  Without the
    key the refusal is the one about the key, whatever the rest. *)
Theorem generateSpeech_config_succeeds_exactly_when {platform : Platform}
    (GEMINI_API_KEY : option jsstring) (script voiceGenders : jsstring)
    (numVoices : Z) :
  ((exists config,
      generateSpeech_config GEMINI_API_KEY script numVoices voiceGenders
      = Ok config)
   <-> key_present GEMINI_API_KEY = true
       /\ (numVoices <= 1
           \/ (numVoices = 2
               /\ has_label script
               /\ length (distinct_labels script) = 2%nat
               /\ (length (parseGenders voiceGenders) = 0%nat
                   \/ length (parseGenders voiceGenders) = 2%nat))))
  /\ (generateSpeech_config GEMINI_API_KEY script numVoices voiceGenders
      = Err ApiKeyNotFound
      <-> key_present GEMINI_API_KEY = false).
Proof.
  unfold generateSpeech_config, speakerVoiceConfigs.
  destruct GEMINI_API_KEY as [[|k key]|]; cbn [key_present];
    try (split; split;
         [ intros [? H]; discriminate | intros [H _]; discriminate
         | reflexivity | reflexivity ]).
  destruct (Z.leb_spec numVoices 1) as [Hle|Hgt].
  { split; split; try discriminate.
    - intros _. split; [reflexivity | now left].
    - intros _. eexists. reflexivity. }
  destruct (Z.eqb_spec numVoices 2) as [->|Hne]; cbn [negb].
  2:{ split; split; try discriminate.
      - intros [? H]. discriminate.
      - intros [_ [H|[H _]]]; lia. }
  destruct (speakerVoiceConfigs_with_cases MALE_VOICES FEMALE_VOICES
              script voiceGenders)
    as [(H1 & E)|[(H1 & H2 & E)|[(H1 & H2 & H3 & H4 & E)|(H1 & H2 & H3 & E)]]];
    rewrite E; split; split; try discriminate.
  - intros [? H]. discriminate.
  - intros [_ [H|(_ & H & _)]]; [lia | contradiction].
  - intros [? H]. discriminate.
  - intros [_ [H|(_ & _ & H & _)]]; [lia | contradiction].
  - intros [? H]. discriminate.
  - intros [_ [H|(_ & _ & _ & [H|H])]]; [lia | contradiction | contradiction].
  - intros _. split; [reflexivity|]. right. auto.
  - intros _. eexists. reflexivity.
Qed.

(* ================================================================= *)
(** ** The text sent with the request *)

(** Line 259: the script, with the instruction about the accent in
    front when an accent is given. *)
Definition fullScript (accent script : jsstring) : jsstring :=
  if truthy accent
  then js "Please read the following with an " ++ accent
         ++ js " accent: " ++ [LF; LF] ++ script
  else script.

Lemma match_loop_after_blank_line (script : jsstring) (fuel : nat) :
  hd_error script <> Some colon ->
  (length script < fuel)%nat ->
  map label_of (match_loop fuel true (LF :: script))
  = map label_of (match_loop (length script) true script).
Proof.
  intros Hhd Hfuel. destruct fuel as [|fuel]; [lia|].
  cbn [match_loop].
  destruct (match_here script) as [[m rest]|] eqn:E.
  - pose proof (match_here_shorter _ _ _ E) as Hshort.
    pose proof E as E'.
    apply match_here_spec in E' as (run & Hne & Hrun & -> & ->).
    change (LF :: run ++ colon :: rest) with ((LF :: run) ++ colon :: rest).
    rewrite match_here_complete; [|discriminate|now cbn; rewrite Hrun].
    destruct (run ++ colon :: rest) as [|c x] eqn:Es; [discriminate|].
    cbn [length match_loop]. rewrite E. cbn [map].
    rewrite !label_of_match.
    change (LF :: run) with ([LF] ++ run).
    rewrite trim_blank_prefix by reflexivity. f_equal.
    cbn [length] in Hshort, Hfuel.
    rewrite (match_loop_fuel fuel) by lia.
    now rewrite (match_loop_fuel (length x)) by lia.
  - assert (E' : match_here (LF :: script) = None).
    { destruct (match_here (LF :: script)) as [[m rest]|] eqn:E1;
        [|reflexivity].
      apply match_here_spec in E1 as (run & Hne & Hrun & _ & Es).
      destruct run as [|c run]; [contradiction|].
      cbn in Es. injection Es as <- ->.
      destruct run as [|d run].
      - now elim Hhd.
      - rewrite match_here_complete in E; [discriminate|discriminate|].
        change (LF :: d :: run) with ([LF] ++ d :: run) in Hrun.
        rewrite forallb_app in Hrun.
        now apply andb_true_iff in Hrun as [_ Hrun]. }
    rewrite E'. change (is_LineTerminator LF) with true.
    rewrite match_loop_fuel by lia. reflexivity.
Qed.

Lemma match_loop_after_instruction (script : jsstring) (fuel : nat) :
  hd_error script <> Some colon ->
  (length script + 3 <= fuel)%nat ->
  map label_of (match_loop fuel false (32 :: LF :: LF :: script))
  = map label_of (match_loop (length script) true script).
Proof.
  intros Hhd Hfuel. destruct fuel as [|[|fuel]]; try lia.
  cbn [match_loop].
  change (is_LineTerminator 32) with false.
  change (is_LineTerminator LF) with true. cbn iota.
  apply match_loop_after_blank_line; [assumption | lia].
Qed.

(** X16.  The speakers are counted on the script, the model is sent
    [fullScript].  With an accent made of letters, digits and spaces the
    line put in front of the script is itself of the form the speaker
    pattern matches: the text sent carries one label more than the
    script, the instruction up to its colon, and after it the labels of
    the script unchanged; without an accent the text sent is the
    script. *)
Theorem accent_instruction_reads_as_a_label (accent script : jsstring) :
  accent <> [] ->
  forallb is_label_char accent = true ->
  hd_error script <> Some colon ->
  labels (fullScript accent script)
  = (js "Please read the following with an " ++ accent ++ js " accent")
    :: labels script
  /\ fullScript [] script = script.
Proof.
  intros Hne Hclass Hhd. split; [|reflexivity].
  rewrite !labels_match_loop. unfold fullScript.
  destruct accent as [|a accent]; [contradiction|]. cbn [truthy].
  set (accent' := a :: accent) in *.
  set (run := js "Please read the following with an " ++ accent'
              ++ js " accent").
  change (js " accent: ") with (js " accent" ++ [colon; 32]).
  replace (js "Please read the following with an " ++ accent'
           ++ (js " accent" ++ [colon; 32]) ++ [LF; LF] ++ script)
    with (run ++ colon :: 32 :: LF :: LF :: script)
    by (unfold run; now rewrite <- !app_assoc).
  assert (Hrun : forallb is_label_char run = true).
  { unfold run. now rewrite !forallb_app, Hclass. }
  assert (Hm : match_here (run ++ colon :: 32 :: LF :: LF :: script)
               = Some (run ++ [colon], 32 :: LF :: LF :: script)).
  { apply match_here_complete; [|exact Hrun]. unfold run. discriminate. }
  assert (Hlen : length (run ++ colon :: 32 :: LF :: LF :: script)
                 = S (S (S (S (length run + length script))))).
  { rewrite length_app. cbn [length]. lia. }
  rewrite Hlen.
  remember (S (S (S (length run + length script)))) as fuel eqn:Hfuel.
  destruct (run ++ colon :: 32 :: LF :: LF :: script) as [|c x] eqn:E;
    [discriminate|].
  cbn [match_loop]. rewrite Hm. cbn [map]. rewrite label_of_match. f_equal.
  - unfold run.
    rewrite <- (app_nil_r (js "Please read the following with an "
                           ++ accent' ++ js " accent")) at 1.
    apply (trim_pad []); try reflexivity.
    unfold trimmed. rewrite !rev_app_distr. reflexivity.
  - apply match_loop_after_instruction; [assumption | lia].
Qed.

Lemma accent_instruction_reads_as_a_label_witness :
  labels (fullScript (js "British") script_A_B_A)
  = [js "Please read the following with an British accent";
     js "A"; js "B"; js "A"].
Proof.
  rewrite (proj1 (accent_instruction_reads_as_a_label
                    (js "British") script_A_B_A
                    ltac:(discriminate) eq_refl ltac:(discriminate))).
  reflexivity.
Defined.

(* ================================================================= *)
(** ** The running count of [parseGenders] *)

Definition is_gender_word (part : jsstring) : bool :=
  is_male_word part || is_female_word part.

Lemma parseInt_gender_word (part : jsstring) :
  is_gender_word part = true -> parseInt part = None.
Proof.
  unfold is_gender_word, is_male_word, is_female_word. intros H.
  apply orb_true_iff in H as [H|H]; word_heads H; reflexivity.
Qed.

Lemma parseGenders_loop_counts (parts : list jsstring) :
  forall (currentCount : Z) (genders : list gender),
    1 <= currentCount ->
    (length genders + length (filter is_gender_word parts)
     <= length (snd (fold_left parseGenders_step parts
                       (currentCount, genders))))%nat
    /\ (Forall (fun part => is_gender_word part = false) parts ->
        snd (fold_left parseGenders_step parts (currentCount, genders))
        = genders).
Proof.
  induction parts as [|part parts IH]; intros currentCount genders Hc.
  - cbn. split; [lia | reflexivity].
  - cbn [fold_left filter].
    destruct (is_gender_word part) eqn:Hw.
    + assert (Hstep : exists g,
                parseGenders_step (currentCount, genders) part
                = (1, push_times currentCount g genders)).
      { unfold parseGenders_step.
        rewrite (parseInt_gender_word part Hw).
        unfold is_gender_word in Hw.
        destruct (is_male_word part); [now exists male|].
        cbn in Hw. rewrite Hw. now exists female. }
      destruct Hstep as [g ->].
      destruct (IH 1 (push_times currentCount g genders) ltac:(lia))
        as [Hlen _].
      split.
      * unfold push_times in Hlen at 1.
        rewrite length_app, repeat_length in Hlen. cbn [length]. lia.
      * intros H. inversion_clear H as [|? ? Hp _]. congruence.
    + assert (Hstep : exists count,
                1 <= count
                /\ parseGenders_step (currentCount, genders) part
                   = (count, genders)).
      { unfold parseGenders_step. unfold is_gender_word in Hw.
        apply orb_false_iff in Hw as [-> ->].
        destruct (parseInt part) as [num|]; [|now exists currentCount].
        destruct (Z.ltb_spec 0 num); [|now exists currentCount].
        exists num. split; [lia | reflexivity]. }
      destruct Hstep as (count & Hcount & ->).
      destruct (IH count genders Hcount) as [Hlen Hnone].
      split; [exact Hlen|].
      intros H. inversion_clear H. now apply Hnone.
Qed.

(** X17.  The running count of [parseGenders] never drops below 1 - a
    number that is zero or negative is passed over, not taken as a
    count - so every gender word of the hint adds at least one entry:
    the list is at least as long as the hint has gender words, and it is
    empty, which selects the default assignment, exactly when the hint
    has no gender word at all. *)
Theorem parseGenders_every_gender_word_counts {platform : Platform}
    (hint : jsstring) :
  (length (filter is_gender_word (tokens hint))
   <= length (parseGenders hint))%nat
  /\ (parseGenders hint = []
      <-> Forall (fun part => is_gender_word part = false) (tokens hint)).
Proof.
  rewrite parseGenders_tokens.
  destruct (parseGenders_loop_counts (tokens hint) 1 [] ltac:(lia))
    as [Hlen Hnone].
  cbn [length Nat.add] in Hlen. split; [exact Hlen|]. split.
  - intros E. rewrite E in Hlen. cbn in Hlen.
    apply Forall_forall. intros part Hin.
    destruct (is_gender_word part) eqn:Hw; [|reflexivity].
    assert (Hf : In part (filter is_gender_word (tokens hint)))
      by now apply filter_In.
    destruct (filter is_gender_word (tokens hint)); [contradiction|].
    cbn in Hlen. lia.
  - exact Hnone.
Qed.

(* ================================================================= *)
(** ** [writeString] on any string and any buffer *)

Lemma store_length (byteOffset : nat) (bs buf buf' : list byte) :
  store byteOffset bs buf = Ok (tt, buf') -> length buf' = length buf.
Proof.
  unfold store.
  destruct (Nat.leb_spec (byteOffset + length bs) (length buf)) as [H|H];
    [|discriminate].
  intros E. apply Ok_inj in E. injection E as <-.
  rewrite !length_app, length_firstn, length_skipn. lia.
Qed.

Lemma writeString_loop_fits (offset : nat) (str : jsstring) :
  forall (i : nat) (buf : list byte),
    (offset + i + length str <= length buf)%nat ->
    writeString_loop offset i str buf
    = Ok (tt, firstn (offset + i) buf ++ map u8 str
              ++ skipn (offset + i + length str) buf).
Proof.
  induction str as [|c rest IH]; intros i buf Hfit.
  - cbn [writeString_loop length map app]. unfold ret.
    now rewrite Nat.add_0_r, firstn_skipn.
  - cbn [writeString_loop length map] in *.
    unfold Buffer.bind, setUint8, store. cbn [length].
    destruct (Nat.leb_spec (offset + i + 1) (length buf)) as [_|H]; [|lia].
    set (buf' := firstn (offset + i) buf ++ [u8 c]
                 ++ skipn (offset + i + 1) buf).
    assert (Hlen : length (firstn (offset + i) buf) = (offset + i)%nat)
      by (rewrite length_firstn; lia).
    rewrite IH.
    2:{ unfold buf'. rewrite !length_app, Hlen, length_skipn. cbn. lia. }
    f_equal. f_equal.
    replace (offset + S i)%nat with (length (firstn (offset + i) buf) + 1)%nat
      by lia.
    unfold buf'.
    rewrite firstn_app_2. cbn [firstn app].
    rewrite <- app_assoc. cbn [app]. f_equal. f_equal. f_equal.
    rewrite skipn_app, Hlen.
    rewrite skipn_all2 by lia. cbn [app].
    replace (offset + i + 1 + length rest - (offset + i))%nat
      with (S (length rest)) by lia.
    cbn [skipn app]. rewrite skipn_skipn. f_equal. lia.
Qed.

Lemma writeString_loop_overruns (offset : nat) (str : jsstring) :
  forall (i : nat) (buf : list byte),
    str <> [] ->
    (length buf < offset + i + length str)%nat ->
    writeString_loop offset i str buf = Err RangeError.
Proof.
  induction str as [|c rest IH]; intros i buf Hne Hover; [contradiction|].
  cbn [writeString_loop length] in *.
  unfold Buffer.bind, setUint8.
  destruct (store (offset + i) [u8 c] buf) as [[[] buf']|e] eqn:E.
  - pose proof (store_length _ _ _ _ E) as Hlen.
    unfold store in E. cbn [length] in E.
    destruct (Nat.leb_spec (offset + i + 1) (length buf)) as [Hfit|_];
      [|discriminate].
    apply IH; [|lia]. destruct rest; [cbn in Hover; lia | discriminate].
  - now destruct e.
Qed.

(** X18.  [writeString] on any string, offset and buffer: when the
    string fits it overwrites exactly the cells from the offset on, one
    per code unit, with the low eight bits of the code unit, and leaves
    every other cell as it was; it raises [RangeError] exactly when the
    string is not empty and passes the end of the buffer - an empty
    string is accepted at any offset. *)
Theorem writeString_stores_low_bytes (offset : nat) (str : jsstring)
    (buf : list byte) :
  ((offset + length str <= length buf)%nat ->
   exec (writeString offset str) buf
   = Ok (firstn offset buf ++ map u8 str
         ++ skipn (offset + length str) buf))
  /\ (exec (writeString offset str) buf = Err RangeError
      <-> str <> [] /\ (length buf < offset + length str)%nat).
Proof.
  unfold exec, writeString. split; [|split].
  - intros Hfit. rewrite writeString_loop_fits by lia.
    now rewrite !Nat.add_0_r.
  - intros H. destruct str as [|c rest]; [discriminate|].
    split; [discriminate|].
    destruct (Nat.le_gt_cases (offset + length (c :: rest)) (length buf))
      as [Hfit|Hover]; [|exact Hover].
    rewrite writeString_loop_fits in H by lia. discriminate.
  - intros [Hne Hover].
    now rewrite writeString_loop_overruns by (assumption || lia).
Qed.

Lemma writeString_stores_low_bytes_witness :
  exec (writeString 1 (js "AB" ++ [321])) [x00; x00; x00; x00; xff]
  = Ok [x00; x41; x42; x41; xff].
Proof.
  exact (proj1 (writeString_stores_low_bytes 1 (js "AB" ++ [321])
                  [x00; x00; x00; x00; xff])
           ltac:(cbn; lia)).
Defined.

